(** * char_view: a shallow embedding of [char_view.h]

    The header implements a read-only view over character buffers
    ([sbt::basic_char_view]) together with the scanning algorithms of
    namespace [sbt::details].  This file embeds the integer types, the
    policy classes, the algorithms and the view methods, and states the
    properties of the view as theorems about that embedding. *)

From Stdlib Require Import ZArith List Bool Lia String Ascii.
Import ListNotations.
Local Open Scope Z_scope.

(** ** Machine integers

    [size_t] is an unsigned 64-bit integer, [ssize_t] a signed 64-bit one,
    [int] a signed and [unsigned int] an unsigned 32-bit one.  Values are
    kept in [Z]; every conversion and every unsigned operation that can
    leave the range is followed by the reduction written below. *)

Definition size_t_modulus : Z := 2 ^ 64.
Definition size_t_max : Z := size_t_modulus - 1.
Definition ssize_t_max : Z := 2 ^ 63 - 1.
Definition int_max : Z := 2 ^ 31 - 1.

Definition to_size_t (z : Z) : Z := z mod 2 ^ 64.
Definition to_ssize_t (z : Z) : Z := (z + 2 ^ 63) mod 2 ^ 64 - 2 ^ 63.
Definition to_uint (z : Z) : Z := z mod 2 ^ 32.
Definition to_int (z : Z) : Z := (z + 2 ^ 31) mod 2 ^ 32 - 2 ^ 31.

(** A count held in a [size_t], read as an [ssize_t] argument. *)
Definition ssize_of (n : nat) : Z := to_ssize_t (Z.of_nat n).

(** ** Memory

    Code units of any [charT] are integers; a [const charT*] is an address
    and [p[i]] reads the store at [p + i]. *)

Definition charT := Z.
Definition pointer := Z.
Definition memory := pointer -> charT.

(** The [n] code units stored from [p] on: what
    [std::basic_string<charT>(p, n)] copies. *)
Definition read (mem : memory) (p : pointer) (n : nat) : list charT :=
  map (fun i => mem (p + Z.of_nat i)) (seq 0 n).

(** A store holding the listed code units from address 0 on, and the
    terminator everywhere else. *)
Definition mem_of_list (l : list charT) : memory :=
  fun a => if a <? 0 then 0 else nth (Z.to_nat a) l 0.

(** The code units of a narrow string literal, terminator included. *)
Definition codes (s : string) : list charT :=
  map (fun a => Z.of_N (N_of_ascii a)) (list_ascii_of_string s).

Definition literal (s : string) : list charT := codes s ++ [0].

(** ** Range errors

    [ErrorPolicyThrowing] throws [std::runtime_error]; a method either
    returns a value or leaves with that exception. *)

Inductive outcome (A : Type) : Type :=
| Ok (a : A)
| RangeError.

Arguments Ok {A} a.
Arguments RangeError {A}.

Definition bind {A B : Type} (x : outcome A) (f : A -> outcome B) : outcome B :=
  match x with
  | Ok a => f a
  | RangeError => RangeError
  end.

(** ** Policies *)

Inductive RecursivePolicy : Type :=
| RecursivePolicyEnabled
| RecursivePolicyDisabled.

Class ErrorPolicy : Type :=
  { signal_range_check_error : bool -> charT -> outcome charT }.

Definition ErrorPolicyThrowing : ErrorPolicy :=
  {| signal_range_check_error := fun error errorResult =>
       if negb error then Ok 0 else RangeError |}.

Definition ErrorPolicyEmptyValue : ErrorPolicy :=
  {| signal_range_check_error := fun error errorResult =>
       Ok (if error then errorResult else 0) |}.

Class RangeCheckPolicy : Type :=
  { check_index_out_of_bounds : Z -> Z -> bool;
    check_is_empty : Z -> bool }.

Definition RangeCheckPolicyEnabled : RangeCheckPolicy :=
  {| check_index_out_of_bounds := fun a_size a_index => a_index >=? a_size;
     check_is_empty := fun a_size => a_size =? 0 |}.

Definition RangeCheckPolicyDisabled : RangeCheckPolicy :=
  {| check_index_out_of_bounds := fun _ _ => false;
     check_is_empty := fun _ => false |}.

(** ** Namespace [details]

    The recursive algorithms.  A [size_t] argument that counts code units
    is only compared and, when not zero, decremented: it is a [nat] and the
    recursion is structural on it.  Offsets and every [ssize_t] are in [Z];
    a decrement of an [ssize_t] is plain subtraction (signed overflow is
    not defined in C++, and no limit below [2 ^ 63] reaches it). *)

Module details.
Section Algorithms.

Variable mem : memory.

(** [no_inline::str_hash_loop], first loop: walk to the end of the
    hashed range. *)
Fixpoint hash_scan (fuel : nat) (str : pointer) (end_pos limit : Z) : option Z :=
  match fuel with
  | O => None
  | S fuel' =>
      if negb (limit =? 0) && negb (mem (str + end_pos) =? 0)
      then hash_scan fuel' str (to_size_t (end_pos + 1)) (to_size_t (limit - 1))
      else Some end_pos
  end.

(** [no_inline::str_hash_loop], second loop: fold backwards into the
    [int] accumulator. *)
Fixpoint hash_fold (fuel : nat) (str : pointer) (pos end_pos result : Z) : option Z :=
  match fuel with
  | O => None
  | S fuel' =>
      if end_pos >? pos
      then let end_pos' := to_size_t (end_pos - 1) in
           hash_fold fuel' str pos end_pos'
             (to_int (Z.lxor (mem (str + end_pos')) (to_int (33 * result))))
      else Some result
  end.

Definition MAGIC_NUM : Z := 5381.

Definition str_hash_loop (fuel : nat) (str : pointer) (pos limit : Z) : option Z :=
  match hash_scan fuel str pos limit with
  | None => None
  | Some end_pos =>
      match hash_fold fuel str pos end_pos MAGIC_NUM with
      | None => None
      | Some result => Some (to_uint result)
      end
  end.

(** [details::length]: one call per code unit up to the terminator. *)
Fixpoint length (fuel : nat) (str : pointer) : option Z :=
  match fuel with
  | O => None
  | S fuel' =>
      if negb (mem str =? 0)
      then match length fuel' (str + 1) with
           | Some n => Some (to_size_t (1 + n))
           | None => None
           end
      else Some 0
  end.

(** [details::str_hash], in [unsigned int]. *)
Fixpoint str_hash (fuel : nat) (str : pointer) (pos limit : Z) : option Z :=
  match fuel with
  | O => None
  | S fuel' =>
      if (limit =? 0) || (mem (str + pos) =? 0)
      then Some 5381
      else match str_hash fuel' str (to_size_t (pos + 1)) (to_size_t (limit - 1)) with
           | Some h => Some (Z.lxor (to_uint (mem (str + pos))) (to_uint (33 * h)))
           | None => None
           end
  end.

Fixpoint starts_with (content search_text : pointer)
    (content_limit : nat) (search_limit : Z) : bool :=
  if search_limit =? 0 then true
  else match content_limit with
       | O => if search_limit <? 0 then mem search_text =? 0 else false
       | S content_limit' =>
           if negb (mem content =? mem search_text)
           then mem search_text =? 0
           else if mem content =? 0 then true
           else starts_with (content + 1) (search_text + 1)
                  content_limit' (search_limit - 1)
       end.

Fixpoint common_length (content search_text : pointer)
    (content_limit : nat) (search_limit : Z) (match_len : Z) : Z :=
  if search_limit =? 0 then match_len
  else match content_limit with
       | O => match_len
       | S content_limit' =>
           if negb (mem content =? mem search_text) then match_len
           else if mem content =? 0 then match_len
           else common_length (content + 1) (search_text + 1)
                  content_limit' (search_limit - 1) (to_size_t (match_len + 1))
       end.

Fixpoint compare (content search_text : pointer)
    (content_limit : nat) (search_limit : Z) : Z :=
  if search_limit =? 0
  then match content_limit with O => 0 | S _ => 1 end
  else match content_limit with
       | O => if mem search_text =? 0 then 0 else -1
       | S content_limit' =>
           if mem content >? mem search_text then 1
           else if mem content <? mem search_text then -1
           else if mem content =? 0 then 0
           else compare (content + 1) (search_text + 1)
                  content_limit' (search_limit - 1)
       end.

Fixpoint contains (content search_text : pointer)
    (content_limit search_limit : nat) : bool :=
  if (content_limit <? search_limit)%nat then false
  else match content_limit with
       | O => (search_limit =? 0)%nat
       | S content_limit' =>
           if compare content search_text search_limit (ssize_of search_limit) =? 0
           then true
           else contains (content + 1) search_text content_limit' search_limit
       end.

Fixpoint index_of (content search_text : pointer)
    (content_limit search_limit : nat) (offset : Z) : Z :=
  if (content_limit <? search_limit)%nat then -1
  else match content_limit with
       | O => if (search_limit =? 0)%nat then to_ssize_t offset else -1
       | S content_limit' =>
           if starts_with content search_text search_limit (ssize_of search_limit)
           then to_ssize_t offset
           else index_of (content + 1) search_text content_limit' search_limit
                  (to_size_t (offset + 1))
       end.

Fixpoint index_of_any (content search_set : pointer)
    (content_limit search_limit : nat) (offset : Z) : Z :=
  match content_limit with
  | O => -1
  | S content_limit' =>
      if (search_limit =? 0)%nat then -1
      else if index_of search_set content search_limit 1 0 >=? 0
      then to_ssize_t offset
      else index_of_any (content + 1) search_set content_limit' search_limit
             (to_size_t (offset + 1))
  end.

Fixpoint index_of_nonmatching (content search_set : pointer)
    (content_limit search_limit : nat) (offset : Z) : Z :=
  match content_limit with
  | O => if (search_limit =? 0)%nat then to_ssize_t offset else -1
  | S content_limit' =>
      if index_of search_set content search_limit 1 0 <? 0
      then to_ssize_t offset
      else index_of_nonmatching (content + 1) search_set content_limit' search_limit
             (to_size_t (offset + 1))
  end.

Fixpoint last_index_of (content search_text : pointer)
    (content_limit search_limit : nat) (offset found_pos : Z) : Z :=
  if (content_limit <? search_limit)%nat then found_pos
  else match content_limit with
       | O => if (search_limit =? 0)%nat then to_ssize_t offset else found_pos
       | S content_limit' =>
           if compare content search_text search_limit (ssize_of search_limit) =? 0
           then last_index_of (content + 1) search_text content_limit' search_limit
                  (to_size_t (offset + 1)) (to_ssize_t offset)
           else last_index_of (content + 1) search_text content_limit' search_limit
                  (to_size_t (offset + 1)) found_pos
       end.

Fixpoint last_index_of_any (content search_set : pointer)
    (content_limit search_limit : nat) (offset found_pos : Z) : Z :=
  match content_limit with
  | O => if (search_limit =? 0)%nat then -1 else found_pos
  | S content_limit' =>
      if index_of search_set content search_limit 1 0 >=? 0
      then last_index_of_any (content + 1) search_set content_limit' search_limit
             (to_size_t (offset + 1)) (to_ssize_t offset)
      else last_index_of_any (content + 1) search_set content_limit' search_limit
             (to_size_t (offset + 1)) found_pos
  end.

Fixpoint last_index_of_nonmatching (content search_set : pointer)
    (content_limit search_limit : nat) (offset found_pos : Z) : Z :=
  match content_limit with
  | O => if (search_limit =? 0)%nat then to_ssize_t offset else found_pos
  | S content_limit' =>
      if index_of search_set content search_limit 1 0 <? 0
      then last_index_of_nonmatching (content + 1) search_set content_limit' search_limit
             (to_size_t (offset + 1)) (to_ssize_t offset)
      else last_index_of_nonmatching (content + 1) search_set content_limit' search_limit
             (to_size_t (offset + 1)) found_pos
  end.

End Algorithms.
End details.

(** ** Standard strings

    The iterative overloads of [starts_with] build [std::basic_string]
    values and compare them with [operator==]: equal sizes and equal code
    units. *)

Module std.

Fixpoint string_eq (a b : list charT) : bool :=
  match a, b with
  | [], [] => true
  | x :: a', y :: b' => (x =? y) && string_eq a' b'
  | _, _ => false
  end.

Definition min (a b : Z) : Z := if b <? a then b else a.

End std.

(** ** The view class *)

Record basic_char_view : Type :=
  { m_str : pointer;
    m_size : Z }.

(** [static const size_t npos = -1]. *)
Definition npos : Z := to_size_t (-1).

(** Constructor [basic_char_view(const charT* a_str, int a_size)]: the
    argument is converted to [int], the member is a [size_t]. *)
Definition make_view (a_str : pointer) (a_size : Z) : basic_char_view :=
  {| m_str := a_str; m_size := to_size_t (to_int a_size) |}.

Section View.

Variable mem : memory.

(** Address of the string literal [""] used by [substr] and [back]. *)
Variable empty_literal : pointer.

Context {RangeCheck : RangeCheckPolicy} {Error : ErrorPolicy}.

(** Constructor [basic_char_view(const charT* a_str)]. *)
Definition view_of_zstring (fuel : nat) (a_str : pointer) : option basic_char_view :=
  match details.length mem fuel a_str with
  | Some n => Some {| m_str := a_str; m_size := n |}
  | None => None
  end.

(** [operator[]]. *)
Definition subscript (v : basic_char_view) (index : Z) : outcome charT :=
  if check_index_out_of_bounds (m_size v) index
  then signal_range_check_error true 0
  else Ok (mem (m_str v + index)).

Definition at_ (v : basic_char_view) (index : Z) : outcome charT :=
  subscript v index.

Definition front (v : basic_char_view) : outcome charT :=
  subscript v 0.

Definition back (v : basic_char_view) : outcome charT :=
  if check_is_empty (m_size v)
  then signal_range_check_error true 0
  else subscript v (to_size_t (m_size v - 1)).

Definition substr (v : basic_char_view) (index len : Z) : outcome basic_char_view :=
  if check_index_out_of_bounds (m_size v) index
  then bind (signal_range_check_error true 0)
            (fun c => Ok (make_view empty_literal c))
  else Ok (make_view (m_str v + index)
             (if to_size_t (index + len) <=? m_size v
              then len
              else to_size_t (m_size v - index))).

(** [front(size_t a_len)]. *)
Definition front_n (v : basic_char_view) (a_len : Z) : outcome basic_char_view :=
  substr v 0 (if a_len <=? m_size v then a_len else m_size v).

(** [back(size_t a_len)]; [this_type("")] scans the literal for its
    length. *)
Definition back_n (fuel : nat) (v : basic_char_view) (a_len : Z)
  : option (outcome basic_char_view) :=
  if a_len =? 0
  then match view_of_zstring fuel empty_literal with
       | Some e => Some (Ok e)
       | None => None
       end
  else if a_len <=? m_size v
  then Some (substr v (to_size_t (m_size v - a_len)) a_len)
  else Some (substr v 0 (m_size v)).

(** [starts_with(const charT*, size_t)], both private overloads. *)
Definition starts_with_cn (policy : RecursivePolicy)
    (v : basic_char_view) (a_str : pointer) (a_len : Z) : bool :=
  match policy with
  | RecursivePolicyDisabled =>
      let str := read mem a_str (Z.to_nat (std.min a_len (m_size v))) in
      std.string_eq str (read mem (m_str v) (Z.to_nat (m_size v)))
  | RecursivePolicyEnabled =>
      details.starts_with mem (m_str v) a_str (Z.to_nat (m_size v)) (to_ssize_t a_len)
  end.

(** The overloads below are those of [RecursivePolicyEnabled], the
    default policy, the one the comparison operators are declared for. *)

(** [equals(const charT* a_str)]. *)
Definition equals_z (v : basic_char_view) (a_str : pointer) : bool :=
  (details.common_length mem (m_str v) a_str (Z.to_nat (m_size v)) (-1) 0 =? m_size v)
  && (mem (a_str + m_size v) =? 0).

(** [compare(const charT* a_str)]. *)
Definition compare_z (v : basic_char_view) (a_str : pointer) : Z :=
  details.compare mem (m_str v) a_str (Z.to_nat (m_size v)) (-1).

(** [compare(const this_type&)]. *)
Definition compare (v a_str : basic_char_view) : Z :=
  details.compare mem (m_str v) (m_str a_str)
    (Z.to_nat (m_size v)) (to_ssize_t (m_size a_str)).

(** [operator==(view, const char* rtr)] and [operator!=(view, const char* rtr)]. *)
Definition op_eq_z (ltr : basic_char_view) (rtr : pointer) : bool :=
  equals_z ltr rtr.

Definition op_ne_z (ltr : basic_char_view) (rtr : pointer) : bool :=
  negb (compare_z ltr rtr =? 0).

(** [contains(const charT*, size_t)] and [contains(const this_type&)]. *)
Definition contains_cn (v : basic_char_view) (a_str : pointer) (a_len : Z) : bool :=
  details.contains mem (m_str v) a_str (Z.to_nat (m_size v)) (Z.to_nat a_len).

Definition contains (v a_str : basic_char_view) : bool :=
  details.contains mem (m_str v) (m_str a_str)
    (Z.to_nat (m_size v)) (Z.to_nat (m_size a_str)).

(** The position methods return the [ssize_t] result as a [size_t]. *)
Definition find_cn (v : basic_char_view) (a_str : pointer) (a_len : Z) : Z :=
  to_size_t (details.index_of mem (m_str v) a_str
               (Z.to_nat (m_size v)) (Z.to_nat a_len) 0).

Definition find (v a_str : basic_char_view) : Z :=
  to_size_t (details.index_of mem (m_str v) (m_str a_str)
               (Z.to_nat (m_size v)) (Z.to_nat (m_size a_str)) 0).

Definition rfind_cn (v : basic_char_view) (a_str : pointer) (a_len : Z) : Z :=
  to_size_t (details.last_index_of mem (m_str v) a_str
               (Z.to_nat (m_size v)) (Z.to_nat a_len) 0 (-1)).

Definition rfind (v a_str : basic_char_view) : Z :=
  to_size_t (details.last_index_of mem (m_str v) (m_str a_str)
               (Z.to_nat (m_size v)) (Z.to_nat (m_size a_str)) 0 (-1)).

Definition find_first_of_cn (v : basic_char_view) (a_str : pointer) (a_len : Z) : Z :=
  to_size_t (details.index_of_any mem (m_str v) a_str
               (Z.to_nat (m_size v)) (Z.to_nat a_len) 0).

Definition find_first_of (v a_str : basic_char_view) : Z :=
  to_size_t (details.index_of_any mem (m_str v) (m_str a_str)
               (Z.to_nat (m_size v)) (Z.to_nat (m_size a_str)) 0).

Definition find_first_not_of_cn (v : basic_char_view) (a_str : pointer) (a_len : Z) : Z :=
  to_size_t (details.index_of_nonmatching mem (m_str v) a_str
               (Z.to_nat (m_size v)) (Z.to_nat a_len) 0).

Definition find_first_not_of (v a_str : basic_char_view) : Z :=
  to_size_t (details.index_of_nonmatching mem (m_str v) (m_str a_str)
               (Z.to_nat (m_size v)) (Z.to_nat (m_size a_str)) 0).

Definition find_last_of_cn (v : basic_char_view) (a_str : pointer) (a_len : Z) : Z :=
  to_size_t (details.last_index_of_any mem (m_str v) a_str
               (Z.to_nat (m_size v)) (Z.to_nat a_len) 0 (-1)).

Definition find_last_of (v a_str : basic_char_view) : Z :=
  to_size_t (details.last_index_of_any mem (m_str v) (m_str a_str)
               (Z.to_nat (m_size v)) (Z.to_nat (m_size a_str)) 0 (-1)).

Definition find_last_not_of_cn (v : basic_char_view) (a_str : pointer) (a_len : Z) : Z :=
  to_size_t (details.last_index_of_nonmatching mem (m_str v) a_str
               (Z.to_nat (m_size v)) (Z.to_nat a_len) 0 (-1)).

Definition find_last_not_of (v a_str : basic_char_view) : Z :=
  to_size_t (details.last_index_of_nonmatching mem (m_str v) (m_str a_str)
               (Z.to_nat (m_size v)) (Z.to_nat (m_size a_str)) 0 (-1)).

(** The zero-terminated overloads scan the argument for its length
    first. *)
Definition find_z (fuel : nat) (v : basic_char_view) (a_str : pointer) : option Z :=
  match details.length mem fuel a_str with
  | Some n => Some (find_cn v a_str n)
  | None => None
  end.

Definition rfind_z (fuel : nat) (v : basic_char_view) (a_str : pointer) : option Z :=
  match details.length mem fuel a_str with
  | Some n => Some (rfind_cn v a_str n)
  | None => None
  end.

Definition find_first_of_z (fuel : nat) (v : basic_char_view) (a_str : pointer)
  : option Z :=
  match details.length mem fuel a_str with
  | Some n => Some (find_first_of_cn v a_str n)
  | None => None
  end.

Definition find_first_not_of_z (fuel : nat) (v : basic_char_view) (a_str : pointer)
  : option Z :=
  match details.length mem fuel a_str with
  | Some n => Some (find_first_not_of_cn v a_str n)
  | None => None
  end.

Definition find_last_of_z (fuel : nat) (v : basic_char_view) (a_str : pointer)
  : option Z :=
  match details.length mem fuel a_str with
  | Some n => Some (find_last_of_cn v a_str n)
  | None => None
  end.

Definition find_last_not_of_z (fuel : nat) (v : basic_char_view) (a_str : pointer)
  : option Z :=
  match details.length mem fuel a_str with
  | Some n => Some (find_last_not_of_cn v a_str n)
  | None => None
  end.

End View.

(** The policies the header selects by default ([CV_DEF_RANGE_CHECK],
    [CV_DEF_RANGE_ERR_THROWS] and [CV_DEF_RECURSIVE] are defined). *)
Definition default_error_policy : ErrorPolicy := ErrorPolicyThrowing.
Definition default_range_check_policy : RangeCheckPolicy := RangeCheckPolicyEnabled.
Definition default_recursive_policy : RecursivePolicy := RecursivePolicyEnabled.

(** ** The hash, as the specification words it

    An accumulator that starts at 5381 and is folded as
    [acc = c XOR (33 * acc)], in 32 bits, over the hashed code units taken
    in reverse order of appearance. *)

Definition hash_step (acc c : Z) : Z := to_uint (Z.lxor c (33 * acc)).

Definition djb_hash (units : list charT) : Z :=
  fold_left hash_step (rev units) 5381.

(** [n] is the number of code units hashed from [p] under [limit]: they
    come before the limit and before the first terminator. *)
Definition hashed_span (mem : memory) (p : pointer) (limit : Z) (n : nat) : Prop :=
  Z.of_nat n <= limit
  /\ (forall i, 0 <= i < Z.of_nat n -> mem (p + i) <> 0)
  /\ (Z.of_nat n = limit \/ mem (p + Z.of_nat n) = 0).

(** The recursion of [details::str_hash], unfolded over the hashed units. *)
Definition hash_units (units : list charT) : Z :=
  fold_right (fun c h => Z.lxor (to_uint c) (to_uint (33 * h))) 5381 units.

(** One turn of the second loop of [str_hash_loop], on its [int]
    accumulator. *)
Definition int_step (result c : Z) : Z :=
  to_int (Z.lxor c (to_int (33 * result))).

(** ** Terminators *)

(** [p] holds a zero-terminated string of [n] code units. *)
Definition zstring (mem : memory) (p : pointer) (n : nat) : Prop :=
  (forall i, 0 <= i < Z.of_nat n -> mem (p + i) <> 0)
  /\ mem (p + Z.of_nat n) = 0.

(** The [n] code units stored from [p] on hold no terminator. *)
Definition nul_free (mem : memory) (p : pointer) (n : Z) : Prop :=
  forall i, 0 <= i < n -> mem (p + i) <> 0.

(** ** Positions *)

(** A position [r] returned for a view of [size] code units and a search
    argument of [search_len] code units: the sentinel, or an offset that
    does not pass the end and stays inside the view when the argument is
    not empty. *)
Definition position_bounded (size search_len r : Z) : Prop :=
  r = npos \/ (0 <= r <= size /\ (0 < search_len -> r < size)).

(** The same for the [ssize_t] a [details] function returns, before the
    method converts it. *)
Definition offset_bounded (size : Z) (search_limit : nat) (r : Z) : Prop :=
  position_bounded size (Z.of_nat search_limit) (to_size_t r).

(** A zero-terminated overload returns, and returns a bounded position. *)
Definition returns_bounded (size search_len : Z) (res : option Z) : Prop :=
  exists r, res = Some r /\ position_bounded size search_len r.

(** The results of the six position methods for one search argument, in
    each call shape. *)
Definition search_results (mem : memory) (v a_str : basic_char_view) : list Z :=
  [ find mem v a_str; rfind mem v a_str;
    find_first_of mem v a_str; find_first_not_of mem v a_str;
    find_last_of mem v a_str; find_last_not_of mem v a_str ].

Definition search_results_cn (mem : memory) (v : basic_char_view)
    (a_str : pointer) (a_len : Z) : list Z :=
  [ find_cn mem v a_str a_len; rfind_cn mem v a_str a_len;
    find_first_of_cn mem v a_str a_len; find_first_not_of_cn mem v a_str a_len;
    find_last_of_cn mem v a_str a_len; find_last_not_of_cn mem v a_str a_len ].

Definition search_results_z (mem : memory) (fuel : nat) (v : basic_char_view)
    (a_str : pointer) : list (option Z) :=
  [ find_z mem fuel v a_str; rfind_z mem fuel v a_str;
    find_first_of_z mem fuel v a_str; find_first_not_of_z mem fuel v a_str;
    find_last_of_z mem fuel v a_str; find_last_not_of_z mem fuel v a_str ].

(** ** [trim]

    The test [TestTrim] calls [trim()] on views, but char_view.h does not
    define it.  The definitions of this section follow the specification:
    a position is found(index) or not-found, and the whitespace set, which
    the specification does not list, is a parameter. *)

Section Trim.

Variable mem : memory.
Variable whitespace : list charT.

(** Modelled from the spec: membership of a code unit in the whitespace
    set that [trim], absent from char_view.h, strips. *)
Definition is_whitespace (c : charT) : bool :=
  existsb (Z.eqb c) whitespace.

(** Modelled from the spec: the first bound of [trim], absent from
    char_view.h: the offset of the first code unit not in the whitespace
    set, among the [n] code units stored from [p] on. *)
Fixpoint first_not_whitespace (p : pointer) (n : nat) (offset : Z) : option Z :=
  match n with
  | O => None
  | S n' =>
      if is_whitespace (mem p)
      then first_not_whitespace (p + 1) n' (offset + 1)
      else Some offset
  end.

(** Modelled from the spec: the second bound of [trim], absent from
    char_view.h: the offset of the last code unit not in the whitespace
    set, among the [n] code units stored from [p] on. *)
Fixpoint last_not_whitespace (p : pointer) (n : nat) : option Z :=
  match n with
  | O => None
  | S n' =>
      if is_whitespace (mem (p + Z.of_nat n'))
      then last_not_whitespace p n'
      else Some (Z.of_nat n')
  end.

(** Modelled from the spec: [basic_char_view::trim], absent from
    char_view.h.  "Returns the sub-view bounded by the first and last code
    units not in the whitespace set; an all-whitespace or empty input
    yields a zero-length view positioned arbitrarily." *)
Definition trim (v : basic_char_view) : basic_char_view :=
  match first_not_whitespace (m_str v) (Z.to_nat (m_size v)) 0,
        last_not_whitespace (m_str v) (Z.to_nat (m_size v)) with
  | Some first, Some last =>
      {| m_str := m_str v + first; m_size := last - first + 1 |}
  | _, _ => {| m_str := m_str v; m_size := 0 |}
  end.

End Trim.

(** Space, tab, line feed, vertical tab, form feed, carriage return. *)
Definition c_whitespace : list charT := [32; 9; 10; 11; 12; 13].

(** ** Concrete buffers *)

(** ["Abcdefg"] at address 0, ["Abcd"] at address 8 and [""] at
    address 13. *)
Definition mem_prefix : memory :=
  mem_of_list (literal "Abcdefg"%string ++ literal "Abcd"%string ++ literal ""%string).
Definition view_Abcdefg : basic_char_view := {| m_str := 0; m_size := 7 |}.
Definition addr_Abcd : pointer := 8.
Definition addr_empty : pointer := 13.
Definition view_empty : basic_char_view := {| m_str := addr_empty; m_size := 0 |}.

(** ["abc"] at address 0: its view, the empty needle at its terminator
    and the needle ["bc"]. *)
Definition mem_abc : memory := mem_of_list (literal "abc"%string).
Definition view_abc : basic_char_view := {| m_str := 0; m_size := 3 |}.
Definition view_abc_end : basic_char_view := {| m_str := 3; m_size := 0 |}.
Definition view_bc : basic_char_view := {| m_str := 1; m_size := 2 |}.

(** The literal of the trim scenario, two spaces, a tab and a space on
    either side of ["test1"], at address 0. *)
Definition mem_trim : memory :=
  mem_of_list ([32; 32; 9; 32] ++ codes "test1"%string ++ [32; 32; 9; 32] ++ [0]).
Definition view_trim : basic_char_view := {| m_str := 0; m_size := 13 |}.

(** The two code units ["a\0"] at address 0 (their literal ends at
    address 2) and ["a"] at address 3. *)
Definition mem_a_nul : memory := mem_of_list [97; 0; 0; 97; 0].
Definition view_a_nul : basic_char_view := {| m_str := 0; m_size := 2 |}.
Definition view_a : basic_char_view := {| m_str := 3; m_size := 1 |}.

(** ["abc"] at address 0 and the two code units ["a\0"] at address 4. *)
Definition mem_abc_a_nul : memory := mem_of_list [97; 98; 99; 0; 97; 0; 0].
Definition addr_a_nul : pointer := 4.
Definition needle_a_nul : basic_char_view := {| m_str := addr_a_nul; m_size := 2 |}.

(** The three code units ["a\0b"] at address 0 and the zero-terminated
    ["a"] at address 4. *)
Definition mem_a_nul_b : memory := mem_of_list [97; 0; 98; 0; 97; 0].
Definition view_a_nul_b : basic_char_view := {| m_str := 0; m_size := 3 |}.
Definition addr_a : pointer := 4.

(** * The rest of the header *)

(** ** [details::no_inline]: the iterative primitives *)

Module no_inline.
Section Loops.

Variable mem : memory.

(** The loop of [length]: step [str] and count in [res] up to the
    terminator. *)
Fixpoint length_loop (fuel : nat) (str : pointer) (res : Z) : option Z :=
  match fuel with
  | O => None
  | S fuel' =>
      if negb (mem str =? 0)
      then length_loop fuel' (str + 1) (to_size_t (res + 1))
      else Some res
  end.

Definition length (fuel : nat) (str : pointer) : option Z :=
  length_loop fuel str 0.

(** The loop of [common_length] taken when [search_limit < 0]; [res] is
    an [int]. *)
Fixpoint common_length_unlimited (content search_text : pointer)
    (content_limit : nat) (res : Z) : Z :=
  match content_limit with
  | O => res
  | S content_limit' =>
      if (mem (search_text + res) =? mem (content + res))
         && negb (mem (content + res) =? 0)
      then common_length_unlimited content search_text content_limit'
             (to_int (res + 1))
      else res
  end.

(** The loop taken otherwise, which also counts [search_limit] down. *)
Fixpoint common_length_limited (content search_text : pointer)
    (content_limit : nat) (search_limit : Z) (res : Z) : Z :=
  match content_limit with
  | O => res
  | S content_limit' =>
      if (search_limit >? 0)
         && (mem (search_text + res) =? mem (content + res))
         && negb (mem (content + res) =? 0)
      then common_length_limited content search_text content_limit'
             (search_limit - 1) (to_int (res + 1))
      else res
  end.

Definition common_length (content search_text : pointer)
    (content_limit : nat) (search_limit : Z) : Z :=
  if search_limit =? 0 then 0
  else to_size_t
         (if search_limit <? 0
          then common_length_unlimited content search_text content_limit 0
          else common_length_limited content search_text content_limit
                 search_limit 0).

End Loops.
End no_inline.

(** ** [details::ends_with]

    The two positions are [ssize_t] values that run down to [-1]; one call
    is made for each compared code unit. *)

Section EndsWith.

Variable mem : memory.

Fixpoint details_ends_with (fuel : nat) (content search_text : pointer)
    (content_pos search_pos : Z) : option bool :=
  match fuel with
  | O => None
  | S fuel' =>
      if search_pos <? 0 then Some true
      else if content_pos <? 0 then Some false
      else if negb (mem (content + content_pos) =? mem (search_text + search_pos))
      then Some false
      else details_ends_with fuel' content search_text
             (content_pos - 1) (search_pos - 1)
  end.

End EndsWith.

(** ** More of [std::basic_string] *)

Module std_string.

(** [substr(pos, n)] for [pos] not above the size. *)
Definition substr (s : list charT) (pos n : nat) : list charT :=
  firstn n (skipn pos s).

(** [size()]. *)
Definition size (s : list charT) : Z := Z.of_nat (List.length s).

(** [std::basic_string<charT>(const charT* s)]: the code units before
    the terminator. *)
Fixpoint of_c_str (mem : memory) (fuel : nat) (s : pointer) : option (list charT) :=
  match fuel with
  | O => None
  | S fuel' =>
      if mem s =? 0 then Some []
      else match of_c_str mem fuel' (s + 1) with
           | Some tl => Some (mem s :: tl)
           | None => None
           end
  end.

End std_string.

(** ** The other methods of the view *)

Section ViewMethods.

Variable mem : memory.

Definition size (v : basic_char_view) : Z := m_size v.

Definition empty (v : basic_char_view) : bool := m_size v =? 0.

Definition data (v : basic_char_view) : pointer := m_str v.


(** [operator std::basic_string<charT>()]. *)
Definition to_std_string (v : basic_char_view) : list charT :=
  read mem (m_str v) (Z.to_nat (m_size v)).

(** [hash_code()], by policy. *)
Definition hash_code (policy : RecursivePolicy) (fuel : nat)
    (v : basic_char_view) : option Z :=
  match policy with
  | RecursivePolicyDisabled => details.str_hash_loop mem fuel (m_str v) 0 (m_size v)
  | RecursivePolicyEnabled => details.str_hash mem fuel (m_str v) 0 (m_size v)
  end.

(** [starts_with(const charT* a_str)], both private overloads. *)
Definition starts_with_z (policy : RecursivePolicy) (fuel : nat)
    (v : basic_char_view) (a_str : pointer) : option bool :=
  match policy with
  | RecursivePolicyDisabled =>
      match std_string.of_c_str mem fuel a_str with
      | Some str =>
          Some (std.string_eq
                  (std_string.substr str 0 (Z.to_nat (m_size v)))
                  (read mem (m_str v) (Z.to_nat (std_string.size str))))
      | None => None
      end
  | RecursivePolicyEnabled =>
      Some (details.starts_with mem (m_str v) a_str (Z.to_nat (m_size v)) (-1))
  end.

(** [starts_with(const this_type&)], recursive overload. *)
Definition starts_with (v a_str : basic_char_view) : bool :=
  details.starts_with mem (m_str v) (m_str a_str)
    (Z.to_nat (m_size v)) (to_ssize_t (m_size a_str)).

(** [ends_with(const charT*, size_t)], both private overloads. *)
Definition ends_with_cn (policy : RecursivePolicy) (fuel : nat)
    (v : basic_char_view) (a_str : pointer) (a_len : Z) : option bool :=
  match policy with
  | RecursivePolicyDisabled =>
      let str := read mem a_str (Z.to_nat a_len) in
      if std_string.size str >? m_size v then Some false
      else if m_size v =? 0 then Some true
      else Some (std.string_eq
                   (std_string.substr (read mem (m_str v) (Z.to_nat (m_size v)))
                      (Z.to_nat (to_size_t (m_size v - std_string.size str)))
                      (Z.to_nat (std_string.size str)))
                   str)
  | RecursivePolicyEnabled =>
      details_ends_with mem fuel (m_str v) a_str
        (to_ssize_t (m_size v) - 1) (to_ssize_t a_len - 1)
  end.

(** [ends_with(const this_type&)], recursive overload. *)
Definition ends_with (fuel : nat) (v a_str : basic_char_view) : option bool :=
  details_ends_with mem fuel (m_str v) (m_str a_str)
    (to_ssize_t (m_size v) - 1) (to_ssize_t (m_size a_str) - 1).

(** [ends_with(const charT* a_str)], recursive overload. *)
Definition ends_with_z (fuel : nat) (v : basic_char_view) (a_str : pointer)
  : option bool :=
  match details.length mem fuel a_str with
  | Some n =>
      details_ends_with mem fuel (m_str v) a_str
        (to_ssize_t (m_size v) - 1) (to_ssize_t n - 1)
  | None => None
  end.

(** [equals(const charT* a_str)], iterative overload (the recursive one
    is [equals_z]). *)
Definition equals_z_iterative (v : basic_char_view) (a_str : pointer) : bool :=
  (no_inline.common_length mem (m_str v) a_str (Z.to_nat (m_size v)) (-1)
   =? m_size v)
  && (mem (a_str + m_size v) =? 0).

(** [equals(const charT*, size_t)], both private overloads. *)
Definition equals_cn (policy : RecursivePolicy)
    (v : basic_char_view) (a_str : pointer) (a_len : Z) : bool :=
  match policy with
  | RecursivePolicyDisabled =>
      if negb (a_len =? m_size v) then false
      else no_inline.common_length mem (m_str v) a_str
             (Z.to_nat (m_size v)) (to_ssize_t (m_size v))
           =? m_size v
  | RecursivePolicyEnabled =>
      if negb (a_len =? m_size v) then false
      else details.starts_with mem (m_str v) a_str
             (Z.to_nat (m_size v)) (to_ssize_t (m_size v))
  end.

(** [equals(const this_type&)], both private overloads. *)
Definition equals (policy : RecursivePolicy) (v a_str : basic_char_view) : bool :=
  equals_cn policy v (m_str a_str) (m_size a_str).

(** [compare(const charT*, size_t)], recursive overload. *)
Definition compare_cn (v : basic_char_view) (a_str : pointer) (a_len : Z) : Z :=
  details.compare mem (m_str v) a_str (Z.to_nat (m_size v)) (to_ssize_t a_len).

(** The operators between two views, declared for the default
    policies. *)
Definition op_lt (ltr rtr : basic_char_view) : bool := compare mem rtr ltr >? 0.
Definition op_le (ltr rtr : basic_char_view) : bool := compare mem rtr ltr >=? 0.
Definition op_gt (ltr rtr : basic_char_view) : bool := compare mem rtr ltr <? 0.
Definition op_ge (ltr rtr : basic_char_view) : bool := compare mem rtr ltr <=? 0.
Definition op_eq (ltr rtr : basic_char_view) : bool :=
  equals RecursivePolicyEnabled rtr ltr.
Definition op_ne (ltr rtr : basic_char_view) : bool :=
  negb (compare mem rtr ltr =? 0).

End ViewMethods.

(** ** Statement devices *)

(** Lexicographic three-way comparison of two runs of code units. *)
Fixpoint lex_compare (a b : list charT) : Z :=
  match a, b with
  | [], [] => 0
  | [], _ :: _ => -1
  | _ :: _, [] => 1
  | x :: a', y :: b' =>
      if x >? y then 1 else if x <? y then -1 else lex_compare a' b'
  end.

(** The needle of [a_len] code units at [a_str] occurs in the view [v] at
    offset [i]. *)
Definition occurs_at (mem : memory) (v : basic_char_view)
    (a_str : pointer) (a_len i : Z) : Prop :=
  0 <= i /\ i + a_len <= m_size v
  /\ read mem (m_str v + i) (Z.to_nat a_len) = read mem a_str (Z.to_nat a_len).

(** The code unit of [v] at offset [i] is one of the [a_len] code units
    at [a_str]. *)
Definition member_at (mem : memory) (v : basic_char_view)
    (a_str : pointer) (a_len i : Z) : Prop :=
  In (mem (m_str v + i)) (read mem a_str (Z.to_nat a_len)).

(** * Properties *)

(** ** Integer conversions *)

Lemma to_size_t_small z : 0 <= z <= size_t_max -> to_size_t z = z.
Proof.
  unfold to_size_t, size_t_max, size_t_modulus. intros H.
  apply Z.mod_small. lia.
Qed.

Lemma to_ssize_t_small z : - 2 ^ 63 <= z <= ssize_t_max -> to_ssize_t z = z.
Proof.
  unfold to_ssize_t, ssize_t_max. intros H.
  rewrite Z.mod_small; lia.
Qed.

Lemma to_size_t_to_ssize_t z : to_size_t (to_ssize_t z) = to_size_t z.
Proof.
  unfold to_size_t, to_ssize_t.
  rewrite (Z.mod_eq (z + 2 ^ 63) (2 ^ 64)) by lia.
  replace (z + 2 ^ 63 - 2 ^ 64 * ((z + 2 ^ 63) / 2 ^ 64) - 2 ^ 63)
    with (z + (- ((z + 2 ^ 63) / 2 ^ 64)) * 2 ^ 64) by ring.
  apply Z_mod_plus_full.
Qed.

Lemma to_uint_to_int z : to_uint (to_int z) = to_uint z.
Proof.
  unfold to_uint, to_int.
  rewrite (Z.mod_eq (z + 2 ^ 31) (2 ^ 32)) by lia.
  replace (z + 2 ^ 31 - 2 ^ 32 * ((z + 2 ^ 31) / 2 ^ 32) - 2 ^ 31)
    with (z + (- ((z + 2 ^ 31) / 2 ^ 32)) * 2 ^ 32) by ring.
  apply Z_mod_plus_full.
Qed.

Lemma to_uint_mul_r a z : to_uint (a * to_uint z) = to_uint (a * z).
Proof.
  unfold to_uint. rewrite Z.mul_mod_idemp_r by lia. reflexivity.
Qed.

Lemma to_uint_lxor a b : to_uint (Z.lxor a b) = Z.lxor (to_uint a) (to_uint b).
Proof.
  unfold to_uint.
  rewrite <- !Z.land_ones by lia.
  apply Z.bits_inj'. intros n Hn.
  rewrite Z.land_spec, !Z.lxor_spec, !Z.land_spec.
  destruct (Z.testbit (Z.ones 32) n); rewrite ?andb_true_r, ?andb_false_r; reflexivity.
Qed.

(** ** Reading the store *)

Lemma read_cons mem p n :
  read mem p (S n) = mem p :: read mem (p + 1) n.
Proof.
  unfold read. cbn [seq map]. rewrite Z.add_0_r. f_equal.
  rewrite <- seq_shift, map_map.
  apply map_ext. intros i. f_equal. lia.
Qed.

Lemma read_snoc mem p n :
  read mem p (S n) = read mem p n ++ [mem (p + Z.of_nat n)].
Proof.
  unfold read. rewrite seq_S, map_app. reflexivity.
Qed.

Lemma read_length mem p n : List.length (read mem p n) = n.
Proof. unfold read. rewrite length_map, length_seq. reflexivity. Qed.

Lemma hashed_span_exists mem p limit :
  0 <= limit -> exists n, hashed_span mem p limit n.
Proof.
  intros Hl. rewrite <- (Z2Nat.id limit Hl).
  generalize (Z.to_nat limit) as k. clear limit Hl. intros k. revert p.
  induction k as [|k IH]; intros p.
  - exists 0%nat. unfold hashed_span. split; [lia|]. split; [lia|]. left. reflexivity.
  - destruct (Z.eq_dec (mem p) 0) as [E|E].
    + exists 0%nat. unfold hashed_span. split; [lia|]. split; [lia|].
      right. rewrite Z.add_0_r. exact E.
    + destruct (IH (p + 1)) as [n (Hle & Hnz & Hend)].
      exists (S n). unfold hashed_span. split; [lia|]. split.
      * intros i Hi. destruct (Z.eq_dec i 0) as [->|Hi0].
        -- rewrite Z.add_0_r. exact E.
        -- replace (p + i) with (p + 1 + (i - 1)) by lia. apply Hnz. lia.
      * destruct Hend as [Hend|Hend]; [left; lia|right].
        replace (p + Z.of_nat (S n)) with (p + 1 + Z.of_nat n) by lia. exact Hend.
Qed.

Lemma hashed_span_step mem p limit n :
  hashed_span mem p limit (S n) ->
  limit <> 0 /\ mem p <> 0 /\ hashed_span mem (p + 1) (limit - 1) n.
Proof.
  intros (Hle & Hnz & Hend). split; [lia|]. split.
  - rewrite <- (Z.add_0_r p). apply Hnz. lia.
  - split; [lia|]. split.
    + intros i Hi. replace (p + 1 + i) with (p + (i + 1)) by lia. apply Hnz. lia.
    + destruct Hend as [Hend|Hend]; [left; lia|right].
      replace (p + 1 + Z.of_nat n) with (p + Z.of_nat (S n)) by lia. exact Hend.
Qed.

Lemma hashed_span_zero mem p limit :
  hashed_span mem p limit 0 -> limit = 0 \/ mem p = 0.
Proof.
  intros (_ & _ & [H|H]); [left; lia|right].
  rewrite Z.add_0_r in H. exact H.
Qed.

(** ** The two hash paths *)

Lemma djb_hash_cons c units :
  djb_hash (c :: units) = hash_step (djb_hash units) c.
Proof.
  unfold djb_hash. cbn [rev]. rewrite fold_left_app. reflexivity.
Qed.

Lemma hash_units_djb units : hash_units units = djb_hash units.
Proof.
  induction units as [|c units IH]; [reflexivity|].
  rewrite djb_hash_cons. cbn [hash_units fold_right].
  fold (hash_units units). rewrite IH.
  unfold hash_step. rewrite to_uint_lxor. reflexivity.
Qed.

Lemma str_hash_units mem str n : forall fuel pos limit,
  0 <= pos -> pos + Z.of_nat n <= size_t_max ->
  0 <= limit <= size_t_max ->
  hashed_span mem (str + pos) limit n ->
  (n < fuel)%nat ->
  details.str_hash mem fuel str pos limit
  = Some (hash_units (read mem (str + pos) n)).
Proof.
  induction n as [|n IH]; intros fuel pos limit Hpos Hend Hlim Hspan Hfuel.
  - destruct fuel as [|fuel]; [lia|]. cbn [details.str_hash].
    apply hashed_span_zero in Hspan.
    destruct Hspan as [-> | ->]; [reflexivity|].
    rewrite Z.eqb_refl, orb_true_r. reflexivity.
  - destruct fuel as [|fuel]; [lia|]. cbn [details.str_hash].
    apply hashed_span_step in Hspan. destruct Hspan as (Hl & Hc & Hspan).
    apply Z.eqb_neq in Hl, Hc. rewrite Hl, Hc. cbn [orb].
    apply Z.eqb_neq in Hl.
    rewrite (to_size_t_small (pos + 1)), (to_size_t_small (limit - 1)) by lia.
    rewrite (IH fuel (pos + 1) (limit - 1)); try lia.
    + rewrite read_cons. cbn [hash_units fold_right].
      replace (str + pos + 1) with (str + (pos + 1)) by lia. reflexivity.
    + replace (str + (pos + 1)) with (str + pos + 1) by lia. exact Hspan.
Qed.

Lemma hash_scan_end mem str n : forall fuel pos limit,
  0 <= pos -> pos + Z.of_nat n <= size_t_max ->
  0 <= limit <= size_t_max ->
  hashed_span mem (str + pos) limit n ->
  (n < fuel)%nat ->
  details.hash_scan mem fuel str pos limit = Some (pos + Z.of_nat n).
Proof.
  induction n as [|n IH]; intros fuel pos limit Hpos Hend Hlim Hspan Hfuel.
  - destruct fuel as [|fuel]; [lia|]. cbn [details.hash_scan].
    apply hashed_span_zero in Hspan. rewrite Z.add_0_r.
    destruct Hspan as [-> | ->]; [reflexivity|].
    rewrite Z.eqb_refl, andb_false_r. reflexivity.
  - destruct fuel as [|fuel]; [lia|]. cbn [details.hash_scan].
    apply hashed_span_step in Hspan. destruct Hspan as (Hl & Hc & Hspan).
    apply Z.eqb_neq in Hl, Hc. rewrite Hl, Hc. cbn [negb andb].
    apply Z.eqb_neq in Hl.
    rewrite (to_size_t_small (pos + 1)), (to_size_t_small (limit - 1)) by lia.
    rewrite (IH fuel (pos + 1) (limit - 1)); try lia.
    + f_equal. lia.
    + replace (str + (pos + 1)) with (str + pos + 1) by lia. exact Hspan.
Qed.

Lemma hash_fold_units mem str pos k : forall fuel result,
  0 <= pos -> pos + Z.of_nat k <= size_t_max ->
  (k < fuel)%nat ->
  details.hash_fold mem fuel str pos (pos + Z.of_nat k) result
  = Some (fold_left int_step (rev (read mem (str + pos) k)) result).
Proof.
  induction k as [|k IH]; intros fuel result Hpos Hend Hfuel.
  - destruct fuel as [|fuel]; [lia|]. cbn [details.hash_fold].
    rewrite Z.add_0_r.
    rewrite Z.gtb_ltb, Z.ltb_irrefl.
    reflexivity.
  - destruct fuel as [|fuel]; [lia|]. cbn [details.hash_fold].
    rewrite Z.gtb_ltb.
    replace (pos <? pos + Z.of_nat (S k)) with true
      by (symmetry; apply Z.ltb_lt; lia).
    cbv zeta.
    replace (pos + Z.of_nat (S k) - 1) with (pos + Z.of_nat k) by lia.
    rewrite (to_size_t_small (pos + Z.of_nat k)) by lia.
    rewrite IH by lia.
    rewrite read_snoc, rev_app_distr. cbn [rev app fold_left].
    replace (str + pos + Z.of_nat k) with (str + (pos + Z.of_nat k)) by lia.
    reflexivity.
Qed.

Lemma int_fold_unsigned units : forall a b,
  b = to_uint a ->
  to_uint (fold_left int_step units a) = fold_left hash_step units b.
Proof.
  induction units as [|c units IH]; intros a b Hab.
  - cbn [fold_left]. symmetry. exact Hab.
  - cbn [fold_left]. apply IH.
    unfold hash_step, int_step.
    rewrite to_uint_to_int, !to_uint_lxor, to_uint_to_int, Hab.
    rewrite to_uint_mul_r. reflexivity.
Qed.

(** C7.  [details::str_hash] and [no_inline::str_hash_loop] return the
    same value for every string, start and limit, and that value is the
    fold of the specification: the accumulator starts at 5381, each step
    is [acc = c XOR (33 * acc)] in 32 bits, and the code units that come
    before the limit and before the first terminator are taken in reverse
    order of appearance.  [hashed_span_exists] gives the number of hashed
    units for every input; any fuel above it lets both paths return. *)
Theorem str_hash_paths_agree (mem : memory) (str : pointer) (pos limit : Z)
    (n fuel : nat) :
  0 <= pos -> 0 <= limit <= size_t_max ->
  pos + Z.of_nat n <= size_t_max ->
  hashed_span mem (str + pos) limit n ->
  (n < fuel)%nat ->
  details.str_hash mem fuel str pos limit
  = Some (djb_hash (read mem (str + pos) n))
  /\ details.str_hash_loop mem fuel str pos limit
     = Some (djb_hash (read mem (str + pos) n)).
Proof.
  intros Hpos Hlim Hend Hspan Hfuel. split.
  - rewrite <- hash_units_djb. apply str_hash_units; assumption.
  - unfold details.str_hash_loop.
    rewrite (hash_scan_end mem str n) by assumption.
    rewrite hash_fold_units by assumption.
    f_equal. unfold djb_hash, details.MAGIC_NUM.
    apply int_fold_unsigned. reflexivity.
Qed.

Lemma str_hash_paths_agree_witness :
  details.str_hash mem_abc 4 0 0 npos
  = Some (djb_hash (read mem_abc (0 + 0) 3))
  /\ details.str_hash_loop mem_abc 4 0 0 npos
     = Some (djb_hash (read mem_abc (0 + 0) 3)).
Proof.
  apply (str_hash_paths_agree mem_abc 0 0 npos 3 4).
  - lia.
  - vm_compute. split; discriminate.
  - vm_compute. discriminate.
  - split; [vm_compute; discriminate|]. split.
    + intros i Hi.
      assert (Hc : i = 0 \/ i = 1 \/ i = 2) by lia.
      destruct Hc as [-> | [-> | ->]]; vm_compute; discriminate.
    + right. reflexivity.
  - lia.
Defined.

(** C8.  Range checking enabled and the throwing error policy are the
    defaults, and with them [operator[]] and [at] with an index not below
    the size, [substr] with such a start, and [front()] and [back()] on an
    empty view all raise the range error, while [operator[]] and [at] with
    an index below the size return the code unit stored at that index. *)
Theorem out_of_bounds_access_raises (mem : memory) (empty_literal : pointer)
    (v : basic_char_view) (index len : Z) :
  (default_range_check_policy = RangeCheckPolicyEnabled
   /\ default_error_policy = ErrorPolicyThrowing)
  /\ (m_size v <= index ->
     @subscript mem RangeCheckPolicyEnabled ErrorPolicyThrowing v index = RangeError
     /\ @at_ mem RangeCheckPolicyEnabled ErrorPolicyThrowing v index = RangeError
     /\ @substr empty_literal RangeCheckPolicyEnabled ErrorPolicyThrowing v index len
        = RangeError)
  /\ (m_size v = 0 ->
     @front mem RangeCheckPolicyEnabled ErrorPolicyThrowing v = RangeError
     /\ @back mem RangeCheckPolicyEnabled ErrorPolicyThrowing v = RangeError)
  /\ (index < m_size v ->
     @subscript mem RangeCheckPolicyEnabled ErrorPolicyThrowing v index
     = Ok (mem (m_str v + index))
     /\ @at_ mem RangeCheckPolicyEnabled ErrorPolicyThrowing v index
        = Ok (mem (m_str v + index))).
Proof.
  split; [split; reflexivity|].
  unfold at_, front, back, subscript, substr.
  cbn [check_index_out_of_bounds check_is_empty signal_range_check_error
       RangeCheckPolicyEnabled ErrorPolicyThrowing negb bind].
  split; [|split].
  - intros Hi. destruct (Z.geb_spec index (m_size v)); [|lia].
    repeat split.
  - intros He. rewrite He. repeat split.
  - intros Hi. destruct (Z.geb_spec index (m_size v)); [lia|].
    repeat split.
Qed.

Lemma out_of_bounds_access_raises_witness :
  (@subscript mem_prefix RangeCheckPolicyEnabled ErrorPolicyThrowing view_Abcdefg 7
   = RangeError
   /\ @at_ mem_prefix RangeCheckPolicyEnabled ErrorPolicyThrowing view_Abcdefg 7
      = RangeError
   /\ @substr addr_empty RangeCheckPolicyEnabled ErrorPolicyThrowing view_Abcdefg 7 5
      = RangeError)
  /\ (@front mem_prefix RangeCheckPolicyEnabled ErrorPolicyThrowing view_empty
      = RangeError
      /\ @back mem_prefix RangeCheckPolicyEnabled ErrorPolicyThrowing view_empty
         = RangeError)
  /\ (@subscript mem_prefix RangeCheckPolicyEnabled ErrorPolicyThrowing view_Abcdefg 1
      = Ok 98
      /\ @at_ mem_prefix RangeCheckPolicyEnabled ErrorPolicyThrowing view_Abcdefg 1
         = Ok 98).
Proof.
  split; [|split].
  - apply (out_of_bounds_access_raises mem_prefix addr_empty view_Abcdefg 7 5).
    vm_compute. discriminate.
  - apply (out_of_bounds_access_raises mem_prefix addr_empty view_empty 0 0).
    reflexivity.
  - apply (out_of_bounds_access_raises mem_prefix addr_empty view_Abcdefg 1 0).
    reflexivity.
Defined.

(** ** Positions returned by the search algorithms *)

Lemma offset_bounded_not_found size search_limit :
  offset_bounded size search_limit (-1).
Proof. left. reflexivity. Qed.

Lemma offset_bounded_inside size search_limit offset :
  0 <= offset < size -> size <= size_t_max ->
  offset_bounded size search_limit (to_ssize_t offset).
Proof.
  intros Ho Hs. right. unfold offset_bounded.
  rewrite to_size_t_to_ssize_t, to_size_t_small by lia. lia.
Qed.

Lemma offset_bounded_end size offset :
  0 <= offset -> offset = size -> size <= size_t_max ->
  offset_bounded size 0 (to_ssize_t offset).
Proof.
  intros Ho He Hs. right.
  rewrite to_size_t_to_ssize_t, to_size_t_small by lia.
  cbn [Z.of_nat]. lia.
Qed.

Create HintDb positions.
#[local] Hint Resolve offset_bounded_not_found : positions.

Ltac next_offset :=
  match goal with
  | |- context [to_size_t (?o + 1)] => rewrite (to_size_t_small (o + 1)) by lia
  end.

Lemma index_of_bounded mem search_text search_limit size :
  size <= size_t_max ->
  forall content_limit content offset,
    0 <= offset -> offset + Z.of_nat content_limit = size ->
    offset_bounded size search_limit
      (details.index_of mem content search_text content_limit search_limit offset).
Proof.
  intros Hs. induction content_limit as [|cl IH]; intros content offset Ho He;
    cbn [details.index_of].
  - destruct (Nat.ltb_spec 0 search_limit); auto with positions.
    destruct search_limit; [|lia]. cbn [Nat.eqb].
    apply offset_bounded_end; lia.
  - destruct (Nat.ltb_spec (S cl) search_limit); auto with positions.
    destruct (details.starts_with _ _ _ _ _).
    + apply offset_bounded_inside; lia.
    + next_offset. apply IH; lia.
Qed.

Lemma index_of_any_bounded mem search_set search_limit size :
  size <= size_t_max ->
  forall content_limit content offset,
    0 <= offset -> offset + Z.of_nat content_limit = size ->
    offset_bounded size search_limit
      (details.index_of_any mem content search_set content_limit search_limit offset).
Proof.
  intros Hs. induction content_limit as [|cl IH]; intros content offset Ho He;
    cbn [details.index_of_any]; auto with positions.
  destruct (search_limit =? 0)%nat; auto with positions.
  destruct (_ >=? 0).
  - apply offset_bounded_inside; lia.
  - next_offset. apply IH; lia.
Qed.

Lemma index_of_nonmatching_bounded mem search_set search_limit size :
  size <= size_t_max ->
  forall content_limit content offset,
    0 <= offset -> offset + Z.of_nat content_limit = size ->
    offset_bounded size search_limit
      (details.index_of_nonmatching mem content search_set content_limit
         search_limit offset).
Proof.
  intros Hs. induction content_limit as [|cl IH]; intros content offset Ho He;
    cbn [details.index_of_nonmatching].
  - destruct search_limit; cbn [Nat.eqb]; auto with positions.
    apply offset_bounded_end; lia.
  - destruct (_ <? 0).
    + apply offset_bounded_inside; lia.
    + next_offset. apply IH; lia.
Qed.

Lemma last_index_of_bounded mem search_text search_limit size :
  size <= size_t_max ->
  forall content_limit content offset found_pos,
    0 <= offset -> offset + Z.of_nat content_limit = size ->
    offset_bounded size search_limit found_pos ->
    offset_bounded size search_limit
      (details.last_index_of mem content search_text content_limit search_limit
         offset found_pos).
Proof.
  intros Hs. induction content_limit as [|cl IH];
    intros content offset found_pos Ho He Hf;
    cbn [details.last_index_of].
  - destruct (Nat.ltb_spec 0 search_limit); auto.
    destruct search_limit; [|lia]. cbn [Nat.eqb].
    apply offset_bounded_end; lia.
  - destruct (Nat.ltb_spec (S cl) search_limit); auto.
    destruct (_ =? 0); next_offset; apply IH; try lia; auto.
    apply offset_bounded_inside; lia.
Qed.

Lemma last_index_of_any_bounded mem search_set search_limit size :
  size <= size_t_max ->
  forall content_limit content offset found_pos,
    0 <= offset -> offset + Z.of_nat content_limit = size ->
    offset_bounded size search_limit found_pos ->
    offset_bounded size search_limit
      (details.last_index_of_any mem content search_set content_limit search_limit
         offset found_pos).
Proof.
  intros Hs. induction content_limit as [|cl IH];
    intros content offset found_pos Ho He Hf;
    cbn [details.last_index_of_any].
  - destruct (search_limit =? 0)%nat; auto with positions.
  - destruct (_ >=? 0); next_offset; apply IH; try lia; auto.
    apply offset_bounded_inside; lia.
Qed.

Lemma last_index_of_nonmatching_bounded mem search_set search_limit size :
  size <= size_t_max ->
  forall content_limit content offset found_pos,
    0 <= offset -> offset + Z.of_nat content_limit = size ->
    offset_bounded size search_limit found_pos ->
    offset_bounded size search_limit
      (details.last_index_of_nonmatching mem content search_set content_limit
         search_limit offset found_pos).
Proof.
  intros Hs. induction content_limit as [|cl IH];
    intros content offset found_pos Ho He Hf;
    cbn [details.last_index_of_nonmatching].
  - destruct search_limit; cbn [Nat.eqb]; auto.
    apply offset_bounded_end; lia.
  - destruct (_ <? 0); next_offset; apply IH; try lia; auto.
    apply offset_bounded_inside; lia.
Qed.

Lemma length_zstring mem n : forall fuel p,
  zstring mem p n -> Z.of_nat n <= size_t_max -> (n < fuel)%nat ->
  details.length mem fuel p = Some (Z.of_nat n).
Proof.
  induction n as [|n IH]; intros fuel p [Hnz Hend] Hn Hfuel;
    (destruct fuel as [|fuel]; [lia|]); cbn [details.length].
  - cbn [Z.of_nat] in Hend. rewrite Z.add_0_r in Hend.
    rewrite Hend. reflexivity.
  - assert (Hp : mem p <> 0).
    { rewrite <- (Z.add_0_r p). apply Hnz. lia. }
    apply Z.eqb_neq in Hp. rewrite Hp. cbn [negb].
    rewrite (IH fuel (p + 1)); try lia.
    + rewrite to_size_t_small by lia. f_equal. lia.
    + split.
      * intros i Hi. replace (p + 1 + i) with (p + (i + 1)) by lia.
        apply Hnz. lia.
      * replace (p + 1 + Z.of_nat n) with (p + Z.of_nat (S n)) by lia.
        exact Hend.
Qed.

Lemma position_of_offset size a_len r :
  offset_bounded size (Z.to_nat a_len) r ->
  position_bounded size a_len (to_size_t r).
Proof.
  intros [H|[H1 H2]]; [left; exact H|right].
  split; [exact H1|]. intros Hl. apply H2. lia.
Qed.

Lemma search_results_cn_bounded mem v a_str a_len :
  0 <= m_size v <= size_t_max ->
  Forall (position_bounded (m_size v) a_len) (search_results_cn mem v a_str a_len).
Proof.
  intros Hv.
  assert (He : 0 + Z.of_nat (Z.to_nat (m_size v)) = m_size v) by lia.
  unfold search_results_cn, find_cn, rfind_cn, find_first_of_cn,
    find_first_not_of_cn, find_last_of_cn, find_last_not_of_cn.
  repeat apply Forall_cons; try apply Forall_nil; apply position_of_offset.
  - apply index_of_bounded; lia.
  - apply last_index_of_bounded; auto with positions; lia.
  - apply index_of_any_bounded; lia.
  - apply index_of_nonmatching_bounded; lia.
  - apply last_index_of_any_bounded; auto with positions; lia.
  - apply last_index_of_nonmatching_bounded; auto with positions; lia.
Qed.

(** C9, as the code has it.  Every position returned by [find], [rfind],
    [find_first_of], [find_first_not_of], [find_last_of] and
    [find_last_not_of], for a search argument given as a view, as a
    (pointer, length) buffer or as a zero-terminated string, is the
    sentinel [npos] or an offset not above the size of the view; it is
    strictly below the size whenever the search argument is not empty. *)
Theorem search_positions_bounded (mem : memory) (v a : basic_char_view)
    (a_str : pointer) (a_len : Z) :
  0 <= m_size v <= size_t_max ->
  Forall (position_bounded (m_size v) (m_size a)) (search_results mem v a)
  /\ Forall (position_bounded (m_size v) a_len) (search_results_cn mem v a_str a_len)
  /\ (forall (n fuel : nat),
        zstring mem a_str n -> Z.of_nat n <= size_t_max -> (n < fuel)%nat ->
        Forall (returns_bounded (m_size v) (Z.of_nat n))
          (search_results_z mem fuel v a_str)).
Proof.
  intros Hv. split; [|split].
  - apply (search_results_cn_bounded mem v (m_str a) (m_size a) Hv).
  - apply search_results_cn_bounded, Hv.
  - intros n fuel Hz Hn Hfuel.
    pose proof (search_results_cn_bounded mem v a_str (Z.of_nat n) Hv) as Hcn.
    unfold search_results_z, find_z, rfind_z, find_first_of_z,
      find_first_not_of_z, find_last_of_z, find_last_not_of_z.
    rewrite (length_zstring mem n fuel a_str Hz Hn Hfuel).
    unfold search_results_cn in Hcn.
    repeat match goal with
           | H : Forall _ (_ :: _) |- _ => inversion H; subst; clear H
           end.
    repeat apply Forall_cons; try apply Forall_nil;
      (eexists; split; [reflexivity|assumption]).
Qed.

Lemma search_positions_bounded_witness :
  Forall (position_bounded 3 2) (search_results mem_abc view_abc view_bc)
  /\ Forall (position_bounded 3 2) (search_results_cn mem_abc view_abc 1 2)
  /\ (forall (n fuel : nat),
        zstring mem_abc 1 n -> Z.of_nat n <= size_t_max -> (n < fuel)%nat ->
        Forall (returns_bounded 3 (Z.of_nat n))
          (search_results_z mem_abc fuel view_abc 1)).
Proof.
  apply (search_positions_bounded mem_abc view_abc view_bc 1 2).
  vm_compute. split; discriminate.
Defined.

(** C9 as stated fails: [rfind] with an empty needle returns the size of
    the view, which is neither [npos] nor below the size. *)
Lemma rfind_empty_needle_at_size :
  ~ (rfind mem_abc view_abc view_abc_end = npos
     \/ rfind mem_abc view_abc view_abc_end < m_size view_abc).
Proof.
  vm_compute. intros [H|H]; discriminate.
Qed.

(** ** Trimming *)

Section TrimProofs.

Variable mem : memory.
Variable whitespace : list charT.

Let ws (c : charT) : bool := is_whitespace whitespace c.

Lemma first_not_whitespace_found n : forall p offset i,
  0 <= i < Z.of_nat n ->
  (forall k, 0 <= k < i -> ws (mem (p + k)) = true) ->
  ws (mem (p + i)) = false ->
  first_not_whitespace mem whitespace p n offset = Some (offset + i).
Proof.
  induction n as [|n IH]; intros p offset i Hi Hbefore Hat; [lia|].
  cbn [first_not_whitespace].
  destruct (Z.eq_dec i 0) as [->|Hi0].
  - rewrite Z.add_0_r in Hat. fold (ws (mem p)). rewrite Hat.
    f_equal. lia.
  - fold (ws (mem p)). rewrite <- (Z.add_0_r p) at 1.
    rewrite Hbefore by lia.
    rewrite (IH (p + 1) (offset + 1) (i - 1)).
    + f_equal. lia.
    + lia.
    + intros k Hk. replace (p + 1 + k) with (p + (k + 1)) by lia.
      apply Hbefore. lia.
    + replace (p + 1 + (i - 1)) with (p + i) by lia. exact Hat.
Qed.

Lemma first_not_whitespace_none n : forall p offset,
  (forall k, 0 <= k < Z.of_nat n -> ws (mem (p + k)) = true) ->
  first_not_whitespace mem whitespace p n offset = None.
Proof.
  induction n as [|n IH]; intros p offset Hall; [reflexivity|].
  cbn [first_not_whitespace].
  fold (ws (mem p)). rewrite <- (Z.add_0_r p) at 1.
  rewrite Hall by lia.
  apply IH. intros k Hk. replace (p + 1 + k) with (p + (k + 1)) by lia.
  apply Hall. lia.
Qed.

Lemma last_not_whitespace_found n : forall p j,
  0 <= j < Z.of_nat n ->
  ws (mem (p + j)) = false ->
  (forall k, j < k < Z.of_nat n -> ws (mem (p + k)) = true) ->
  last_not_whitespace mem whitespace p n = Some j.
Proof.
  induction n as [|n IH]; intros p j Hj Hat Hafter; [lia|].
  cbn [last_not_whitespace]. fold (ws (mem (p + Z.of_nat n))).
  destruct (Z.eq_dec j (Z.of_nat n)) as [->|Hjn].
  - rewrite Hat. reflexivity.
  - rewrite Hafter by lia. apply IH; [lia|exact Hat|].
    intros k Hk. apply Hafter. lia.
Qed.

Lemma trim_found v first last :
  0 <= first <= last -> last < m_size v ->
  ws (mem (m_str v + first)) = false ->
  ws (mem (m_str v + last)) = false ->
  (forall k, 0 <= k < first -> ws (mem (m_str v + k)) = true) ->
  (forall k, last < k < m_size v -> ws (mem (m_str v + k)) = true) ->
  trim mem whitespace v
  = {| m_str := m_str v + first; m_size := last - first + 1 |}.
Proof.
  intros Hfl Hl Hf Hla Hbefore Hafter. unfold trim.
  rewrite (first_not_whitespace_found _ _ 0 first) by (assumption || lia).
  rewrite (last_not_whitespace_found _ _ last); try assumption; try lia.
  - reflexivity.
  - intros k Hk. apply Hafter. lia.
Qed.

Lemma trim_all_whitespace v :
  (forall k, 0 <= k < m_size v -> ws (mem (m_str v + k)) = true) ->
  m_size (trim mem whitespace v) = 0.
Proof.
  intros Hall. unfold trim.
  rewrite first_not_whitespace_none; [reflexivity|].
  intros k Hk. apply Hall. lia.
Qed.

End TrimProofs.

Lemma is_whitespace_In whitespace c :
  is_whitespace whitespace c = true <-> In c whitespace.
Proof.
  unfold is_whitespace. rewrite existsb_exists. split.
  - intros (x & Hx & E). apply Z.eqb_eq in E. subst. exact Hx.
  - intros H. exists c. split; [exact H|apply Z.eqb_refl].
Qed.

(** C6.  [trim] returns the sub-view, over the same store, that runs
    from the first to the last code unit outside the whitespace set; a
    view with no such code unit (all whitespace, or empty) gives a view
    of length zero; and for every whitespace set that holds space and tab
    and none of the code units of ["test1"], trimming the 13 code units of
    the scenario gives the 5 code units ["test1"]. *)
Theorem trim_bounded_by_non_whitespace (mem : memory) (whitespace : list charT)
    (v : basic_char_view) :
  (forall first last,
     0 <= first <= last -> last < m_size v ->
     is_whitespace whitespace (mem (m_str v + first)) = false ->
     is_whitespace whitespace (mem (m_str v + last)) = false ->
     (forall k, 0 <= k < first ->
        is_whitespace whitespace (mem (m_str v + k)) = true) ->
     (forall k, last < k < m_size v ->
        is_whitespace whitespace (mem (m_str v + k)) = true) ->
     trim mem whitespace v
     = {| m_str := m_str v + first; m_size := last - first + 1 |})
  /\ ((forall k, 0 <= k < m_size v ->
         is_whitespace whitespace (mem (m_str v + k)) = true) ->
      m_size (trim mem whitespace v) = 0)
  /\ (In 32 whitespace -> In 9 whitespace ->
      (forall c, In c (codes "test1"%string) -> ~ In c whitespace) ->
      trim mem_trim whitespace view_trim = {| m_str := 4; m_size := 5 |}
      /\ read mem_trim 4 5 = codes "test1"%string).
Proof.
  split; [|split].
  - intros first last. apply trim_found.
  - apply trim_all_whitespace.
  - intros Hsp Htab Hword. split; [|reflexivity].
    assert (Hno : forall c, In c (codes "test1"%string) ->
                            is_whitespace whitespace c = false).
    { intros c Hc. destruct (is_whitespace whitespace c) eqn:E; [|reflexivity].
      apply is_whitespace_In in E. destruct (Hword c Hc E). }
    apply is_whitespace_In in Hsp, Htab.
    apply (trim_found mem_trim whitespace view_trim 4 8).
    + lia.
    + cbn [m_size view_trim]. lia.
    + apply Hno. vm_compute. auto.
    + apply Hno. vm_compute. auto 10.
    + intros k Hk. cbn [m_str view_trim].
      assert (Hc : k = 0 \/ k = 1 \/ k = 2 \/ k = 3) by lia.
      destruct Hc as [-> | [-> | [-> | ->]]]; assumption.
    + intros k Hk. cbn [m_str m_size view_trim] in *.
      assert (Hc : k = 9 \/ k = 10 \/ k = 11 \/ k = 12) by lia.
      destruct Hc as [-> | [-> | [-> | ->]]]; assumption.
Qed.

Lemma trim_bounded_by_non_whitespace_witness :
  trim mem_trim c_whitespace view_trim
  = {| m_str := m_str view_trim + 4; m_size := 8 - 4 + 1 |}
  /\ m_size (trim mem_trim c_whitespace {| m_str := 0; m_size := 4 |}) = 0
  /\ (trim mem_trim c_whitespace view_trim = {| m_str := 4; m_size := 5 |}
      /\ read mem_trim 4 5 = codes "test1"%string).
Proof.
  split; [|split].
  - apply (proj1 (trim_bounded_by_non_whitespace mem_trim c_whitespace view_trim) 4 8).
    + lia.
    + vm_compute. reflexivity.
    + reflexivity.
    + reflexivity.
    + intros k Hk.
      assert (Hc : k = 0 \/ k = 1 \/ k = 2 \/ k = 3) by lia.
      destruct Hc as [-> | [-> | [-> | ->]]]; reflexivity.
    + intros k Hk. cbn [m_size view_trim] in Hk.
      assert (Hc : k = 9 \/ k = 10 \/ k = 11 \/ k = 12) by lia.
      destruct Hc as [-> | [-> | [-> | ->]]]; reflexivity.
  - apply (trim_bounded_by_non_whitespace mem_trim c_whitespace
             {| m_str := 0; m_size := 4 |}).
    intros k Hk. cbn [m_size] in Hk.
    assert (Hc : k = 0 \/ k = 1 \/ k = 2 \/ k = 3) by lia.
    destruct Hc as [-> | [-> | [-> | ->]]]; reflexivity.
  - apply (trim_bounded_by_non_whitespace mem_trim c_whitespace view_trim).
    + vm_compute. auto.
    + vm_compute. auto.
    + intros c Hc Hw. vm_compute in Hc, Hw.
      repeat (destruct Hc as [Hc|Hc]; [subst c|]); try contradiction;
        repeat (destruct Hw as [Hw|Hw]; [discriminate Hw|]); contradiction.
Defined.

(** ** Inputs on which the code leaves its documentation *)

(** C1.  The two private overloads of [starts_with(const charT*, size_t)]
    disagree on the view ["Abcdefg"] and the needle (["Abcd"], 4): the
    recursive one finds the prefix, the iterative one compares the needle
    with the whole view and answers false. *)
Theorem starts_with_cn_policies_differ :
  starts_with_cn mem_prefix RecursivePolicyEnabled view_Abcdefg addr_Abcd 4 = true
  /\ starts_with_cn mem_prefix RecursivePolicyDisabled view_Abcdefg addr_Abcd 4 = false.
Proof. split; reflexivity. Qed.

(** C2.  [substr(1)] on the view ["Abcdefg"], with the length left at its
    default [npos]: [index + len] wraps to 0, the clamp is skipped and the
    view returned has [npos] code units, not the 6 that remain. *)
Theorem substr_default_length_wraps :
  @substr addr_empty RangeCheckPolicyEnabled ErrorPolicyThrowing view_Abcdefg 1 npos
  = Ok {| m_str := 1; m_size := 18446744073709551615 |}
  /\ 18446744073709551615 <> m_size view_Abcdefg - 1.
Proof. split; [reflexivity|discriminate]. Qed.

(** C3.  [compare] between the two code units ["a\0"] and the single code
    unit ["a"]: positive one way, zero the other way, so the signs are not
    opposite. *)
Theorem compare_not_antisymmetric :
  compare mem_a_nul view_a_nul view_a = 1
  /\ compare mem_a_nul view_a view_a_nul = 0
  /\ Z.sgn (compare mem_a_nul view_a_nul view_a)
     <> - Z.sgn (compare mem_a_nul view_a view_a_nul).
Proof. repeat split; vm_compute; discriminate. Qed.

(** C4.  On the view ["abc"] and the two-unit needle ["a\0"], given as a
    (pointer, length) buffer or as a view, [contains] answers false while
    [find] returns position 0, which is not [npos]. *)
Theorem contains_find_disagree :
  (contains_cn mem_abc_a_nul view_abc addr_a_nul 2 = false
   /\ find_cn mem_abc_a_nul view_abc addr_a_nul 2 = 0)
  /\ (contains mem_abc_a_nul view_abc needle_a_nul = false
      /\ find mem_abc_a_nul view_abc needle_a_nul = 0)
  /\ 0 <> npos.
Proof. repeat split; vm_compute; discriminate. Qed.

(** C5.  On the empty view, under the default policies, [front(n)] raises
    the range error for every tried [n], zero included, and so does
    [back(n)] for a positive [n]. *)
Theorem front_n_empty_view_raises :
  @front_n addr_empty RangeCheckPolicyEnabled ErrorPolicyThrowing view_empty 3
  = RangeError
  /\ @front_n addr_empty RangeCheckPolicyEnabled ErrorPolicyThrowing view_empty 0
     = RangeError
  /\ @back_n mem_prefix addr_empty RangeCheckPolicyEnabled ErrorPolicyThrowing
       1 view_empty 3
     = Some RangeError.
Proof. repeat split. Qed.

(** C10.  For the view of the three code units ["a\0b"] and the
    zero-terminated string ["a"], [operator==] and [operator!=] are both
    false. *)
Theorem eq_and_ne_both_false :
  op_eq_z mem_a_nul_b view_a_nul_b addr_a = false
  /\ op_ne_z mem_a_nul_b view_a_nul_b addr_a = false.
Proof. split; reflexivity. Qed.

(** ** Views without an embedded terminator

    Away from the inputs above the methods behave as documented: the
    lemmas of this section hold for every buffer whose code units, within
    its length, are not the terminator. *)

Lemma nul_free_head mem p n : 0 < n -> nul_free mem p n -> mem p <> 0.
Proof.
  intros Hn H. rewrite <- (Z.add_0_r p). apply H. lia.
Qed.

Lemma nul_free_tail mem p n :
  nul_free mem p (Z.of_nat (S n)) -> nul_free mem (p + 1) (Z.of_nat n).
Proof.
  intros H i Hi. replace (p + 1 + i) with (p + (i + 1)) by lia.
  apply H. lia.
Qed.

Lemma compare_antisym_nul_free mem : forall n m p q,
  nul_free mem p (Z.of_nat n) -> nul_free mem q (Z.of_nat m) ->
  details.compare mem p q n (Z.of_nat m)
  = - details.compare mem q p m (Z.of_nat n).
Proof.
  induction n as [|n IH]; intros m p q Hp Hq.
  - destruct m as [|m]; [reflexivity|].
    cbn [details.compare].
    replace (Z.of_nat (S m) =? 0) with false by (symmetry; apply Z.eqb_neq; lia).
    cbn [Z.of_nat Z.eqb].
    apply nul_free_head in Hq; [|lia]. apply Z.eqb_neq in Hq. rewrite Hq.
    reflexivity.
  - destruct m as [|m].
    + cbn [details.compare Z.of_nat Z.eqb].
      replace (Z.pos (Pos.of_succ_nat n) =? 0) with false by reflexivity.
      apply nul_free_head in Hp; [|lia]. apply Z.eqb_neq in Hp. rewrite Hp.
      reflexivity.
    + cbn [details.compare].
      replace (Z.of_nat (S m) =? 0) with false by (symmetry; apply Z.eqb_neq; lia).
      replace (Z.of_nat (S n) =? 0) with false by (symmetry; apply Z.eqb_neq; lia).
      replace (Z.of_nat (S m) - 1) with (Z.of_nat m) by lia.
      replace (Z.of_nat (S n) - 1) with (Z.of_nat n) by lia.
      assert (Hp0 : mem p <> 0) by (apply (nul_free_head mem p (Z.of_nat (S n))); [lia|exact Hp]).
      assert (Hq0 : mem q <> 0) by (apply (nul_free_head mem q (Z.of_nat (S m))); [lia|exact Hq]).
      rewrite !Z.gtb_ltb.
      destruct (Z.ltb_spec (mem q) (mem p)), (Z.ltb_spec (mem p) (mem q));
        try reflexivity; try lia.
      apply Z.eqb_neq in Hp0, Hq0. rewrite Hp0, Hq0.
      apply IH; apply nul_free_tail; assumption.
Qed.

(** Off embedded terminators [compare] is antisymmetric. *)
Lemma compare_antisymmetric_nul_free mem (a b : basic_char_view) :
  0 <= m_size a <= ssize_t_max -> 0 <= m_size b <= ssize_t_max ->
  nul_free mem (m_str a) (m_size a) -> nul_free mem (m_str b) (m_size b) ->
  Z.sgn (compare mem a b) = - Z.sgn (compare mem b a).
Proof.
  intros Ha Hb Hna Hnb. unfold compare.
  rewrite !to_ssize_t_small by lia.
  rewrite <- (Z2Nat.id (m_size a)) at 2 by lia.
  rewrite <- (Z2Nat.id (m_size b)) at 1 by lia.
  rewrite compare_antisym_nul_free, Z.sgn_opp.
  - reflexivity.
  - rewrite Z2Nat.id by lia. exact Hna.
  - rewrite Z2Nat.id by lia. exact Hnb.
Qed.

Lemma equals_compare_nul_free mem : forall n p q search_limit match_len,
  search_limit < 0 -> nul_free mem p (Z.of_nat n) ->
  0 <= match_len -> match_len + Z.of_nat n <= size_t_max ->
  (details.common_length mem p q n search_limit match_len
     =? match_len + Z.of_nat n)
  && (mem (q + Z.of_nat n) =? 0)
  = (details.compare mem p q n search_limit =? 0).
Proof.
  induction n as [|n IH]; intros p q sl ml Hsl Hp Hml Hmax;
    cbn [details.common_length details.compare];
    replace (sl =? 0) with false by (symmetry; apply Z.eqb_neq; lia).
  - cbn [Z.of_nat]. rewrite !Z.add_0_r, Z.eqb_refl.
    destruct (mem q =? 0); reflexivity.
  - assert (Hp0 : mem p <> 0)
      by (apply (nul_free_head mem p (Z.of_nat (S n))); [lia|exact Hp]).
    rewrite Z.gtb_ltb.
    destruct (Z.eqb_spec (mem p) (mem q)) as [E|E]; cbn [negb].
    + rewrite <- E, Z.ltb_irrefl.
      apply Z.eqb_neq in Hp0. rewrite Hp0.
      rewrite to_size_t_small by lia.
      rewrite <- (IH (p + 1) (q + 1) (sl - 1) (ml + 1));
        try lia; [|apply nul_free_tail; exact Hp].
      f_equal; f_equal; [lia|f_equal; lia].
    + replace (ml =? ml + Z.of_nat (S n)) with false
        by (symmetry; apply Z.eqb_neq; lia).
      destruct (Z.ltb_spec (mem q) (mem p)); [reflexivity|].
      destruct (Z.ltb_spec (mem p) (mem q)); [reflexivity|lia].
Qed.

(** Off embedded terminators exactly one of [v == x] and [v != x] holds. *)
Lemma eq_ne_partition_nul_free mem (v : basic_char_view) (x : pointer) :
  0 <= m_size v <= size_t_max ->
  nul_free mem (m_str v) (m_size v) ->
  op_eq_z mem v x = negb (op_ne_z mem v x).
Proof.
  intros Hv Hn. unfold op_eq_z, op_ne_z, equals_z, compare_z.
  rewrite negb_involutive.
  rewrite <- (equals_compare_nul_free mem _ _ _ (-1) 0); try lia.
  - rewrite Z2Nat.id by lia. reflexivity.
  - rewrite Z2Nat.id by lia. exact Hn.
Qed.

Lemma ssize_of_small n : Z.of_nat n <= ssize_t_max -> ssize_of n = Z.of_nat n.
Proof. intros H. apply to_ssize_t_small. lia. Qed.

Lemma starts_with_compare_nul_free mem : forall k content search_text,
  nul_free mem search_text (Z.of_nat k) ->
  details.starts_with mem content search_text k (Z.of_nat k)
  = (details.compare mem content search_text k (Z.of_nat k) =? 0).
Proof.
  induction k as [|k IH]; intros c s Hs; [reflexivity|].
  cbn [details.starts_with details.compare].
  replace (Z.of_nat (S k) =? 0) with false by (symmetry; apply Z.eqb_neq; lia).
  replace (Z.of_nat (S k) - 1) with (Z.of_nat k) by lia.
  assert (Hs0 : mem s <> 0)
    by (apply (nul_free_head mem s (Z.of_nat (S k))); [lia|exact Hs]).
  apply Z.eqb_neq in Hs0. rewrite Z.gtb_ltb.
  destruct (Z.eqb_spec (mem c) (mem s)) as [E|E]; cbn [negb].
  - rewrite E, Z.ltb_irrefl, Hs0. apply IH, nul_free_tail, Hs.
  - rewrite Hs0.
    destruct (Z.ltb_spec (mem s) (mem c)); [reflexivity|].
    destruct (Z.ltb_spec (mem c) (mem s)); [reflexivity|lia].
Qed.

Lemma contains_index_of_nul_free mem search_text search_limit :
  Z.of_nat search_limit <= ssize_t_max ->
  nul_free mem search_text (Z.of_nat search_limit) ->
  forall content_limit content offset,
    0 <= offset -> offset + Z.of_nat content_limit <= ssize_t_max ->
    let r := details.index_of mem content search_text content_limit
               search_limit offset in
    (details.contains mem content search_text content_limit search_limit = true
     /\ 0 <= r <= ssize_t_max)
    \/ (details.contains mem content search_text content_limit search_limit = false
        /\ r = -1).
Proof.
  intros Hsl Hs. induction content_limit as [|cl IH]; intros c offset Ho Hmax;
    cbn [details.index_of details.contains].
  - destruct (Nat.ltb_spec 0 search_limit); [right; split; reflexivity|].
    destruct search_limit; [|lia]. cbn [Nat.eqb]. left.
    rewrite to_ssize_t_small by (unfold ssize_t_max in *; lia).
    split; [reflexivity|lia].
  - destruct (Nat.ltb_spec (S cl) search_limit); [right; split; reflexivity|].
    rewrite ssize_of_small by exact Hsl.
    rewrite starts_with_compare_nul_free by exact Hs.
    destruct (_ =? 0).
    + left. rewrite to_ssize_t_small by (unfold ssize_t_max in *; lia).
      split; [reflexivity|lia].
    + rewrite (to_size_t_small (offset + 1))
        by (unfold size_t_max, size_t_modulus, ssize_t_max in *; lia).
      apply IH; lia.
Qed.

(** Off needles with an embedded terminator [contains] and [find]
    agree. *)
Lemma contains_find_coherent_nul_free mem (v : basic_char_view)
    (a_str : pointer) (a_len : Z) :
  0 <= m_size v <= ssize_t_max -> 0 <= a_len <= ssize_t_max ->
  nul_free mem a_str a_len ->
  contains_cn mem v a_str a_len = negb (find_cn mem v a_str a_len =? npos).
Proof.
  intros Hv Ha Hn. unfold contains_cn, find_cn.
  destruct (contains_index_of_nul_free mem a_str (Z.to_nat a_len)
              ltac:(lia) ltac:(rewrite Z2Nat.id by lia; exact Hn)
              (Z.to_nat (m_size v)) (m_str v) 0 ltac:(lia) ltac:(lia))
    as [[Hc Hr]|[Hc Hr]]; rewrite Hc.
  - rewrite to_size_t_small
      by (unfold size_t_max, size_t_modulus, ssize_t_max in *; lia).
    symmetry. apply negb_true_iff, Z.eqb_neq.
    unfold ssize_t_max in Hr. change npos with (2 ^ 64 - 1). lia.
  - rewrite Hr. reflexivity.
Qed.

Lemma to_int_small z : - 2 ^ 31 <= z <= int_max -> to_int z = z.
Proof.
  unfold to_int, int_max. intros H. rewrite Z.mod_small; lia.
Qed.

Lemma make_view_small p n :
  0 <= n <= int_max -> make_view p n = {| m_str := p; m_size := n |}.
Proof.
  intros H. unfold make_view.
  rewrite to_int_small by lia.
  rewrite to_size_t_small
    by (unfold size_t_max, size_t_modulus, int_max in *; lia).
  reflexivity.
Qed.

(** Every start from 1 on sends the defaulted length of [substr] through
    unclamped. *)
Lemma substr_default_length_unclamped empty_literal (v : basic_char_view) index :
  1 <= index < m_size v -> m_size v <= size_t_max ->
  @substr empty_literal RangeCheckPolicyEnabled ErrorPolicyThrowing v index npos
  = Ok {| m_str := m_str v + index; m_size := npos |}.
Proof.
  intros Hi Hv. unfold substr.
  cbn [check_index_out_of_bounds RangeCheckPolicyEnabled].
  destruct (Z.geb_spec index (m_size v)); [lia|].
  assert (Hw : to_size_t (index + npos) = index - 1).
  { unfold to_size_t. change npos with (2 ^ 64 - 1).
    replace (index + (2 ^ 64 - 1)) with (index - 1 + 1 * 2 ^ 64) by ring.
    rewrite Z_mod_plus_full. apply Z.mod_small.
    unfold size_t_max, size_t_modulus in Hv. lia. }
  rewrite Hw.
  destruct (Z.leb_spec (index - 1) (m_size v)); [|lia].
  reflexivity.
Qed.



(** ** [trim] and the header's [find_first_not_of] and [find_last_not_of]

    The header does hold the two scans a [trim] would be built on.  On a
    view without an embedded terminator they find the offsets that [trim]
    is bounded by, for the whitespace set stored at [search_set]. *)

Lemma starts_with_one mem content search_text :
  details.starts_with mem content search_text 1 (ssize_of 1)
  = if negb (mem content =? mem search_text) then mem search_text =? 0 else true.
Proof.
  change (ssize_of 1) with 1. cbn [details.starts_with Z.eqb Z.sub Z.add Z.opp Z.pos_sub].
  destruct (negb (mem content =? mem search_text)); [reflexivity|].
  destruct (mem content =? 0); reflexivity.
Qed.

Lemma index_of_set_member mem c : forall search_limit search_set offset,
  mem c <> 0 -> 0 <= offset ->
  offset + Z.of_nat search_limit <= ssize_t_max ->
  (details.index_of mem search_set c search_limit 1 offset <? 0)
  = negb (is_whitespace (read mem search_set search_limit) (mem c)).
Proof.
  unfold is_whitespace.
  induction search_limit as [|sl IH]; intros set offset Hc Ho Hmax;
    [reflexivity|].
  cbn [details.index_of].
  replace (S sl <? 1)%nat with false by (symmetry; apply Nat.ltb_ge; lia).
  rewrite starts_with_one, read_cons. cbn [existsb].
  apply Z.eqb_neq in Hc. rewrite Hc.
  rewrite (Z.eqb_sym (mem c) (mem set)).
  destruct (mem set =? mem c); cbn [negb orb].
  - rewrite to_ssize_t_small by (unfold ssize_t_max in *; lia).
    apply Z.ltb_ge. lia.
  - rewrite (to_size_t_small (offset + 1))
      by (unfold size_t_max, size_t_modulus, ssize_t_max in *; lia).
    apply IH; [apply Z.eqb_neq; exact Hc|lia|lia].
Qed.

Lemma last_not_whitespace_head mem whitespace : forall n p,
  last_not_whitespace mem whitespace p (S n)
  = match last_not_whitespace mem whitespace (p + 1) n with
    | Some last => Some (last + 1)
    | None => if is_whitespace whitespace (mem p) then None else Some 0
    end.
Proof.
  induction n as [|n IH]; intros p.
  - cbn [last_not_whitespace Z.of_nat]. rewrite Z.add_0_r. reflexivity.
  - change (last_not_whitespace mem whitespace p (S (S n)))
      with (if is_whitespace whitespace (mem (p + Z.of_nat (S n)))
            then last_not_whitespace mem whitespace p (S n)
            else Some (Z.of_nat (S n))).
    rewrite IH. cbn [last_not_whitespace].
    replace (p + 1 + Z.of_nat n) with (p + Z.of_nat (S n)) by lia.
    destruct (is_whitespace whitespace (mem (p + Z.of_nat (S n)))); [reflexivity|].
    f_equal. lia.
Qed.

Section TrimByFind.

Variable mem : memory.
Variables (search_set : pointer) (search_limit : nat).

Hypothesis set_not_empty : (0 < search_limit)%nat.
Hypothesis set_small : Z.of_nat search_limit <= ssize_t_max.

Let whitespace : list charT := read mem search_set search_limit.

Lemma index_of_nonmatching_first : forall content_limit content offset,
  nul_free mem content (Z.of_nat content_limit) ->
  0 <= offset -> offset + Z.of_nat content_limit <= ssize_t_max ->
  details.index_of_nonmatching mem content search_set content_limit
    search_limit offset
  = match first_not_whitespace mem whitespace content content_limit offset with
    | Some first => first
    | None => -1
    end.
Proof.
  induction content_limit as [|cl IH]; intros c offset Hn Ho Hmax;
    cbn [details.index_of_nonmatching first_not_whitespace].
  - destruct search_limit; [lia|reflexivity].
  - assert (Hc : mem c <> 0)
      by (apply (nul_free_head mem c (Z.of_nat (S cl))); [lia|exact Hn]).
    rewrite (index_of_set_member mem c search_limit search_set 0) by (lia || exact Hc).
    fold whitespace.
    destruct (is_whitespace whitespace (mem c)); cbn [negb].
    + rewrite (to_size_t_small (offset + 1))
        by (unfold size_t_max, size_t_modulus, ssize_t_max in *; lia).
      apply IH; [apply nul_free_tail; exact Hn|lia|lia].
    + apply to_ssize_t_small. unfold ssize_t_max in *. lia.
Qed.

Lemma last_index_of_nonmatching_last : forall content_limit content offset found_pos,
  nul_free mem content (Z.of_nat content_limit) ->
  0 <= offset -> offset + Z.of_nat content_limit <= ssize_t_max ->
  details.last_index_of_nonmatching mem content search_set content_limit
    search_limit offset found_pos
  = match last_not_whitespace mem whitespace content content_limit with
    | Some last => offset + last
    | None => found_pos
    end.
Proof.
  induction content_limit as [|cl IH]; intros c offset found_pos Hn Ho Hmax.
  - cbn [details.last_index_of_nonmatching last_not_whitespace].
    destruct search_limit; [lia|reflexivity].
  - rewrite last_not_whitespace_head. cbn [details.last_index_of_nonmatching].
    assert (Hc : mem c <> 0)
      by (apply (nul_free_head mem c (Z.of_nat (S cl))); [lia|exact Hn]).
    rewrite (index_of_set_member mem c search_limit search_set 0) by (lia || exact Hc).
    fold whitespace.
    rewrite (to_size_t_small (offset + 1))
      by (unfold size_t_max, size_t_modulus, ssize_t_max in *; lia).
    destruct (is_whitespace whitespace (mem c)); cbn [negb];
      rewrite IH by (apply nul_free_tail; exact Hn) || lia;
      destruct (last_not_whitespace mem whitespace (c + 1) cl); try lia;
      try reflexivity.
    rewrite to_ssize_t_small by (unfold ssize_t_max in *; lia). lia.
Qed.

End TrimByFind.

Lemma first_not_whitespace_range mem whitespace : forall n p offset first,
  first_not_whitespace mem whitespace p n offset = Some first ->
  offset <= first < offset + Z.of_nat n.
Proof.
  induction n as [|n IH]; intros p offset first; cbn [first_not_whitespace];
    [discriminate|].
  destruct (is_whitespace whitespace (mem p)).
  - intros H. apply IH in H. lia.
  - intros H. injection H as <-. lia.
Qed.

Lemma last_not_whitespace_range mem whitespace p : forall n last,
  last_not_whitespace mem whitespace p n = Some last ->
  0 <= last < Z.of_nat n.
Proof.
  induction n as [|n IH]; intros last; cbn [last_not_whitespace];
    [discriminate|].
  destruct (is_whitespace whitespace (mem (p + Z.of_nat n))).
  - intros H. apply IH in H. lia.
  - intros H. injection H as <-. lia.
Qed.

Lemma first_found_last_found mem search_set search_limit : forall n p offset first,
  first_not_whitespace mem (read mem search_set search_limit) p n offset
  = Some first ->
  last_not_whitespace mem (read mem search_set search_limit) p n <> None.
Proof.
  induction n as [|n IH]; intros p offset first; [discriminate|].
  rewrite last_not_whitespace_head. cbn [first_not_whitespace].
  destruct (is_whitespace (read mem search_set search_limit) (mem p)).
  - intros H. apply IH in H.
    destruct (last_not_whitespace mem _ (p + 1) n); [discriminate|contradiction].
  - intros _.
    destruct (last_not_whitespace mem _ (p + 1) n); discriminate.
Qed.

(** On a view with no terminator inside, [trim] is the sub-view between
    the positions that [find_first_not_of] and [find_last_not_of] return
    for the whitespace set, and it is empty when the first is [npos]. *)
Lemma trim_by_find mem (v : basic_char_view) (a_str : pointer) (a_len : Z) :
  0 <= m_size v <= ssize_t_max -> 0 < a_len <= ssize_t_max ->
  nul_free mem (m_str v) (m_size v) ->
  let whitespace := read mem a_str (Z.to_nat a_len) in
  let first := find_first_not_of_cn mem v a_str a_len in
  let last := find_last_not_of_cn mem v a_str a_len in
  trim mem whitespace v
  = if first =? npos
    then {| m_str := m_str v; m_size := 0 |}
    else {| m_str := m_str v + first; m_size := last - first + 1 |}.
Proof.
  intros Hv Ha Hn whitespace first last.
  subst first last. unfold find_first_not_of_cn, find_last_not_of_cn, trim.
  assert (Hn' : nul_free mem (m_str v) (Z.of_nat (Z.to_nat (m_size v))))
    by (rewrite Z2Nat.id by lia; exact Hn).
  rewrite index_of_nonmatching_first, last_index_of_nonmatching_last;
    try lia; try exact Hn'.
  fold whitespace.
  destruct (first_not_whitespace mem whitespace (m_str v) (Z.to_nat (m_size v)) 0)
    as [first|] eqn:Ef; [|reflexivity].
  pose proof (first_not_whitespace_range _ _ _ _ _ _ Ef) as Hf.
  pose proof (first_found_last_found _ _ _ _ _ _ _ Ef) as Hl.
  fold whitespace in Hl.
  destruct (last_not_whitespace mem whitespace (m_str v) (Z.to_nat (m_size v)))
    as [last|] eqn:El; [|contradiction].
  apply last_not_whitespace_range in El.
  assert (Hmax : ssize_t_max < size_t_max) by (vm_compute; reflexivity).
  rewrite !to_size_t_small by lia.
  replace (first =? npos) with false; [reflexivity|].
  symmetry. apply Z.eqb_neq. change npos with size_t_max. lia.
Qed.

(** ** The iterative [starts_with] on a proper prefix *)

Lemma string_eq_length a : forall b,
  std.string_eq a b = true -> List.length a = List.length b.
Proof.
  induction a as [|x a IH]; intros [|y b]; cbn [std.string_eq List.length];
    try discriminate; [reflexivity|].
  intros H. apply andb_true_iff in H. destruct H as [_ H].
  f_equal. apply IH, H.
Qed.

(** The iterative overload rejects every needle shorter than the view,
    whatever it holds. *)
Lemma starts_with_cn_disabled_shorter mem (v : basic_char_view)
    (a_str : pointer) (a_len : Z) :
  0 <= a_len < m_size v ->
  starts_with_cn mem RecursivePolicyDisabled v a_str a_len = false.
Proof.
  intros H. unfold starts_with_cn, std.min.
  destruct (Z.ltb_spec (m_size v) a_len); [lia|].
  destruct (std.string_eq _ _) eqn:E; [|reflexivity].
  apply string_eq_length in E. rewrite !read_length in E. lia.
Qed.

(** * The rest of the header: properties *)

(** ** The primitives in their two forms *)

Lemma zstring_tail mem p n : zstring mem p (S n) -> zstring mem (p + 1) n.
Proof.
  intros [Hnz Hend]. split.
  - intros i Hi. replace (p + 1 + i) with (p + (i + 1)) by lia. apply Hnz. lia.
  - replace (p + 1 + Z.of_nat n) with (p + Z.of_nat (S n)) by lia. exact Hend.
Qed.

Lemma zstring_head mem p n : zstring mem p (S n) -> mem p <> 0.
Proof.
  intros [Hnz _]. rewrite <- (Z.add_0_r p). apply Hnz. lia.
Qed.

Lemma zstring_zero mem p : zstring mem p 0 -> mem p = 0.
Proof.
  intros [_ Hend]. cbn [Z.of_nat] in Hend. rewrite Z.add_0_r in Hend. exact Hend.
Qed.

Lemma length_loop_zstring mem n : forall fuel p res,
  zstring mem p n -> 0 <= res -> res + Z.of_nat n <= size_t_max ->
  (n < fuel)%nat ->
  no_inline.length_loop mem fuel p res = Some (res + Z.of_nat n).
Proof.
  induction n as [|n IH]; intros fuel p res Hz Hres Hmax Hfuel;
    (destruct fuel as [|fuel]; [lia|]); cbn [no_inline.length_loop].
  - rewrite (zstring_zero mem p Hz). cbn. f_equal. lia.
  - pose proof (zstring_head mem p n Hz) as Hp.
    apply Z.eqb_neq in Hp. rewrite Hp. cbn [negb].
    rewrite to_size_t_small by lia.
    rewrite (IH fuel (p + 1) (res + 1)); try lia.
    + f_equal. lia.
    + apply zstring_tail, Hz.
Qed.

(** X1.  On a zero-terminated string of [n] code units the recursive
    [details::length] and the iterative [no_inline::length] both return
    [n], given fuel for the [n + 1] code units they read. *)
Theorem length_paths_agree (mem : memory) (p : pointer) (n fuel : nat) :
  zstring mem p n -> Z.of_nat n <= size_t_max -> (n < fuel)%nat ->
  details.length mem fuel p = Some (Z.of_nat n)
  /\ no_inline.length mem fuel p = Some (Z.of_nat n).
Proof.
  intros Hz Hn Hfuel. split.
  - apply length_zstring; assumption.
  - unfold no_inline.length.
    rewrite (length_loop_zstring mem n fuel p 0); try assumption; try lia.
    reflexivity.
Qed.

Lemma zstring_abc : zstring mem_abc 0 3.
Proof.
  split.
  - intros i Hi. assert (Hc : i = 0 \/ i = 1 \/ i = 2) by lia.
    destruct Hc as [-> | [-> | ->]]; vm_compute; discriminate.
  - reflexivity.
Defined.

Lemma length_paths_agree_witness :
  details.length mem_abc 4 0 = Some (Z.of_nat 3)
  /\ no_inline.length mem_abc 4 0 = Some (Z.of_nat 3).
Proof.
  apply (length_paths_agree mem_abc 0 3 4).
  - exact zstring_abc.
  - vm_compute. discriminate.
  - lia.
Defined.

(** The recursive [common_length] stays between its accumulator and the
    accumulator plus the content limit. *)
Lemma common_length_range mem : forall content_limit content search_text
    search_limit match_len,
  0 <= match_len -> match_len + Z.of_nat content_limit <= size_t_max ->
  match_len
  <= details.common_length mem content search_text content_limit
       search_limit match_len
  <= match_len + Z.of_nat content_limit.
Proof.
  induction content_limit as [|cl IH]; intros c s sl ml Hml Hmax;
    cbn [details.common_length]; destruct (sl =? 0); try lia.
  destruct (negb (mem c =? mem s)); [lia|].
  destruct (mem c =? 0); [lia|].
  rewrite to_size_t_small by lia.
  specialize (IH (c + 1) (s + 1) (sl - 1) (ml + 1)). lia.
Qed.

Lemma common_length_unlimited_rec mem content search_text :
  forall content_limit res search_limit,
  search_limit < 0 -> 0 <= res -> res + Z.of_nat content_limit <= int_max ->
  no_inline.common_length_unlimited mem content search_text content_limit res
  = details.common_length mem (content + res) (search_text + res)
      content_limit search_limit res.
Proof.
  induction content_limit as [|cl IH]; intros res sl Hsl Hres Hmax;
    cbn [no_inline.common_length_unlimited details.common_length];
    replace (sl =? 0) with false by (symmetry; apply Z.eqb_neq; lia);
    [reflexivity|].
  rewrite (Z.eqb_sym (mem (search_text + res))).
  destruct (mem (content + res) =? mem (search_text + res)); cbn [negb andb];
    [|reflexivity].
  destruct (mem (content + res) =? 0); cbn [negb]; [reflexivity|].
  assert (Hs : int_max <= size_t_max) by (vm_compute; discriminate).
  rewrite to_int_small by (unfold int_max in *; lia).
  rewrite to_size_t_small by lia.
  rewrite (IH (res + 1) (sl - 1)) by lia.
  f_equal; lia.
Qed.

Lemma common_length_limited_rec mem content search_text :
  forall content_limit res search_limit,
  0 <= search_limit -> 0 <= res -> res + Z.of_nat content_limit <= int_max ->
  no_inline.common_length_limited mem content search_text content_limit
    search_limit res
  = details.common_length mem (content + res) (search_text + res)
      content_limit search_limit res.
Proof.
  induction content_limit as [|cl IH]; intros res sl Hsl Hres Hmax;
    cbn [no_inline.common_length_limited details.common_length].
  - destruct (sl =? 0); reflexivity.
  - rewrite Z.gtb_ltb.
    destruct (Z.eqb_spec sl 0) as [->|Hne]; [reflexivity|].
    replace (0 <? sl) with true by (symmetry; apply Z.ltb_lt; lia).
    cbn [andb].
    rewrite (Z.eqb_sym (mem (search_text + res))).
    destruct (mem (content + res) =? mem (search_text + res)); cbn [negb andb];
      [|reflexivity].
    destruct (mem (content + res) =? 0); cbn [negb]; [reflexivity|].
    assert (Hs : int_max <= size_t_max) by (vm_compute; discriminate).
    rewrite to_int_small by (unfold int_max in *; lia).
    rewrite to_size_t_small by lia.
    rewrite (IH (res + 1) (sl - 1)) by lia.
    f_equal; lia.
Qed.

Lemma common_length_iterative mem content search_text content_limit search_limit :
  Z.of_nat content_limit <= int_max ->
  no_inline.common_length mem content search_text content_limit search_limit
  = details.common_length mem content search_text content_limit search_limit 0.
Proof.
  intros Hcl. unfold no_inline.common_length.
  assert (Hs : int_max <= size_t_max) by (vm_compute; discriminate).
  pose proof (common_length_range mem content_limit content search_text
                search_limit 0 ltac:(lia) ltac:(lia)) as Hr.
  destruct (Z.eqb_spec search_limit 0) as [->|Hne].
  - destruct content_limit; reflexivity.
  - destruct (Z.ltb_spec search_limit 0).
    + rewrite (common_length_unlimited_rec mem _ _ _ 0 search_limit) by lia.
      rewrite !Z.add_0_r. apply to_size_t_small. lia.
    + rewrite (common_length_limited_rec mem _ _ _ 0 search_limit) by lia.
      rewrite !Z.add_0_r. apply to_size_t_small. lia.
Qed.

(** X2.  For a content limit that an [int] can count, the iterative
    [no_inline::common_length] returns what the recursive
    [details::common_length] returns, for every pair of buffers and every
    search limit, negative (unknown) or not. *)
Theorem common_length_paths_agree (mem : memory) (content search_text : pointer)
    (content_limit : nat) (search_limit : Z) :
  Z.of_nat content_limit <= int_max ->
  no_inline.common_length mem content search_text content_limit search_limit
  = details.common_length mem content search_text content_limit search_limit 0.
Proof. apply common_length_iterative. Qed.

Lemma common_length_paths_agree_witness :
  no_inline.common_length mem_prefix 0 addr_Abcd 7 (-1)
  = details.common_length mem_prefix 0 addr_Abcd 7 (-1) 0.
Proof.
  apply (common_length_paths_agree mem_prefix 0 addr_Abcd 7 (-1)).
  vm_compute. discriminate.
Defined.

(** ** Runs of code units *)

Lemma string_eq_iff a : forall b, std.string_eq a b = true <-> a = b.
Proof.
  induction a as [|x a IH]; intros [|y b]; cbn [std.string_eq];
    try (split; [discriminate|discriminate]); [split; reflexivity|].
  rewrite andb_true_iff, Z.eqb_eq, IH. split.
  - intros [-> ->]. reflexivity.
  - intros H. injection H as -> ->. split; reflexivity.
Qed.

Lemma string_eq_refl a : std.string_eq a a = true.
Proof. apply string_eq_iff. reflexivity. Qed.

Lemma read_eq_iff mem n : forall p q,
  read mem p n = read mem q n
  <-> (forall i, 0 <= i < Z.of_nat n -> mem (p + i) = mem (q + i)).
Proof.
  induction n as [|n IH]; intros p q.
  - split; [intros _ i Hi; lia|reflexivity].
  - rewrite !read_cons. split.
    + intros H. injection H as H0 Ht. rewrite IH in Ht.
      intros i Hi. destruct (Z.eq_dec i 0) as [->|Hi0].
      * rewrite !Z.add_0_r. exact H0.
      * replace (p + i) with (p + 1 + (i - 1)) by lia.
        replace (q + i) with (q + 1 + (i - 1)) by lia.
        apply Ht. lia.
    + intros H. f_equal.
      * specialize (H 0 ltac:(lia)). rewrite !Z.add_0_r in H. exact H.
      * apply IH. intros i Hi.
        replace (p + 1 + i) with (p + (i + 1)) by lia.
        replace (q + 1 + i) with (q + (i + 1)) by lia.
        apply H. lia.
Qed.

Lemma read_In mem p n c :
  In c (read mem p n) <-> exists i, 0 <= i < Z.of_nat n /\ mem (p + i) = c.
Proof.
  unfold read. rewrite in_map_iff. split.
  - intros (k & Hk & Hin). apply in_seq in Hin. exists (Z.of_nat k). split; [lia|exact Hk].
  - intros (i & Hi & Hc). exists (Z.to_nat i). split.
    + rewrite Z2Nat.id by lia. exact Hc.
    + apply in_seq. lia.
Qed.

Lemma zstring_unique mem p n m : zstring mem p n -> zstring mem p m -> n = m.
Proof.
  intros [Hn1 Hn2] [Hm1 Hm2].
  destruct (Nat.lt_trichotomy n m) as [H|[H|H]]; [|exact H|].
  - exfalso. apply (Hm1 (Z.of_nat n)); [lia|exact Hn2].
  - exfalso. apply (Hn1 (Z.of_nat m)); [lia|exact Hm2].
Qed.

Lemma zstring_nul_free mem p n : zstring mem p n -> nul_free mem p (Z.of_nat n).
Proof. intros [H _]. exact H. Qed.

(** ** [common_length] *)

Lemma common_length_prefix mem : forall content_limit content search_text
    search_limit match_len,
  0 <= match_len -> match_len + Z.of_nat content_limit <= size_t_max ->
  exists k : nat,
    details.common_length mem content search_text content_limit
      search_limit match_len = match_len + Z.of_nat k
    /\ (k <= content_limit)%nat
    /\ (0 <= search_limit -> Z.of_nat k <= search_limit)
    /\ read mem content k = read mem search_text k
    /\ nul_free mem content (Z.of_nat k)
    /\ (k = content_limit \/ Z.of_nat k = search_limit
        \/ mem (content + Z.of_nat k) <> mem (search_text + Z.of_nat k)
        \/ mem (content + Z.of_nat k) = 0).
Proof.
  assert (Hfree0 : forall c, nul_free mem c (Z.of_nat 0))
    by (intros c i Hi; cbn in Hi; lia).
  induction content_limit as [|cl IH]; intros c s sl ml Hml Hmax;
    cbn [details.common_length].
  - exists 0%nat. destruct (sl =? 0); repeat split; auto; try lia.
  - destruct (Z.eqb_spec sl 0) as [->|Hsl].
    { exists 0%nat. repeat split; auto; try lia. }
    destruct (Z.eqb_spec (mem c) (mem s)) as [E|E]; cbn [negb].
    2:{ exists 0%nat. repeat split; auto; try lia.
        right. right. left. cbn [Z.of_nat]. rewrite !Z.add_0_r. exact E. }
    destruct (Z.eqb_spec (mem c) 0) as [E0|E0].
    { exists 0%nat. repeat split; auto; try lia.
      right. right. right. cbn [Z.of_nat]. rewrite Z.add_0_r. exact E0. }
    rewrite to_size_t_small by lia.
    destruct (IH (c + 1) (s + 1) (sl - 1) (ml + 1) ltac:(lia) ltac:(lia))
      as (k & Hr & Hk & Hksl & Hread & Hfree & Hstop).
    exists (S k). rewrite Hr. split; [lia|]. split; [lia|]. split; [lia|].
    split; [rewrite !read_cons, E, Hread; reflexivity|]. split.
    + intros i Hi. destruct (Z.eq_dec i 0) as [->|Hi0].
      * rewrite Z.add_0_r. exact E0.
      * replace (c + i) with (c + 1 + (i - 1)) by lia. apply Hfree. lia.
    + replace (c + Z.of_nat (S k)) with (c + 1 + Z.of_nat k) by lia.
      replace (s + Z.of_nat (S k)) with (s + 1 + Z.of_nat k) by lia.
      destruct Hstop as [H|[H|[H|H]]]; [left; lia|right; left; lia|auto|auto].
Qed.

(** X3.  [details::common_length] returns the length [k] of the longest
    run on which the two buffers agree without meeting a terminator,
    within both limits: the first [k] code units are equal and are not
    the terminator, and the run stops at [k] because a limit is reached,
    the code units differ or the content holds the terminator. *)
Theorem common_length_longest_prefix (mem : memory) (content search_text : pointer)
    (content_limit : nat) (search_limit : Z) :
  Z.of_nat content_limit <= size_t_max ->
  exists k : nat,
    details.common_length mem content search_text content_limit search_limit 0
    = Z.of_nat k
    /\ (k <= content_limit)%nat
    /\ (0 <= search_limit -> Z.of_nat k <= search_limit)
    /\ read mem content k = read mem search_text k
    /\ nul_free mem content (Z.of_nat k)
    /\ (k = content_limit \/ Z.of_nat k = search_limit
        \/ mem (content + Z.of_nat k) <> mem (search_text + Z.of_nat k)
        \/ mem (content + Z.of_nat k) = 0).
Proof.
  intros Hmax.
  destruct (common_length_prefix mem content_limit content search_text
              search_limit 0 ltac:(lia) ltac:(lia)) as (k & Hr & H).
  exists k. rewrite Hr. split; [lia|exact H].
Qed.

Lemma common_length_longest_prefix_witness :
  exists k : nat,
    details.common_length mem_prefix 0 addr_Abcd 7 (-1) 0 = Z.of_nat k
    /\ (k <= 7)%nat
    /\ (0 <= -1 -> Z.of_nat k <= -1)
    /\ read mem_prefix 0 k = read mem_prefix addr_Abcd k
    /\ nul_free mem_prefix 0 (Z.of_nat k)
    /\ (k = 7%nat \/ Z.of_nat k = -1
        \/ mem_prefix (0 + Z.of_nat k) <> mem_prefix (addr_Abcd + Z.of_nat k)
        \/ mem_prefix (0 + Z.of_nat k) = 0).
Proof.
  apply (common_length_longest_prefix mem_prefix 0 addr_Abcd 7 (-1)).
  vm_compute. discriminate.
Defined.

(** ** [starts_with] *)

Lemma starts_with_zstring mem : forall content_limit content search_text
    search_limit n,
  search_limit < 0 -> zstring mem search_text n ->
  details.starts_with mem content search_text content_limit search_limit
  = (n <=? content_limit)%nat
    && std.string_eq (read mem content n) (read mem search_text n).
Proof.
  induction content_limit as [|cl IH]; intros c s sl n Hsl Hz;
    cbn [details.starts_with];
    replace (sl =? 0) with false by (symmetry; apply Z.eqb_neq; lia).
  - replace (sl <? 0) with true by (symmetry; apply Z.ltb_lt; lia).
    destruct n as [|n].
    + rewrite (zstring_zero mem s Hz). reflexivity.
    + pose proof (zstring_head mem s n Hz) as Hs.
      apply Z.eqb_neq in Hs. rewrite Hs. reflexivity.
  - destruct n as [|n].
    + rewrite (zstring_zero mem s Hz).
      destruct (mem c =? 0); reflexivity.
    + pose proof (zstring_head mem s n Hz) as Hs.
      rewrite !read_cons. cbn [std.string_eq Nat.leb].
      destruct (Z.eqb_spec (mem c) (mem s)) as [E|E]; cbn [negb andb].
      * rewrite E. apply Z.eqb_neq in Hs. rewrite Hs.
        apply IH; [lia|apply zstring_tail, Hz].
      * apply Z.eqb_neq in Hs. rewrite Hs. rewrite andb_false_r. reflexivity.
Qed.

Lemma starts_with_counted mem : forall content_limit content search_text k,
  nul_free mem search_text (Z.of_nat k) ->
  details.starts_with mem content search_text content_limit (Z.of_nat k)
  = (k <=? content_limit)%nat
    && std.string_eq (read mem content k) (read mem search_text k).
Proof.
  induction content_limit as [|cl IH]; intros c s k Hs;
    (destruct k as [|k]; [reflexivity|]);
    cbn [details.starts_with];
    replace (Z.of_nat (S k) =? 0) with false by (symmetry; apply Z.eqb_neq; lia).
  - replace (Z.of_nat (S k) <? 0) with false by (symmetry; apply Z.ltb_ge; lia).
    reflexivity.
  - assert (Hs0 : mem s <> 0)
      by (apply (nul_free_head mem s (Z.of_nat (S k))); [lia|exact Hs]).
    apply Z.eqb_neq in Hs0.
    rewrite !read_cons. cbn [std.string_eq Nat.leb].
    replace (Z.of_nat (S k) - 1) with (Z.of_nat k) by lia.
    destruct (Z.eqb_spec (mem c) (mem s)) as [E|E]; cbn [negb andb].
    + rewrite E, Hs0. apply IH, nul_free_tail, Hs.
    + rewrite Hs0, andb_false_r. reflexivity.
Qed.

Lemma of_c_str_zstring mem n : forall fuel s,
  zstring mem s n -> (n < fuel)%nat ->
  std_string.of_c_str mem fuel s = Some (read mem s n).
Proof.
  induction n as [|n IH]; intros fuel s Hz Hfuel;
    (destruct fuel as [|fuel]; [lia|]); cbn [std_string.of_c_str].
  - rewrite (zstring_zero mem s Hz). reflexivity.
  - pose proof (zstring_head mem s n Hz) as Hs.
    apply Z.eqb_neq in Hs. rewrite Hs.
    rewrite (IH fuel (s + 1)) by (apply zstring_tail, Hz || lia).
    rewrite read_cons. reflexivity.
Qed.

Lemma firstn_read mem m : forall p n,
  firstn m (read mem p n) = read mem p (Nat.min m n).
Proof.
  induction m as [|m IH]; intros p n; [reflexivity|].
  destruct n as [|n]; [reflexivity|].
  cbn [Nat.min]. rewrite !read_cons. cbn [firstn]. rewrite IH. reflexivity.
Qed.

Lemma skipn_read mem m : forall p n,
  skipn m (read mem p n) = read mem (p + Z.of_nat m) (n - m).
Proof.
  induction m as [|m IH]; intros p n.
  - cbn [skipn Z.of_nat]. rewrite Z.add_0_r, Nat.sub_0_r. reflexivity.
  - destruct n as [|n]; [reflexivity|].
    rewrite read_cons. cbn [skipn Nat.sub]. rewrite IH.
    f_equal. lia.
Qed.

Lemma string_eq_sym a b : std.string_eq a b = std.string_eq b a.
Proof.
  destruct (std.string_eq a b) eqn:E1, (std.string_eq b a) eqn:E2; try reflexivity.
  - apply string_eq_iff in E1. subst. rewrite string_eq_refl in E2. discriminate.
  - apply string_eq_iff in E2. subst. rewrite string_eq_refl in E1. discriminate.
Qed.

Lemma string_eq_lengths a b :
  List.length a <> List.length b -> std.string_eq a b = false.
Proof.
  intros H. destruct (std.string_eq a b) eqn:E; [|reflexivity].
  apply string_eq_iff in E. subst. contradiction.
Qed.

Lemma string_eq_read_iff mem p q n :
  std.string_eq (read mem p n) (read mem q n) = true
  <-> read mem p n = read mem q n.
Proof. apply string_eq_iff. Qed.

Lemma starts_with_z_enabled mem (v : basic_char_view) a_str n fuel :
  zstring mem a_str n ->
  starts_with_z mem RecursivePolicyEnabled fuel v a_str
  = Some ((n <=? Z.to_nat (m_size v))%nat
          && std.string_eq (read mem (m_str v) n) (read mem a_str n)).
Proof.
  intros Hz. unfold starts_with_z.
  rewrite (starts_with_zstring mem _ _ _ _ n) by (lia || exact Hz).
  reflexivity.
Qed.

Lemma starts_with_z_disabled mem (v : basic_char_view) a_str n fuel :
  zstring mem a_str n -> (n < fuel)%nat ->
  starts_with_z mem RecursivePolicyDisabled fuel v a_str
  = Some ((n <=? Z.to_nat (m_size v))%nat
          && std.string_eq (read mem (m_str v) n) (read mem a_str n)).
Proof.
  intros Hz Hfuel. unfold starts_with_z, std_string.substr, std_string.size.
  rewrite (of_c_str_zstring mem n) by assumption.
  cbn [skipn]. rewrite firstn_read, read_length, Nat2Z.id. f_equal.
  destruct (Nat.leb_spec n (Z.to_nat (m_size v))) as [H|H]; cbn [andb].
  - rewrite Nat.min_r by lia. apply string_eq_sym.
  - apply string_eq_lengths. rewrite !read_length. lia.
Qed.

(** X4.  [starts_with(const charT* a_str)] under the recursive policy: for
    every view, with or without terminators inside, and every
    zero-terminated needle of [n] code units, it returns true exactly when
    the needle is not longer than the view and the first [n] code units of
    the view are those of the needle. *)
Theorem starts_with_z_is_prefix (mem : memory) (v : basic_char_view)
    (a_str : pointer) (n fuel : nat) :
  0 <= m_size v -> zstring mem a_str n ->
  (starts_with_z mem RecursivePolicyEnabled fuel v a_str = Some true
   <-> Z.of_nat n <= m_size v
       /\ read mem (m_str v) n = read mem a_str n)
  /\ (starts_with_z mem RecursivePolicyEnabled fuel v a_str = Some true
      \/ starts_with_z mem RecursivePolicyEnabled fuel v a_str = Some false).
Proof.
  intros Hv Hz. rewrite (starts_with_z_enabled mem v a_str n fuel Hz). split.
  - split.
    + intros H. injection H as H. apply andb_true_iff in H. destruct H as [H1 H2].
      apply Nat.leb_le in H1. apply string_eq_iff in H2. split; [lia|exact H2].
    + intros [H1 H2]. f_equal. apply andb_true_iff. split.
      * apply Nat.leb_le. lia.
      * apply string_eq_iff, H2.
  - destruct (_ && _); [left|right]; reflexivity.
Qed.

Lemma starts_with_z_is_prefix_witness :
  (starts_with_z mem_prefix RecursivePolicyEnabled 0 view_Abcdefg addr_Abcd = Some true
   <-> Z.of_nat 4 <= m_size view_Abcdefg
       /\ read mem_prefix (m_str view_Abcdefg) 4 = read mem_prefix addr_Abcd 4)
  /\ (starts_with_z mem_prefix RecursivePolicyEnabled 0 view_Abcdefg addr_Abcd = Some true
      \/ starts_with_z mem_prefix RecursivePolicyEnabled 0 view_Abcdefg addr_Abcd
         = Some false).
Proof.
  apply (starts_with_z_is_prefix mem_prefix view_Abcdefg addr_Abcd 4 0).
  - vm_compute. discriminate.
  - split.
    + intros i Hi. assert (Hc : i = 0 \/ i = 1 \/ i = 2 \/ i = 3) by lia.
      destruct Hc as [-> | [-> | [-> | ->]]]; vm_compute; discriminate.
    + reflexivity.
Defined.

(** X5.  [starts_with(const charT* a_str)] gives the same answer under both
    policies: the iterative overload, which compares two
    [std::basic_string] values, agrees with the recursive one on every
    view and every zero-terminated needle. *)
Theorem starts_with_z_policies_agree (mem : memory) (v : basic_char_view)
    (a_str : pointer) (n fuel : nat) :
  zstring mem a_str n -> (n < fuel)%nat ->
  starts_with_z mem RecursivePolicyDisabled fuel v a_str
  = starts_with_z mem RecursivePolicyEnabled fuel v a_str
  /\ starts_with_z mem RecursivePolicyDisabled fuel v a_str <> None.
Proof.
  intros Hz Hfuel.
  rewrite (starts_with_z_enabled mem v a_str n fuel Hz).
  rewrite (starts_with_z_disabled mem v a_str n fuel Hz Hfuel).
  split; [reflexivity|discriminate].
Qed.

Lemma zstring_Abcd : zstring mem_prefix addr_Abcd 4.
Proof.
  split.
  - intros i Hi. assert (Hc : i = 0 \/ i = 1 \/ i = 2 \/ i = 3) by lia.
    destruct Hc as [-> | [-> | [-> | ->]]]; vm_compute; discriminate.
  - reflexivity.
Defined.

Lemma starts_with_z_policies_agree_witness :
  starts_with_z mem_prefix RecursivePolicyDisabled 5 view_Abcdefg addr_Abcd
  = starts_with_z mem_prefix RecursivePolicyEnabled 5 view_Abcdefg addr_Abcd
  /\ starts_with_z mem_prefix RecursivePolicyDisabled 5 view_Abcdefg addr_Abcd <> None.
Proof.
  apply (starts_with_z_policies_agree mem_prefix view_Abcdefg addr_Abcd 4 5).
  - exact zstring_Abcd.
  - lia.
Defined.

(** X6.  [starts_with] for a needle given as a view or as a (pointer,
    length) buffer, under the recursive policy: when the needle holds no
    terminator, it returns true exactly when the needle is not longer than
    the view and the view begins with the code units of the needle. *)
Theorem starts_with_is_prefix (mem : memory) (v a : basic_char_view) :
  0 <= m_size v -> 0 <= m_size a <= ssize_t_max ->
  nul_free mem (m_str a) (m_size a) ->
  (starts_with mem v a = true
   <-> m_size a <= m_size v
       /\ read mem (m_str v) (Z.to_nat (m_size a))
          = read mem (m_str a) (Z.to_nat (m_size a)))
  /\ starts_with_cn mem RecursivePolicyEnabled v (m_str a) (m_size a)
     = starts_with mem v a.
Proof.
  intros Hv Ha Hn. split; [|reflexivity].
  unfold starts_with. rewrite to_ssize_t_small by lia.
  rewrite <- (Z2Nat.id (m_size a)) at 1 by lia.
  rewrite starts_with_counted by (rewrite Z2Nat.id by lia; exact Hn).
  rewrite andb_true_iff, Nat.leb_le, string_eq_iff. split.
  - intros [H1 H2]. split; [lia|exact H2].
  - intros [H1 H2]. split; [lia|exact H2].
Qed.

Lemma nul_free_Abcd : nul_free mem_prefix addr_Abcd 4.
Proof. exact (proj1 zstring_Abcd). Defined.

Lemma starts_with_is_prefix_witness :
  (starts_with mem_prefix view_Abcdefg {| m_str := addr_Abcd; m_size := 4 |} = true
   <-> 4 <= m_size view_Abcdefg
       /\ read mem_prefix (m_str view_Abcdefg) (Z.to_nat 4)
          = read mem_prefix addr_Abcd (Z.to_nat 4))
  /\ starts_with_cn mem_prefix RecursivePolicyEnabled view_Abcdefg addr_Abcd 4
     = starts_with mem_prefix view_Abcdefg {| m_str := addr_Abcd; m_size := 4 |}.
Proof.
  apply (starts_with_is_prefix mem_prefix view_Abcdefg
           {| m_str := addr_Abcd; m_size := 4 |}).
  - vm_compute. discriminate.
  - vm_compute. split; discriminate.
  - exact nul_free_Abcd.
Defined.

(** ** [ends_with] *)

Lemma string_eq_snoc a : forall b x y,
  List.length a = List.length b ->
  std.string_eq (a ++ [x]) (b ++ [y]) = std.string_eq a b && (x =? y).
Proof.
  induction a as [|c a IH]; intros [|d b] x y Hlen; cbn [List.length] in Hlen;
    try discriminate.
  - cbn. rewrite andb_true_r. reflexivity.
  - cbn [app std.string_eq]. rewrite IH by lia. rewrite andb_assoc. reflexivity.
Qed.

Lemma details_ends_with_suffix mem content search_text : forall k n fuel,
  (k < fuel)%nat ->
  details_ends_with mem fuel content search_text
    (Z.of_nat n - 1) (Z.of_nat k - 1)
  = Some ((k <=? n)%nat
          && std.string_eq (read mem (content + Z.of_nat (n - k)) k)
               (read mem search_text k)).
Proof.
  induction k as [|k IH]; intros n fuel Hfuel;
    (destruct fuel as [|fuel]; [lia|]); cbn [details_ends_with].
  - reflexivity.
  - replace (Z.of_nat (S k) - 1 <? 0) with false by (symmetry; apply Z.ltb_ge; lia).
    destruct n as [|n].
    + reflexivity.
    + replace (Z.of_nat (S n) - 1 <? 0) with false
        by (symmetry; apply Z.ltb_ge; lia).
      replace (Z.of_nat (S n) - 1 - 1) with (Z.of_nat n - 1) by lia.
      replace (Z.of_nat (S k) - 1 - 1) with (Z.of_nat k - 1) by lia.
      replace (Z.of_nat (S n) - 1) with (Z.of_nat n) by lia.
      replace (Z.of_nat (S k) - 1) with (Z.of_nat k) by lia.
      cbn [Nat.leb Nat.sub].
      destruct (Nat.leb_spec k n) as [Hkn|Hkn].
      * rewrite !read_snoc, string_eq_snoc by (rewrite !read_length; reflexivity).
        replace (content + Z.of_nat (n - k) + Z.of_nat k)
          with (content + Z.of_nat n) by lia.
        rewrite IH by lia.
        replace (k <=? n)%nat with true by (symmetry; apply Nat.leb_le; lia).
        cbn [andb].
        destruct (mem (content + Z.of_nat n) =? mem (search_text + Z.of_nat k));
          cbn [negb]; [rewrite andb_true_r|rewrite andb_false_r]; reflexivity.
      * rewrite IH by lia.
        replace (k <=? n)%nat with false by (symmetry; apply Nat.leb_gt; lia).
        destruct (negb _); reflexivity.
Qed.

Lemma ends_with_cn_enabled mem (v : basic_char_view) a_str a_len fuel :
  0 <= m_size v <= ssize_t_max -> 0 <= a_len <= ssize_t_max ->
  (Z.to_nat a_len < fuel)%nat ->
  ends_with_cn mem RecursivePolicyEnabled fuel v a_str a_len
  = Some ((a_len <=? m_size v)
          && std.string_eq
               (read mem (m_str v + (m_size v - a_len)) (Z.to_nat a_len))
               (read mem a_str (Z.to_nat a_len))).
Proof.
  intros Hv Ha Hfuel. unfold ends_with_cn.
  rewrite !to_ssize_t_small by lia.
  rewrite <- (Z2Nat.id (m_size v)) at 1 by lia.
  rewrite <- (Z2Nat.id a_len) at 1 by lia.
  rewrite details_ends_with_suffix by exact Hfuel. f_equal.
  destruct (Z.leb_spec a_len (m_size v)) as [H|H].
  - replace (Z.to_nat a_len <=? Z.to_nat (m_size v))%nat with true
      by (symmetry; apply Nat.leb_le; lia).
    replace (Z.of_nat (Z.to_nat (m_size v) - Z.to_nat a_len))
      with (m_size v - a_len) by lia.
    reflexivity.
  - replace (Z.to_nat a_len <=? Z.to_nat (m_size v))%nat with false
      by (symmetry; apply Nat.leb_gt; lia).
    reflexivity.
Qed.

Lemma ends_with_cn_disabled mem (v : basic_char_view) a_str a_len fuel :
  0 <= m_size v <= size_t_max -> 0 <= a_len ->
  ends_with_cn mem RecursivePolicyDisabled fuel v a_str a_len
  = Some ((a_len <=? m_size v)
          && std.string_eq
               (read mem (m_str v + (m_size v - a_len)) (Z.to_nat a_len))
               (read mem a_str (Z.to_nat a_len))).
Proof.
  intros Hv Ha. unfold ends_with_cn, std_string.size, std_string.substr.
  cbv zeta. rewrite !read_length, Z2Nat.id by lia.
  rewrite Z.gtb_ltb.
  destruct (Z.ltb_spec (m_size v) a_len) as [H|H].
  - replace (a_len <=? m_size v) with false by (symmetry; apply Z.leb_gt; lia).
    reflexivity.
  - replace (a_len <=? m_size v) with true by (symmetry; apply Z.leb_le; lia).
    cbn [andb].
    destruct (Z.eqb_spec (m_size v) 0) as [E|E].
    + assert (a_len = 0) as -> by lia. cbn. reflexivity.
    + rewrite to_size_t_small by lia.
      rewrite skipn_read, firstn_read.
      rewrite Z2Nat.id by lia.
      replace (Nat.min (Z.to_nat a_len)
                 (Z.to_nat (m_size v) - Z.to_nat (m_size v - a_len)))
        with (Z.to_nat a_len) by lia.
      reflexivity.
Qed.

Lemma suffix_test_iff mem (v : basic_char_view) a_str a_len :
  (a_len <=? m_size v)
  && std.string_eq (read mem (m_str v + (m_size v - a_len)) (Z.to_nat a_len))
       (read mem a_str (Z.to_nat a_len)) = true
  <-> a_len <= m_size v
      /\ read mem (m_str v + (m_size v - a_len)) (Z.to_nat a_len)
         = read mem a_str (Z.to_nat a_len).
Proof.
  rewrite andb_true_iff, Z.leb_le, string_eq_iff. reflexivity.
Qed.

(** X7.  [ends_with] under the recursive policy, for a needle given as a
    (pointer, length) buffer, as a view or as a zero-terminated string:
    with fuel for the needle it returns, and it returns true exactly when
    the needle is not longer than the view and the last code units of the
    view are those of the needle.  Terminators inside either buffer are
    compared like any other code unit. *)
Theorem ends_with_is_suffix (mem : memory) (v : basic_char_view)
    (a_str : pointer) (a_len : Z) (fuel : nat) :
  0 <= m_size v <= ssize_t_max -> 0 <= a_len <= ssize_t_max ->
  (Z.to_nat a_len < fuel)%nat ->
  (exists b, ends_with_cn mem RecursivePolicyEnabled fuel v a_str a_len = Some b
     /\ (b = true
         <-> a_len <= m_size v
             /\ read mem (m_str v + (m_size v - a_len)) (Z.to_nat a_len)
                = read mem a_str (Z.to_nat a_len)))
  /\ ends_with mem fuel v {| m_str := a_str; m_size := a_len |}
     = ends_with_cn mem RecursivePolicyEnabled fuel v a_str a_len
  /\ (zstring mem a_str (Z.to_nat a_len) ->
      ends_with_z mem fuel v a_str
      = ends_with_cn mem RecursivePolicyEnabled fuel v a_str a_len).
Proof.
  intros Hv Ha Hfuel. split; [|split].
  - eexists. split; [apply ends_with_cn_enabled; assumption|].
    apply suffix_test_iff.
  - reflexivity.
  - intros Hz. unfold ends_with_z.
    rewrite (length_zstring mem (Z.to_nat a_len) fuel a_str Hz)
      by (unfold size_t_max, size_t_modulus, ssize_t_max in *; lia).
    rewrite Z2Nat.id by lia. reflexivity.
Qed.

Lemma ends_with_is_suffix_witness :
  (exists b, ends_with_cn mem_abc RecursivePolicyEnabled 3 view_abc 1 2 = Some b
     /\ (b = true
         <-> 2 <= m_size view_abc
             /\ read mem_abc (m_str view_abc + (m_size view_abc - 2)) (Z.to_nat 2)
                = read mem_abc 1 (Z.to_nat 2)))
  /\ ends_with mem_abc 3 view_abc {| m_str := 1; m_size := 2 |}
     = ends_with_cn mem_abc RecursivePolicyEnabled 3 view_abc 1 2
  /\ (zstring mem_abc 1 (Z.to_nat 2) ->
      ends_with_z mem_abc 3 view_abc 1
      = ends_with_cn mem_abc RecursivePolicyEnabled 3 view_abc 1 2).
Proof.
  apply (ends_with_is_suffix mem_abc view_abc 1 2 3).
  - vm_compute. split; discriminate.
  - vm_compute. split; discriminate.
  - vm_compute. lia.
Defined.

(** X8.  [ends_with(const charT*, size_t)] gives the same answer under
    both policies: the iterative overload, built on [std::basic_string],
    and the recursive one agree on every view and every needle, empty
    view and needle longer than the view included. *)
Theorem ends_with_cn_policies_agree (mem : memory) (v : basic_char_view)
    (a_str : pointer) (a_len : Z) (fuel : nat) :
  0 <= m_size v <= ssize_t_max -> 0 <= a_len <= ssize_t_max ->
  (Z.to_nat a_len < fuel)%nat ->
  ends_with_cn mem RecursivePolicyEnabled fuel v a_str a_len
  = ends_with_cn mem RecursivePolicyDisabled fuel v a_str a_len
  /\ ends_with_cn mem RecursivePolicyEnabled fuel v a_str a_len <> None.
Proof.
  intros Hv Ha Hfuel.
  rewrite ends_with_cn_enabled by assumption.
  rewrite ends_with_cn_disabled
    by (unfold size_t_max, size_t_modulus, ssize_t_max in *; lia).
  split; [reflexivity|discriminate].
Qed.

Lemma ends_with_cn_policies_agree_witness :
  ends_with_cn mem_abc RecursivePolicyEnabled 3 view_abc 1 2
  = ends_with_cn mem_abc RecursivePolicyDisabled 3 view_abc 1 2
  /\ ends_with_cn mem_abc RecursivePolicyEnabled 3 view_abc 1 2 <> None.
Proof.
  apply (ends_with_cn_policies_agree mem_abc view_abc 1 2 3).
  - vm_compute. split; discriminate.
  - vm_compute. split; discriminate.
  - vm_compute. lia.
Defined.

(** ** A view against itself *)

Lemma starts_with_self mem : forall content_limit content,
  details.starts_with mem content content content_limit (Z.of_nat content_limit)
  = true.
Proof.
  induction content_limit as [|cl IH]; intros c; [reflexivity|].
  cbn [details.starts_with].
  replace (Z.of_nat (S cl) =? 0) with false by (symmetry; apply Z.eqb_neq; lia).
  rewrite Z.eqb_refl. cbn [negb].
  destruct (mem c =? 0); [reflexivity|].
  replace (Z.of_nat (S cl) - 1) with (Z.of_nat cl) by lia. apply IH.
Qed.

Lemma compare_self mem : forall content_limit content,
  details.compare mem content content content_limit (Z.of_nat content_limit) = 0.
Proof.
  induction content_limit as [|cl IH]; intros c; [reflexivity|].
  cbn [details.compare].
  replace (Z.of_nat (S cl) =? 0) with false by (symmetry; apply Z.eqb_neq; lia).
  rewrite Z.gtb_ltb, Z.ltb_irrefl.
  destruct (mem c =? 0); [reflexivity|].
  replace (Z.of_nat (S cl) - 1) with (Z.of_nat cl) by lia. apply IH.
Qed.

Lemma last_index_of_self mem content_limit content offset found_pos :
  0 <= offset <= ssize_t_max -> Z.of_nat content_limit <= ssize_t_max ->
  details.last_index_of mem content content content_limit content_limit
    offset found_pos = offset.
Proof.
  intros Ho Hcl. destruct content_limit as [|cl]; cbn [details.last_index_of].
  - cbn. apply to_ssize_t_small. unfold ssize_t_max in *. lia.
  - rewrite Nat.ltb_irrefl.
    rewrite ssize_of_small by exact Hcl.
    rewrite compare_self. cbn [Z.eqb].
    destruct cl as [|cl]; cbn [details.last_index_of].
    + cbn [Nat.ltb Nat.leb]. apply to_ssize_t_small. unfold ssize_t_max in *. lia.
    + replace (S cl <? S (S cl))%nat with true
        by (symmetry; apply Nat.ltb_lt; lia).
      apply to_ssize_t_small. unfold ssize_t_max in *. lia.
Qed.

(** X9.  Every view, with or without terminators inside, matches itself
    under the recursive policy: it starts with itself, ends with itself,
    equals itself, compares equal to itself and contains itself, and
    [find] and [rfind] locate it at position 0. *)
Theorem view_matches_itself (mem : memory) (v : basic_char_view) (fuel : nat) :
  0 <= m_size v <= ssize_t_max -> (Z.to_nat (m_size v) < fuel)%nat ->
  starts_with mem v v = true
  /\ ends_with mem fuel v v = Some true
  /\ equals mem RecursivePolicyEnabled v v = true
  /\ compare mem v v = 0
  /\ contains mem v v = true
  /\ find mem v v = 0
  /\ rfind mem v v = 0.
Proof.
  intros Hv Hfuel.
  assert (Hsw : details.starts_with mem (m_str v) (m_str v)
                  (Z.to_nat (m_size v)) (to_ssize_t (m_size v)) = true).
  { rewrite to_ssize_t_small by lia.
    rewrite <- (Z2Nat.id (m_size v)) at 2 by lia. apply starts_with_self. }
  assert (Hcmp : details.compare mem (m_str v) (m_str v)
                   (Z.to_nat (m_size v)) (to_ssize_t (m_size v)) = 0).
  { rewrite to_ssize_t_small by lia.
    rewrite <- (Z2Nat.id (m_size v)) at 2 by lia. apply compare_self. }
  assert (Hso : ssize_of (Z.to_nat (m_size v)) = to_ssize_t (m_size v)).
  { unfold ssize_of. rewrite Z2Nat.id by lia. reflexivity. }
  repeat split.
  - exact Hsw.
  - change (ends_with mem fuel v v)
      with (ends_with_cn mem RecursivePolicyEnabled fuel v (m_str v) (m_size v)).
    rewrite ends_with_cn_enabled by (assumption || lia).
    rewrite Z.leb_refl, Z.sub_diag, Z.add_0_r, string_eq_refl. reflexivity.
  - unfold equals, equals_cn. rewrite Z.eqb_refl. exact Hsw.
  - exact Hcmp.
  - unfold contains. destruct (Z.to_nat (m_size v)) as [|n] eqn:E;
      cbn [details.contains]; [reflexivity|].
    rewrite Nat.ltb_irrefl, Hso, Hcmp. reflexivity.
  - unfold find. destruct (Z.to_nat (m_size v)) as [|n] eqn:E;
      cbn [details.index_of]; [reflexivity|].
    rewrite Nat.ltb_irrefl, Hso, Hsw. reflexivity.
  - unfold rfind.
    rewrite last_index_of_self; [reflexivity| |lia].
    split; [lia|vm_compute; discriminate].
Qed.

Lemma view_matches_itself_witness :
  starts_with mem_abc view_abc view_abc = true
  /\ ends_with mem_abc 4 view_abc view_abc = Some true
  /\ equals mem_abc RecursivePolicyEnabled view_abc view_abc = true
  /\ compare mem_abc view_abc view_abc = 0
  /\ contains mem_abc view_abc view_abc = true
  /\ find mem_abc view_abc view_abc = 0
  /\ rfind mem_abc view_abc view_abc = 0.
Proof.
  apply (view_matches_itself mem_abc view_abc 4).
  - vm_compute. split; discriminate.
  - vm_compute. lia.
Defined.

(** ** The empty search argument *)

Lemma last_index_of_empty mem search_text : forall content_limit content offset found_pos,
  0 <= offset -> offset + Z.of_nat content_limit <= size_t_max ->
  to_size_t (details.last_index_of mem content search_text content_limit 0
               offset found_pos)
  = offset + Z.of_nat content_limit.
Proof.
  induction content_limit as [|cl IH]; intros c offset fp Ho Hmax;
    cbn [details.last_index_of Nat.ltb Nat.leb Nat.eqb].
  - rewrite to_size_t_to_ssize_t, to_size_t_small by lia. lia.
  - change (ssize_of 0) with 0. cbn [details.compare Z.eqb].
    rewrite (to_size_t_small (offset + 1)) by lia.
    rewrite IH by lia. lia.
Qed.

Lemma last_index_of_nonmatching_empty mem search_set :
  forall content_limit content offset found_pos,
  0 <= offset -> offset + Z.of_nat content_limit <= size_t_max ->
  to_size_t (details.last_index_of_nonmatching mem content search_set
               content_limit 0 offset found_pos)
  = offset + Z.of_nat content_limit.
Proof.
  induction content_limit as [|cl IH]; intros c offset fp Ho Hmax;
    cbn [details.last_index_of_nonmatching details.index_of
         Nat.ltb Nat.leb Nat.eqb Z.ltb Z.compare].
  - rewrite to_size_t_to_ssize_t, to_size_t_small by lia. lia.
  - rewrite (to_size_t_small (offset + 1)) by lia.
    rewrite IH by lia. lia.
Qed.

Lemma last_index_of_any_empty mem search_set :
  forall content_limit content offset found_pos,
  details.last_index_of_any mem content search_set content_limit 0
    offset found_pos = -1.
Proof.
  induction content_limit as [|cl IH]; intros c offset fp;
    cbn [details.last_index_of_any details.index_of
         Nat.ltb Nat.leb Nat.eqb Z.geb Z.compare]; [reflexivity|].
  apply IH.
Qed.

(** X10.  What each method of the recursive policy returns for an empty
    search argument, on every view: [starts_with], [ends_with] and
    [contains] are true, [find] is 0 and [rfind] is the size of the view;
    [find_first_of] and [find_last_of] are [npos]; [find_first_not_of] is
    0 and [find_last_not_of] is the size of the view, also when the view
    is empty. *)
Theorem empty_search_argument (mem : memory) (v : basic_char_view)
    (a_str : pointer) (fuel : nat) :
  0 <= m_size v <= size_t_max -> (0 < fuel)%nat ->
  starts_with_cn mem RecursivePolicyEnabled v a_str 0 = true
  /\ ends_with_cn mem RecursivePolicyEnabled fuel v a_str 0 = Some true
  /\ contains_cn mem v a_str 0 = true
  /\ find_cn mem v a_str 0 = 0
  /\ rfind_cn mem v a_str 0 = m_size v
  /\ find_first_of_cn mem v a_str 0 = npos
  /\ find_last_of_cn mem v a_str 0 = npos
  /\ find_first_not_of_cn mem v a_str 0 = 0
  /\ find_last_not_of_cn mem v a_str 0 = m_size v.
Proof.
  intros Hv Hfuel. change (Z.to_nat 0) with 0%nat.
  repeat split.
  - unfold starts_with_cn. change (to_ssize_t 0) with 0.
    destruct (Z.to_nat (m_size v)); reflexivity.
  - destruct fuel as [|fuel]; [lia|]. reflexivity.
  - unfold contains_cn. change (Z.to_nat 0) with 0%nat.
    destruct (Z.to_nat (m_size v)); reflexivity.
  - unfold find_cn. change (Z.to_nat 0) with 0%nat.
    destruct (Z.to_nat (m_size v)); reflexivity.
  - unfold rfind_cn. change (Z.to_nat 0) with 0%nat.
    rewrite last_index_of_empty by lia. lia.
  - unfold find_first_of_cn. change (Z.to_nat 0) with 0%nat.
    destruct (Z.to_nat (m_size v)); reflexivity.
  - unfold find_last_of_cn. change (Z.to_nat 0) with 0%nat.
    rewrite last_index_of_any_empty. reflexivity.
  - unfold find_first_not_of_cn. change (Z.to_nat 0) with 0%nat.
    destruct (Z.to_nat (m_size v)); reflexivity.
  - unfold find_last_not_of_cn. change (Z.to_nat 0) with 0%nat.
    rewrite last_index_of_nonmatching_empty by lia. lia.
Qed.

Lemma empty_search_argument_witness :
  starts_with_cn mem_abc RecursivePolicyEnabled view_abc 3 0 = true
  /\ ends_with_cn mem_abc RecursivePolicyEnabled 1 view_abc 3 0 = Some true
  /\ contains_cn mem_abc view_abc 3 0 = true
  /\ find_cn mem_abc view_abc 3 0 = 0
  /\ rfind_cn mem_abc view_abc 3 0 = m_size view_abc
  /\ find_first_of_cn mem_abc view_abc 3 0 = npos
  /\ find_last_of_cn mem_abc view_abc 3 0 = npos
  /\ find_first_not_of_cn mem_abc view_abc 3 0 = 0
  /\ find_last_not_of_cn mem_abc view_abc 3 0 = m_size view_abc.
Proof.
  apply (empty_search_argument mem_abc view_abc 3 1).
  - vm_compute. split; discriminate.
  - lia.
Defined.

(** ** [equals] *)

Lemma read_nul_free mem p q n :
  read mem p n = read mem q n -> nul_free mem q (Z.of_nat n) ->
  nul_free mem p (Z.of_nat n).
Proof.
  intros Hr Hq i Hi. rewrite read_eq_iff in Hr. rewrite (Hr i Hi). apply Hq, Hi.
Qed.

Lemma read_prefix mem p q n k :
  (k <= n)%nat -> read mem p n = read mem q n -> read mem p k = read mem q k.
Proof.
  intros Hk Hr. rewrite read_eq_iff in *. intros i Hi. apply Hr. lia.
Qed.

(** X11.  [equals(const charT* a_str)] is equality of contents for every
    view: against a zero-terminated string of [n] code units it is true
    exactly when the view has [n] code units and they are those of the
    string, and the iterative overload returns the same for every view
    that an [int] can count. *)
Theorem equals_z_is_equality (mem : memory) (v : basic_char_view)
    (a_str : pointer) (n : nat) :
  0 <= m_size v <= size_t_max -> zstring mem a_str n ->
  (equals_z mem v a_str = true
   <-> m_size v = Z.of_nat n /\ read mem (m_str v) n = read mem a_str n)
  /\ (m_size v <= int_max -> equals_z_iterative mem v a_str = equals_z mem v a_str).
Proof.
  intros Hv Hz. split.
  - unfold equals_z.
    destruct (common_length_prefix mem (Z.to_nat (m_size v)) (m_str v) a_str
                (-1) 0 ltac:(lia) ltac:(lia))
      as (k & Hr & Hk & _ & Hread & Hfree & Hstop).
    rewrite Hr, andb_true_iff, !Z.eqb_eq. split.
    + intros [Hks Hend].
      assert (Hzk : zstring mem a_str k).
      { split.
        - intros i Hi. rewrite read_eq_iff in Hread.
          rewrite <- (Hread i Hi). apply Hfree, Hi.
        - replace (Z.of_nat k) with (m_size v) by lia. exact Hend. }
      pose proof (zstring_unique mem a_str k n Hzk Hz) as ->.
      split; [lia|exact Hread].
    + intros [Hs Hreadn].
      assert (Hkn : k = n).
      { destruct (Nat.eq_dec k n) as [E|E]; [exact E|exfalso].
        assert (Hlt : (k < n)%nat) by lia.
        rewrite read_eq_iff in Hreadn.
        pose proof (Hreadn (Z.of_nat k) ltac:(lia)) as Hat.
        destruct Hstop as [H|[H|[H|H]]]; try lia.
        destruct Hz as [Hnz _]. apply (Hnz (Z.of_nat k)); [lia|].
        rewrite <- Hat. exact H. }
      subst k. split; [lia|].
      rewrite Hs. apply Hz.
  - intros Hint. unfold equals_z_iterative, equals_z.
    rewrite common_length_iterative by lia. reflexivity.
Qed.

Lemma equals_z_is_equality_witness :
  (equals_z mem_abc view_abc 0 = true
   <-> m_size view_abc = Z.of_nat 3 /\ read mem_abc (m_str view_abc) 3 = read mem_abc 0 3)
  /\ (m_size view_abc <= int_max ->
      equals_z_iterative mem_abc view_abc 0 = equals_z mem_abc view_abc 0).
Proof.
  apply (equals_z_is_equality mem_abc view_abc 0 3).
  - vm_compute. split; discriminate.
  - exact zstring_abc.
Defined.

Lemma common_length_full mem content search_text n :
  Z.of_nat n <= ssize_t_max ->
  nul_free mem search_text (Z.of_nat n) ->
  (details.common_length mem content search_text n (Z.of_nat n) 0 =? Z.of_nat n)
  = std.string_eq (read mem content n) (read mem search_text n).
Proof.
  intros Hn Hs.
  assert (Hm : ssize_t_max < size_t_max) by (vm_compute; reflexivity).
  destruct (common_length_prefix mem n content search_text (Z.of_nat n) 0
              ltac:(lia) ltac:(lia))
    as (k & Hr & Hk & _ & Hread & Hfree & Hstop).
  rewrite Hr, Z.add_0_l.
  destruct (std.string_eq (read mem content n) (read mem search_text n)) eqn:E.
  - apply string_eq_iff in E. apply Z.eqb_eq.
    destruct (Nat.eq_dec k n) as [->|Hne]; [reflexivity|exfalso].
    rewrite read_eq_iff in E.
    pose proof (E (Z.of_nat k) ltac:(lia)) as Hat.
    destruct Hstop as [H|[H|[H|H]]]; try lia.
    apply (Hs (Z.of_nat k)); [lia|]. rewrite <- Hat. exact H.
  - apply Z.eqb_neq. intros Hkn. apply Nat2Z.inj in Hkn. subst k.
    apply string_eq_iff in Hread. rewrite Hread in E. discriminate.
Qed.

Lemma equals_cn_recursive_iff mem (v : basic_char_view) a_str a_len :
  0 <= m_size v <= ssize_t_max ->
  nul_free mem a_str a_len ->
  equals_cn mem RecursivePolicyEnabled v a_str a_len = true
  <-> a_len = m_size v
      /\ read mem (m_str v) (Z.to_nat a_len) = read mem a_str (Z.to_nat a_len).
Proof.
  intros Hv Hn. unfold equals_cn.
  destruct (Z.eqb_spec a_len (m_size v)) as [E|E]; cbn [negb].
  - subst a_len. rewrite to_ssize_t_small by lia.
    rewrite <- (Z2Nat.id (m_size v)) at 2 by lia.
    rewrite starts_with_counted by (rewrite Z2Nat.id by lia; exact Hn).
    rewrite Nat.leb_refl. cbn [andb]. rewrite string_eq_iff.
    split; [intros H; split; [reflexivity|exact H]|intros [_ H]; exact H].
  - split; [discriminate|intros [H _]; contradiction].
Qed.

(** X12.  [equals] for a needle given as a (pointer, length) buffer or
    as a view: when the needle holds no terminator the recursive overload
    is true exactly when the sizes are equal and the code units are the
    same, and the iterative overload returns the same for every view that
    an [int] can count. *)
Theorem equals_is_equality (mem : memory) (v : basic_char_view)
    (a_str : pointer) (a_len : Z) :
  0 <= m_size v <= ssize_t_max ->
  nul_free mem a_str a_len ->
  (equals_cn mem RecursivePolicyEnabled v a_str a_len = true
   <-> a_len = m_size v
       /\ read mem (m_str v) (Z.to_nat a_len) = read mem a_str (Z.to_nat a_len))
  /\ (m_size v <= int_max ->
      equals_cn mem RecursivePolicyDisabled v a_str a_len
      = equals_cn mem RecursivePolicyEnabled v a_str a_len)
  /\ (forall policy,
        equals mem policy v {| m_str := a_str; m_size := a_len |}
        = equals_cn mem policy v a_str a_len).
Proof.
  intros Hv Hn. split; [|split; [|reflexivity]].
  - apply equals_cn_recursive_iff; assumption.
  - intros Hint. unfold equals_cn.
    destruct (Z.eqb_spec a_len (m_size v)) as [E|E]; cbn [negb]; [|reflexivity].
    subst a_len. rewrite common_length_iterative by lia.
    rewrite to_ssize_t_small by lia.
    destruct v as [p sz]. cbn [m_str m_size] in *.
    set (n := Z.to_nat sz).
    assert (Hid : sz = Z.of_nat n) by lia.
    clearbody n. subst sz.
    rewrite common_length_full, starts_with_counted by (assumption || lia).
    rewrite Nat.leb_refl. reflexivity.
Qed.

Lemma equals_is_equality_witness :
  (equals_cn mem_prefix RecursivePolicyEnabled view_Abcdefg addr_Abcd 4 = true
   <-> 4 = m_size view_Abcdefg
       /\ read mem_prefix (m_str view_Abcdefg) (Z.to_nat 4)
          = read mem_prefix addr_Abcd (Z.to_nat 4))
  /\ (m_size view_Abcdefg <= int_max ->
      equals_cn mem_prefix RecursivePolicyDisabled view_Abcdefg addr_Abcd 4
      = equals_cn mem_prefix RecursivePolicyEnabled view_Abcdefg addr_Abcd 4)
  /\ (forall policy,
        equals mem_prefix policy view_Abcdefg {| m_str := addr_Abcd; m_size := 4 |}
        = equals_cn mem_prefix policy view_Abcdefg addr_Abcd 4).
Proof.
  apply (equals_is_equality mem_prefix view_Abcdefg addr_Abcd 4).
  - vm_compute. split; discriminate.
  - exact nul_free_Abcd.
Defined.

(** X13.  The iterative [equals] rejects every view that holds a
    terminator, whatever it is compared with, the view itself included;
    the recursive [equals] accepts a view against itself (X9). *)
Theorem equals_iterative_rejects_terminator (mem : memory) (v : basic_char_view)
    (a_str : pointer) (a_len i : Z) :
  0 <= m_size v <= int_max -> 0 <= i < m_size v -> mem (m_str v + i) = 0 ->
  equals_cn mem RecursivePolicyDisabled v a_str a_len = false.
Proof.
  intros Hv Hi Hnul. unfold equals_cn.
  destruct (Z.eqb_spec a_len (m_size v)) as [E|E]; cbn [negb]; [|reflexivity].
  rewrite common_length_iterative by lia.
  assert (Hm : int_max < size_t_max) by (vm_compute; reflexivity).
  destruct (common_length_prefix mem (Z.to_nat (m_size v)) (m_str v) a_str
              (to_ssize_t (m_size v)) 0 ltac:(lia) ltac:(lia))
    as (k & Hr & Hk & _ & _ & Hfree & _).
  rewrite Hr. apply Z.eqb_neq. intros Hkn.
  apply (Hfree i); [lia|exact Hnul].
Qed.

Lemma equals_iterative_rejects_terminator_witness :
  equals_cn mem_a_nul_b RecursivePolicyDisabled view_a_nul_b 0 3 = false.
Proof.
  apply (equals_iterative_rejects_terminator mem_a_nul_b view_a_nul_b 0 3 1).
  - vm_compute. split; discriminate.
  - vm_compute. split; [discriminate|reflexivity].
  - reflexivity.
Defined.

(** ** [hash_code] *)

Lemma hashed_span_nul_free mem p n :
  nul_free mem p (Z.of_nat n) -> hashed_span mem p (Z.of_nat n) n.
Proof.
  intros H. split; [lia|]. split; [exact H|]. left. reflexivity.
Qed.

Lemma hash_code_nul_free mem policy fuel (v : basic_char_view) :
  0 <= m_size v <= size_t_max ->
  nul_free mem (m_str v) (m_size v) ->
  (Z.to_nat (m_size v) < fuel)%nat ->
  hash_code mem policy fuel v
  = Some (djb_hash (read mem (m_str v) (Z.to_nat (m_size v)))).
Proof.
  intros Hv Hn Hfuel.
  assert (Hspan : hashed_span mem (m_str v + 0) (m_size v) (Z.to_nat (m_size v))).
  { rewrite Z.add_0_r. rewrite <- (Z2Nat.id (m_size v)) at 1 by lia.
    apply hashed_span_nul_free. rewrite Z2Nat.id by lia. exact Hn. }
  assert (Hend : 0 + Z.of_nat (Z.to_nat (m_size v)) <= size_t_max) by lia.
  destruct policy; unfold hash_code.
  - rewrite (str_hash_units mem (m_str v) (Z.to_nat (m_size v)));
      try assumption; try lia.
    rewrite hash_units_djb, Z.add_0_r. reflexivity.
  - unfold details.str_hash_loop.
    rewrite (hash_scan_end mem (m_str v) (Z.to_nat (m_size v)));
      try assumption; try lia.
    rewrite hash_fold_units by (assumption || lia).
    rewrite Z.add_0_r. f_equal. unfold djb_hash, details.MAGIC_NUM.
    apply int_fold_unsigned. reflexivity.
Qed.

(** X14.  Equal views hash equally: when [a.equals(b)] holds under the
    recursive policy and [b] holds no terminator, [a.hash_code()] and
    [b.hash_code()] return the same value, whichever policy computes
    either. *)
Theorem equal_views_hash_equally (mem : memory) (a b : basic_char_view)
    (policy_a policy_b : RecursivePolicy) (fuel : nat) :
  0 <= m_size a <= ssize_t_max ->
  nul_free mem (m_str b) (m_size b) ->
  equals mem RecursivePolicyEnabled a b = true ->
  (Z.to_nat (m_size a) < fuel)%nat ->
  hash_code mem policy_a fuel a = hash_code mem policy_b fuel b
  /\ hash_code mem policy_a fuel a <> None.
Proof.
  intros Ha Hn He Hfuel.
  assert (Hm : ssize_t_max < size_t_max) by (vm_compute; reflexivity).
  apply (equals_cn_recursive_iff mem a (m_str b) (m_size b) Ha Hn) in He.
  destruct He as [Hs Hr].
  rewrite Hs in *.
  assert (Hna : nul_free mem (m_str a) (m_size a)).
  { rewrite <- (Z2Nat.id (m_size a)) by lia.
    apply (read_nul_free mem _ (m_str b)); [exact Hr|].
    rewrite Z2Nat.id by lia. exact Hn. }
  rewrite (hash_code_nul_free mem policy_a fuel a) by (assumption || lia).
  rewrite (hash_code_nul_free mem policy_b fuel b) by (rewrite ?Hs; assumption || lia).
  rewrite Hs, Hr. split; [reflexivity|discriminate].
Qed.

Lemma equal_views_hash_equally_witness :
  hash_code mem_prefix RecursivePolicyEnabled 5
    {| m_str := 0; m_size := 4 |}
  = hash_code mem_prefix RecursivePolicyDisabled 5
      {| m_str := addr_Abcd; m_size := 4 |}
  /\ hash_code mem_prefix RecursivePolicyEnabled 5 {| m_str := 0; m_size := 4 |}
     <> None.
Proof.
  apply (equal_views_hash_equally mem_prefix {| m_str := 0; m_size := 4 |}
           {| m_str := addr_Abcd; m_size := 4 |}).
  - vm_compute. split; discriminate.
  - exact nul_free_Abcd.
  - reflexivity.
  - vm_compute. lia.
Defined.

(** ** [compare] and the relational operators *)

Lemma compare_lex mem : forall content_limit content search_text k,
  nul_free mem search_text (Z.of_nat k) ->
  details.compare mem content search_text content_limit (Z.of_nat k)
  = lex_compare (read mem content content_limit) (read mem search_text k).
Proof.
  induction content_limit as [|cl IH]; intros c s k Hs;
    destruct k as [|k]; try reflexivity;
    cbn [details.compare];
    replace (Z.of_nat (S k) =? 0) with false by (symmetry; apply Z.eqb_neq; lia);
    assert (Hs0 : mem s <> 0)
      by (apply (nul_free_head mem s (Z.of_nat (S k))); [lia|exact Hs]).
  - apply Z.eqb_neq in Hs0. rewrite Hs0, read_cons. reflexivity.
  - rewrite !read_cons. cbn [lex_compare].
    destruct (mem c >? mem s) eqn:Egt; [reflexivity|].
    destruct (mem c <? mem s) eqn:Elt; [reflexivity|].
    rewrite Z.gtb_ltb in Egt. apply Z.ltb_ge in Egt, Elt.
    replace (mem c =? 0) with false by (symmetry; apply Z.eqb_neq; lia).
    replace (Z.of_nat (S k) - 1) with (Z.of_nat k) by lia.
    apply IH, nul_free_tail, Hs.
Qed.

Lemma lex_compare_range a : forall b,
  lex_compare a b = -1 \/ lex_compare a b = 0 \/ lex_compare a b = 1.
Proof.
  induction a as [|x a IH]; intros [|y b]; cbn [lex_compare]; auto.
  destruct (x >? y); auto. destruct (x <? y); auto.
Qed.

Lemma lex_compare_eq a : forall b, lex_compare a b = 0 <-> a = b.
Proof.
  induction a as [|x a IH]; intros [|y b]; cbn [lex_compare];
    try (split; [discriminate|discriminate]); [split; reflexivity|].
  rewrite Z.gtb_ltb.
  destruct (Z.ltb_spec y x) as [Hyx|Hyx];
    [split; [discriminate|intros E; injection E; lia]|].
  destruct (Z.ltb_spec x y) as [Hxy|Hxy];
    [split; [discriminate|intros E; injection E; lia]|].
  rewrite IH. assert (x = y) as -> by lia.
  split; [intros ->; reflexivity|intros E; injection E as ->; reflexivity].
Qed.

Lemma lex_compare_antisym a : forall b, lex_compare a b = - lex_compare b a.
Proof.
  induction a as [|x a IH]; intros [|y b]; cbn [lex_compare]; try reflexivity.
  rewrite !Z.gtb_ltb.
  destruct (Z.ltb_spec y x), (Z.ltb_spec x y); try reflexivity; try lia.
  apply IH.
Qed.

Lemma lex_compare_trans a : forall b c,
  lex_compare a b = -1 -> lex_compare b c = -1 -> lex_compare a c = -1.
Proof.
  induction a as [|x a IH]; intros [|y b] [|z c]; cbn [lex_compare];
    try discriminate; try reflexivity;
    try (intros _ E; discriminate E).
  rewrite !Z.gtb_ltb.
  destruct (Z.ltb_spec y x) as [Hyx|Hyx]; [discriminate|].
  destruct (Z.ltb_spec z y) as [Hzy|Hzy]; [intros _ E; discriminate E|].
  destruct (Z.ltb_spec x y) as [Hxy|Hxy], (Z.ltb_spec y z) as [Hyz|Hyz];
    intros H1 H2;
    (destruct (Z.ltb_spec z x) as [Hzx|Hzx]; [lia|]);
    (destruct (Z.ltb_spec x z) as [Hxz|Hxz]; [reflexivity|]);
    try lia.
  eapply IH; eassumption.
Qed.

(** X15.  [compare] against an argument that holds no terminator is the
    lexicographic three-way comparison of the two runs of code units:
    -1, 0 or 1, zero exactly when sizes and code units are equal, and a
    proper prefix compares less.  The view itself may hold terminators. *)
Theorem compare_is_lexicographic (mem : memory) (v : basic_char_view)
    (a_str : pointer) (a_len : Z) :
  0 <= a_len <= ssize_t_max -> nul_free mem a_str a_len ->
  compare_cn mem v a_str a_len
  = lex_compare (read mem (m_str v) (Z.to_nat (m_size v)))
                (read mem a_str (Z.to_nat a_len))
  /\ compare mem v {| m_str := a_str; m_size := a_len |}
     = compare_cn mem v a_str a_len
  /\ (compare_cn mem v a_str a_len = 0
      <-> read mem (m_str v) (Z.to_nat (m_size v))
          = read mem a_str (Z.to_nat a_len)).
Proof.
  intros Ha Hn.
  assert (Hc : compare_cn mem v a_str a_len
               = lex_compare (read mem (m_str v) (Z.to_nat (m_size v)))
                   (read mem a_str (Z.to_nat a_len))).
  { unfold compare_cn. rewrite to_ssize_t_small by lia.
    rewrite <- (Z2Nat.id a_len) at 1 by lia.
    apply compare_lex. rewrite Z2Nat.id by lia. exact Hn. }
  split; [exact Hc|]. split; [reflexivity|].
  rewrite Hc. apply lex_compare_eq.
Qed.

Lemma compare_is_lexicographic_witness :
  compare_cn mem_prefix view_Abcdefg addr_Abcd 4
  = lex_compare (read mem_prefix (m_str view_Abcdefg) (Z.to_nat (m_size view_Abcdefg)))
                (read mem_prefix addr_Abcd (Z.to_nat 4))
  /\ compare mem_prefix view_Abcdefg {| m_str := addr_Abcd; m_size := 4 |}
     = compare_cn mem_prefix view_Abcdefg addr_Abcd 4
  /\ (compare_cn mem_prefix view_Abcdefg addr_Abcd 4 = 0
      <-> read mem_prefix (m_str view_Abcdefg) (Z.to_nat (m_size view_Abcdefg))
          = read mem_prefix addr_Abcd (Z.to_nat 4)).
Proof.
  apply (compare_is_lexicographic mem_prefix view_Abcdefg addr_Abcd 4).
  - vm_compute. split; discriminate.
  - exact nul_free_Abcd.
Defined.

Lemma compare_view_lex mem (a b : basic_char_view) :
  0 <= m_size b <= ssize_t_max -> nul_free mem (m_str b) (m_size b) ->
  compare mem a b = lex_compare (to_std_string mem a) (to_std_string mem b).
Proof.
  intros Hb Hn. unfold compare, to_std_string.
  rewrite to_ssize_t_small by lia.
  rewrite <- (Z2Nat.id (m_size b)) at 1 by lia.
  apply compare_lex. rewrite Z2Nat.id by lia. exact Hn.
Qed.

Lemma op_eq_units mem (a b : basic_char_view) :
  0 <= m_size a <= ssize_t_max -> 0 <= m_size b <= ssize_t_max ->
  nul_free mem (m_str a) (m_size a) ->
  op_eq mem a b = true <-> to_std_string mem a = to_std_string mem b.
Proof.
  intros Ha Hb Hn. unfold op_eq, equals, to_std_string.
  rewrite (equals_cn_recursive_iff mem b (m_str a) (m_size a) Hb Hn). split.
  - intros [Hs Hr]. rewrite <- Hs, Hr. reflexivity.
  - intros Hr. assert (Hs : m_size a = m_size b).
    { apply (f_equal (@List.length charT)) in Hr. rewrite !read_length in Hr. lia. }
    split; [exact Hs|]. rewrite <- Hs in Hr. symmetry. exact Hr.
Qed.

(** X16.  On views that hold no terminator the six relational operators
    between two views are those of the lexicographic order of their code
    units: [<], [==] and [>] hold exactly when the three-way comparison is
    -1, 0 and 1, so exactly one of them holds; [<=], [>=] and [!=] are
    [< or ==], [> or ==] and [not ==]; and [<] is transitive. *)
Theorem relational_operators_order (mem : memory) (a b c : basic_char_view) :
  0 <= m_size a <= ssize_t_max -> 0 <= m_size b <= ssize_t_max ->
  0 <= m_size c <= ssize_t_max ->
  nul_free mem (m_str a) (m_size a) -> nul_free mem (m_str b) (m_size b) ->
  nul_free mem (m_str c) (m_size c) ->
  (op_lt mem a b = true
   <-> lex_compare (to_std_string mem a) (to_std_string mem b) = -1)
  /\ (op_eq mem a b = true
      <-> lex_compare (to_std_string mem a) (to_std_string mem b) = 0)
  /\ (op_gt mem a b = true
      <-> lex_compare (to_std_string mem a) (to_std_string mem b) = 1)
  /\ op_le mem a b = op_lt mem a b || op_eq mem a b
  /\ op_ge mem a b = op_gt mem a b || op_eq mem a b
  /\ op_ne mem a b = negb (op_eq mem a b)
  /\ (op_lt mem a b = true -> op_lt mem b c = true -> op_lt mem a c = true).
Proof.
  intros Ha Hb Hc Hna Hnb Hnc.
  assert (Hlt : forall x y, 0 <= m_size x <= ssize_t_max ->
                  nul_free mem (m_str x) (m_size x) ->
                  (op_lt mem x y = true
                   <-> lex_compare (to_std_string mem x) (to_std_string mem y) = -1)).
  { intros x y Hx Hnx. unfold op_lt.
    rewrite (compare_view_lex mem y x Hx Hnx), Z.gtb_ltb, Z.ltb_lt.
    rewrite (lex_compare_antisym (to_std_string mem x)).
    destruct (lex_compare_range (to_std_string mem y) (to_std_string mem x))
      as [H|[H|H]]; rewrite H; lia. }
  assert (Heq : op_eq mem a b = true
                <-> lex_compare (to_std_string mem a) (to_std_string mem b) = 0).
  { rewrite lex_compare_eq. apply op_eq_units; assumption. }
  assert (Hcmp : compare mem b a
                 = - lex_compare (to_std_string mem a) (to_std_string mem b)).
  { rewrite (compare_view_lex mem b a Ha Hna). apply lex_compare_antisym. }
  assert (Heqb : op_eq mem a b = (compare mem b a =? 0)).
  { destruct (op_eq mem a b) eqn:E.
    - rewrite Hcmp, (proj1 Heq eq_refl). reflexivity.
    - symmetry. apply Z.eqb_neq. intros H0.
      assert (E0 : lex_compare (to_std_string mem a) (to_std_string mem b) = 0) by lia.
      apply Heq in E0. discriminate E0. }
  pose proof (lex_compare_range (to_std_string mem a) (to_std_string mem b)) as Hr.
  split; [apply Hlt; assumption|]. split; [exact Heq|]. split.
  { unfold op_gt. rewrite Hcmp, Z.ltb_lt. lia. }
  split.
  { rewrite Heqb. unfold op_le, op_lt. rewrite Z.geb_leb, Z.gtb_ltb.
    destruct (Z.leb_spec 0 (compare mem b a)), (Z.ltb_spec 0 (compare mem b a)),
      (Z.eqb_spec (compare mem b a) 0); try reflexivity; lia. }
  split.
  { rewrite Heqb. unfold op_ge, op_gt.
    destruct (Z.leb_spec (compare mem b a) 0), (Z.ltb_spec (compare mem b a) 0),
      (Z.eqb_spec (compare mem b a) 0); try reflexivity; lia. }
  split.
  { rewrite Heqb. reflexivity. }
  intros H1 H2. apply Hlt in H1; [|assumption..]. apply Hlt in H2; [|assumption..].
  apply Hlt; [assumption..|]. eapply lex_compare_trans; eassumption.
Qed.

Lemma nul_free_abc (p n : Z) : 0 <= p -> p + n <= 3 -> nul_free mem_abc p n.
Proof.
  intros Hp Hn i Hi.
  assert (Hc : p + i = 0 \/ p + i = 1 \/ p + i = 2) by lia.
  destruct Hc as [-> | [-> | ->]]; vm_compute; discriminate.
Defined.

Lemma relational_operators_order_witness :
  (op_lt mem_abc view_abc view_bc = true
   <-> lex_compare (to_std_string mem_abc view_abc) (to_std_string mem_abc view_bc) = -1)
  /\ (op_eq mem_abc view_abc view_bc = true
      <-> lex_compare (to_std_string mem_abc view_abc) (to_std_string mem_abc view_bc) = 0)
  /\ (op_gt mem_abc view_abc view_bc = true
      <-> lex_compare (to_std_string mem_abc view_abc) (to_std_string mem_abc view_bc) = 1)
  /\ op_le mem_abc view_abc view_bc
     = op_lt mem_abc view_abc view_bc || op_eq mem_abc view_abc view_bc
  /\ op_ge mem_abc view_abc view_bc
     = op_gt mem_abc view_abc view_bc || op_eq mem_abc view_abc view_bc
  /\ op_ne mem_abc view_abc view_bc = negb (op_eq mem_abc view_abc view_bc)
  /\ (op_lt mem_abc view_abc view_bc = true ->
      op_lt mem_abc view_bc {| m_str := 2; m_size := 1 |} = true ->
      op_lt mem_abc view_abc {| m_str := 2; m_size := 1 |} = true).
Proof.
  apply (relational_operators_order mem_abc view_abc view_bc
           {| m_str := 2; m_size := 1 |});
    try (vm_compute; split; discriminate);
    apply nul_free_abc; vm_compute; discriminate.
Defined.

(** ** [contains], [find] and [rfind] *)

Section Occurrences.

Variable mem : memory.
Variable search_text : pointer.
Variable k : nat.

Hypothesis needle_small : Z.of_nat k <= ssize_t_max.
Hypothesis needle_nul_free : nul_free mem search_text (Z.of_nat k).

Let matches (content : pointer) : Prop :=
  read mem content k = read mem search_text k.

Lemma compare_test content :
  (details.compare mem content search_text k (ssize_of k) =? 0) = true
  <-> matches content.
Proof.
  rewrite ssize_of_small by exact needle_small.
  rewrite compare_lex by exact needle_nul_free.
  rewrite Z.eqb_eq. apply lex_compare_eq.
Qed.

Lemma starts_with_test content :
  details.starts_with mem content search_text k (ssize_of k) = true
  <-> matches content.
Proof.
  rewrite ssize_of_small by exact needle_small.
  rewrite starts_with_counted by exact needle_nul_free.
  rewrite Nat.leb_refl. cbn [andb]. apply string_eq_iff.
Qed.

Lemma contains_occurs : forall content_limit content,
  details.contains mem content search_text content_limit k = true
  <-> exists i : nat, (i + k <= content_limit)%nat
                      /\ matches (content + Z.of_nat i).
Proof.
  induction content_limit as [|cl IH]; intros c; cbn [details.contains].
  - destruct (Nat.ltb_spec 0 k) as [H|H].
    + split; [discriminate|]. intros (i & Hi & _). lia.
    + assert (k = 0%nat) as E by lia. rewrite E. cbn [Nat.eqb].
      split; [|reflexivity]. intros _. exists 0%nat. split; [lia|].
      unfold matches. rewrite E. reflexivity.
  - destruct (Nat.ltb_spec (S cl) k) as [H|H].
    + split; [discriminate|]. intros (i & Hi & _). lia.
    + destruct (details.compare mem c search_text k (ssize_of k) =? 0) eqn:E.
      * split; [|reflexivity]. intros _. exists 0%nat. split; [lia|].
        cbn [Z.of_nat]. rewrite Z.add_0_r. apply compare_test, E.
      * rewrite IH. split.
        -- intros (i & Hi & Hm). exists (S i). split; [lia|].
           replace (c + Z.of_nat (S i)) with (c + 1 + Z.of_nat i) by lia. exact Hm.
        -- intros (i & Hi & Hm). destruct i as [|i].
           ++ cbn [Z.of_nat] in Hm. rewrite Z.add_0_r in Hm.
              apply compare_test in Hm. rewrite Hm in E. discriminate.
           ++ exists i. split; [lia|].
              replace (c + 1 + Z.of_nat i) with (c + Z.of_nat (S i)) by lia. exact Hm.
Qed.

Lemma index_of_leftmost : forall content_limit content offset,
  0 <= offset -> offset + Z.of_nat content_limit <= ssize_t_max ->
  let r := details.index_of mem content search_text content_limit k offset in
  (r = -1
   /\ forall i : nat, (i + k <= content_limit)%nat ->
                      ~ matches (content + Z.of_nat i))
  \/ (exists i : nat,
        r = offset + Z.of_nat i /\ (i + k <= content_limit)%nat
        /\ matches (content + Z.of_nat i)
        /\ forall j : nat, (j < i)%nat -> ~ matches (content + Z.of_nat j)).
Proof.
  induction content_limit as [|cl IH]; intros c offset Ho Hmax;
    cbn [details.index_of]; cbv zeta.
  - destruct (Nat.ltb_spec 0 k) as [H|H].
    + left. split; [reflexivity|]. intros i Hi. lia.
    + assert (k = 0%nat) as E by lia. rewrite E. cbn [Nat.eqb].
      right. exists 0%nat.
      rewrite to_ssize_t_small by (unfold ssize_t_max in *; lia).
      split; [lia|]. split; [lia|]. split; [|intros j Hj; lia].
      unfold matches. rewrite E. reflexivity.
  - destruct (Nat.ltb_spec (S cl) k) as [H|H].
    + left. split; [reflexivity|]. intros i Hi. lia.
    + destruct (details.starts_with mem c search_text k (ssize_of k)) eqn:E.
      * right. exists 0%nat.
        rewrite to_ssize_t_small by (unfold ssize_t_max in *; lia).
        split; [lia|]. split; [lia|]. split; [|intros j Hj; lia].
        cbn [Z.of_nat]. rewrite Z.add_0_r. apply starts_with_test, E.
      * assert (Hno : ~ matches c).
        { intros Hm. apply starts_with_test in Hm. rewrite Hm in E. discriminate. }
        rewrite (to_size_t_small (offset + 1))
          by (unfold size_t_max, size_t_modulus, ssize_t_max in *; lia).
        destruct (IH (c + 1) (offset + 1) ltac:(lia) ltac:(lia))
          as [[Hr Hnone]|(i & Hr & Hi & Hm & Hbefore)].
        -- left. split; [exact Hr|]. intros i Hi. destruct i as [|i].
           ++ cbn [Z.of_nat]. rewrite Z.add_0_r. exact Hno.
           ++ replace (c + Z.of_nat (S i)) with (c + 1 + Z.of_nat i) by lia.
              apply Hnone. lia.
        -- right. exists (S i). split; [lia|]. split; [lia|]. split.
           ++ replace (c + Z.of_nat (S i)) with (c + 1 + Z.of_nat i) by lia. exact Hm.
           ++ intros j Hj. destruct j as [|j].
              ** cbn [Z.of_nat]. rewrite Z.add_0_r. exact Hno.
              ** replace (c + Z.of_nat (S j)) with (c + 1 + Z.of_nat j) by lia.
                 apply Hbefore. lia.
Qed.

Lemma last_index_of_rightmost : forall content_limit content offset found_pos,
  0 <= offset -> offset + Z.of_nat content_limit <= ssize_t_max ->
  let r := details.last_index_of mem content search_text content_limit k
             offset found_pos in
  (r = found_pos
   /\ forall i : nat, (i + k <= content_limit)%nat ->
                      ~ matches (content + Z.of_nat i))
  \/ (exists i : nat,
        r = offset + Z.of_nat i /\ (i + k <= content_limit)%nat
        /\ matches (content + Z.of_nat i)
        /\ forall j : nat, (i < j)%nat -> (j + k <= content_limit)%nat ->
                           ~ matches (content + Z.of_nat j)).
Proof.
  induction content_limit as [|cl IH]; intros c offset fp Ho Hmax;
    cbn [details.last_index_of]; cbv zeta.
  - destruct (Nat.ltb_spec 0 k) as [H|H].
    + left. split; [reflexivity|]. intros i Hi. lia.
    + assert (k = 0%nat) as E by lia. rewrite E. cbn [Nat.eqb].
      right. exists 0%nat.
      rewrite to_ssize_t_small by (unfold ssize_t_max in *; lia).
      split; [lia|]. split; [lia|]. split; [|intros j Hj Hjk; lia].
      unfold matches. rewrite E. reflexivity.
  - destruct (Nat.ltb_spec (S cl) k) as [H|H].
    + left. split; [reflexivity|]. intros i Hi. lia.
    + rewrite (to_size_t_small (offset + 1))
        by (unfold size_t_max, size_t_modulus, ssize_t_max in *; lia).
      destruct (details.compare mem c search_text k (ssize_of k) =? 0) eqn:E.
      * rewrite to_ssize_t_small by (unfold ssize_t_max in *; lia).
        assert (Hm0 : matches c) by (apply compare_test, E).
        destruct (IH (c + 1) (offset + 1) offset ltac:(lia) ltac:(lia))
          as [[Hr Hnone]|(i & Hr & Hi & Hm & Hafter)].
        -- right. exists 0%nat. split; [lia|]. split; [lia|]. split.
           ++ cbn [Z.of_nat]. rewrite Z.add_0_r. exact Hm0.
           ++ intros j Hj Hjk. destruct j as [|j]; [lia|].
              replace (c + Z.of_nat (S j)) with (c + 1 + Z.of_nat j) by lia.
              apply Hnone. lia.
        -- right. exists (S i). split; [lia|]. split; [lia|]. split.
           ++ replace (c + Z.of_nat (S i)) with (c + 1 + Z.of_nat i) by lia. exact Hm.
           ++ intros j Hj Hjk. destruct j as [|j]; [lia|].
              replace (c + Z.of_nat (S j)) with (c + 1 + Z.of_nat j) by lia.
              apply Hafter; lia.
      * assert (Hno : ~ matches c).
        { intros Hm. apply compare_test in Hm. rewrite Hm in E. discriminate. }
        destruct (IH (c + 1) (offset + 1) fp ltac:(lia) ltac:(lia))
          as [[Hr Hnone]|(i & Hr & Hi & Hm & Hafter)].
        -- left. split; [exact Hr|]. intros i Hi. destruct i as [|i].
           ++ cbn [Z.of_nat]. rewrite Z.add_0_r. exact Hno.
           ++ replace (c + Z.of_nat (S i)) with (c + 1 + Z.of_nat i) by lia.
              apply Hnone. lia.
        -- right. exists (S i). split; [lia|]. split; [lia|]. split.
           ++ replace (c + Z.of_nat (S i)) with (c + 1 + Z.of_nat i) by lia. exact Hm.
           ++ intros j Hj Hjk. destruct j as [|j]; [lia|].
              replace (c + Z.of_nat (S j)) with (c + 1 + Z.of_nat j) by lia.
              apply Hafter; lia.
Qed.

End Occurrences.

Lemma occurs_at_nat mem (v : basic_char_view) a_str a_len (i : nat) :
  0 <= m_size v -> 0 <= a_len ->
  ((i + Z.to_nat a_len <= Z.to_nat (m_size v))%nat
   /\ read mem (m_str v + Z.of_nat i) (Z.to_nat a_len)
      = read mem a_str (Z.to_nat a_len))
  <-> occurs_at mem v a_str a_len (Z.of_nat i).
Proof.
  intros Hv Ha. unfold occurs_at. split.
  - intros [H1 H2]. split; [lia|]. split; [lia|exact H2].
  - intros (H0 & H1 & H2). split; [lia|exact H2].
Qed.

(** X17.  [contains] under the recursive policy, for a needle that holds
    no terminator: it is true exactly when the needle occurs in the view,
    that is when some offset [i] leaves room for the needle and the code
    units of the view from [i] on are those of the needle. *)
Theorem contains_is_occurrence (mem : memory) (v : basic_char_view)
    (a_str : pointer) (a_len : Z) :
  0 <= m_size v -> 0 <= a_len <= ssize_t_max ->
  nul_free mem a_str a_len ->
  (contains_cn mem v a_str a_len = true
   <-> exists i, occurs_at mem v a_str a_len i)
  /\ contains mem v {| m_str := a_str; m_size := a_len |}
     = contains_cn mem v a_str a_len.
Proof.
  intros Hv Ha Hn. split; [|reflexivity].
  unfold contains_cn.
  rewrite contains_occurs by (rewrite Z2Nat.id by lia; (lia || exact Hn)).
  split.
  - intros (i & Hi & Hm). exists (Z.of_nat i).
    apply occurs_at_nat; [lia|lia|]. split; assumption.
  - intros (i & Hocc). exists (Z.to_nat i).
    assert (Hi : 0 <= i) by apply Hocc.
    rewrite <- (Z2Nat.id i Hi) in Hocc.
    apply occurs_at_nat in Hocc; [exact Hocc|lia|lia].
Qed.

Lemma contains_is_occurrence_witness :
  (contains_cn mem_abc view_abc 1 2 = true
   <-> exists i, occurs_at mem_abc view_abc 1 2 i)
  /\ contains mem_abc view_abc {| m_str := 1; m_size := 2 |}
     = contains_cn mem_abc view_abc 1 2.
Proof.
  apply (contains_is_occurrence mem_abc view_abc 1 2).
  - vm_compute. discriminate.
  - vm_compute. split; discriminate.
  - apply nul_free_abc; vm_compute; discriminate.
Defined.

(** X18.  [find] under the recursive policy, for a needle that holds no
    terminator: it returns [npos] when the needle does not occur in the
    view, and otherwise the leftmost offset at which it occurs. *)
Theorem find_is_leftmost_occurrence (mem : memory) (v : basic_char_view)
    (a_str : pointer) (a_len : Z) :
  0 <= m_size v <= ssize_t_max -> 0 <= a_len <= ssize_t_max ->
  nul_free mem a_str a_len ->
  ((find_cn mem v a_str a_len = npos
    /\ forall i, ~ occurs_at mem v a_str a_len i)
   \/ (occurs_at mem v a_str a_len (find_cn mem v a_str a_len)
       /\ forall j, occurs_at mem v a_str a_len j -> find_cn mem v a_str a_len <= j))
  /\ find mem v {| m_str := a_str; m_size := a_len |} = find_cn mem v a_str a_len.
Proof.
  intros Hv Ha Hn. split; [|reflexivity].
  unfold find_cn.
  destruct (index_of_leftmost mem a_str (Z.to_nat a_len)
              ltac:(lia) ltac:(rewrite Z2Nat.id by lia; exact Hn)
              (Z.to_nat (m_size v)) (m_str v) 0 ltac:(lia) ltac:(lia))
    as [[Hr Hnone]|(i & Hr & Hi & Hm & Hbefore)]; rewrite Hr.
  - left. split; [reflexivity|]. intros i Hocc.
    assert (Hi : 0 <= i) by apply Hocc.
    rewrite <- (Z2Nat.id i Hi) in Hocc.
    apply occurs_at_nat in Hocc; [|lia|lia].
    destruct Hocc as [H1 H2]. exact (Hnone (Z.to_nat i) H1 H2).
  - right. rewrite Z.add_0_l.
    rewrite to_size_t_small
      by (unfold size_t_max, size_t_modulus, ssize_t_max in *; lia).
    split; [apply occurs_at_nat; [lia|lia|split; assumption]|].
    intros j Hocc.
    assert (Hj : 0 <= j) by apply Hocc.
    destruct (Z.le_gt_cases (Z.of_nat i) j) as [Hle|Hgt]; [exact Hle|exfalso].
    rewrite <- (Z2Nat.id j Hj) in Hocc.
    apply occurs_at_nat in Hocc; [|lia|lia].
    apply (Hbefore (Z.to_nat j)); [lia|apply Hocc].
Qed.

Lemma find_is_leftmost_occurrence_witness :
  ((find_cn mem_abc view_abc 1 2 = npos
    /\ forall i, ~ occurs_at mem_abc view_abc 1 2 i)
   \/ (occurs_at mem_abc view_abc 1 2 (find_cn mem_abc view_abc 1 2)
       /\ forall j, occurs_at mem_abc view_abc 1 2 j
                    -> find_cn mem_abc view_abc 1 2 <= j))
  /\ find mem_abc view_abc {| m_str := 1; m_size := 2 |}
     = find_cn mem_abc view_abc 1 2.
Proof.
  apply (find_is_leftmost_occurrence mem_abc view_abc 1 2).
  - vm_compute. split; discriminate.
  - vm_compute. split; discriminate.
  - apply nul_free_abc; vm_compute; discriminate.
Defined.

(** X19.  [rfind] under the recursive policy, for a needle that holds no
    terminator: it returns [npos] when the needle does not occur in the
    view, and otherwise the rightmost offset at which it occurs (the size
    of the view for the empty needle). *)
Theorem rfind_is_rightmost_occurrence (mem : memory) (v : basic_char_view)
    (a_str : pointer) (a_len : Z) :
  0 <= m_size v <= ssize_t_max -> 0 <= a_len <= ssize_t_max ->
  nul_free mem a_str a_len ->
  ((rfind_cn mem v a_str a_len = npos
    /\ forall i, ~ occurs_at mem v a_str a_len i)
   \/ (occurs_at mem v a_str a_len (rfind_cn mem v a_str a_len)
       /\ forall j, occurs_at mem v a_str a_len j -> j <= rfind_cn mem v a_str a_len))
  /\ rfind mem v {| m_str := a_str; m_size := a_len |} = rfind_cn mem v a_str a_len.
Proof.
  intros Hv Ha Hn. split; [|reflexivity].
  unfold rfind_cn.
  destruct (last_index_of_rightmost mem a_str (Z.to_nat a_len)
              ltac:(lia) ltac:(rewrite Z2Nat.id by lia; exact Hn)
              (Z.to_nat (m_size v)) (m_str v) 0 (-1) ltac:(lia) ltac:(lia))
    as [[Hr Hnone]|(i & Hr & Hi & Hm & Hafter)]; rewrite Hr.
  - left. split; [reflexivity|]. intros i Hocc.
    assert (Hi : 0 <= i) by apply Hocc.
    rewrite <- (Z2Nat.id i Hi) in Hocc.
    apply occurs_at_nat in Hocc; [|lia|lia].
    destruct Hocc as [H1 H2]. exact (Hnone (Z.to_nat i) H1 H2).
  - right. rewrite Z.add_0_l.
    rewrite to_size_t_small
      by (unfold size_t_max, size_t_modulus, ssize_t_max in *; lia).
    split; [apply occurs_at_nat; [lia|lia|split; assumption]|].
    intros j Hocc.
    assert (Hj : 0 <= j) by apply Hocc.
    destruct (Z.le_gt_cases j (Z.of_nat i)) as [Hle|Hgt]; [exact Hle|exfalso].
    rewrite <- (Z2Nat.id j Hj) in Hocc.
    apply occurs_at_nat in Hocc; [|lia|lia].
    apply (Hafter (Z.to_nat j)); [lia|apply Hocc|apply Hocc].
Qed.

Lemma rfind_is_rightmost_occurrence_witness :
  ((rfind_cn mem_abc view_abc 1 2 = npos
    /\ forall i, ~ occurs_at mem_abc view_abc 1 2 i)
   \/ (occurs_at mem_abc view_abc 1 2 (rfind_cn mem_abc view_abc 1 2)
       /\ forall j, occurs_at mem_abc view_abc 1 2 j
                    -> j <= rfind_cn mem_abc view_abc 1 2))
  /\ rfind mem_abc view_abc {| m_str := 1; m_size := 2 |}
     = rfind_cn mem_abc view_abc 1 2.
Proof.
  apply (rfind_is_rightmost_occurrence mem_abc view_abc 1 2).
  - vm_compute. split; discriminate.
  - vm_compute. split; discriminate.
  - apply nul_free_abc; vm_compute; discriminate.
Defined.

(** ** The character-set scans *)

Section SetScans.

Variable mem : memory.
Variable search_set : pointer.
Variable search_limit : nat.

Hypothesis set_small : Z.of_nat search_limit <= ssize_t_max.

Let inset (content : pointer) : Prop :=
  In (mem content) (read mem search_set search_limit).

Lemma not_in_set_test content :
  mem content <> 0 ->
  (details.index_of mem search_set content search_limit 1 0 <? 0) = true
  <-> ~ inset content.
Proof.
  intros Hc.
  rewrite (index_of_set_member mem content search_limit search_set 0) by (lia || exact Hc).
  rewrite negb_true_iff, <- not_true_iff_false, is_whitespace_In. reflexivity.
Qed.

Lemma in_set_test content :
  mem content <> 0 ->
  (details.index_of mem search_set content search_limit 1 0 >=? 0) = true
  <-> inset content.
Proof.
  intros Hc. rewrite Z.geb_leb, Z.leb_antisym.
  rewrite (index_of_set_member mem content search_limit search_set 0) by (lia || exact Hc).
  rewrite negb_involutive. apply is_whitespace_In.
Qed.

Lemma index_of_any_leftmost : forall content_limit content offset,
  nul_free mem content (Z.of_nat content_limit) ->
  0 <= offset -> offset + Z.of_nat content_limit <= ssize_t_max ->
  let r := details.index_of_any mem content search_set content_limit
             search_limit offset in
  (r = -1
   /\ forall i : nat, (i < content_limit)%nat -> ~ inset (content + Z.of_nat i))
  \/ (exists i : nat,
        r = offset + Z.of_nat i /\ (i < content_limit)%nat
        /\ inset (content + Z.of_nat i)
        /\ forall j : nat, (j < i)%nat -> ~ inset (content + Z.of_nat j)).
Proof.
  induction content_limit as [|cl IH]; intros c offset Hn Ho Hmax;
    cbn [details.index_of_any]; cbv zeta.
  - left. split; [reflexivity|]. intros i Hi. lia.
  - destruct (search_limit =? 0)%nat eqn:Esl.
    { left. split; [reflexivity|]. intros i _.
      apply Nat.eqb_eq in Esl. unfold inset. rewrite Esl. intros []. }
    assert (Hc : mem c <> 0)
      by (apply (nul_free_head mem c (Z.of_nat (S cl))); [lia|exact Hn]).
    destruct (details.index_of mem search_set c search_limit 1 0 >=? 0) eqn:E.
    + right. exists 0%nat.
      rewrite to_ssize_t_small by (unfold ssize_t_max in *; lia).
      split; [lia|]. split; [lia|]. split; [|intros j Hj; lia].
      cbn [Z.of_nat]. rewrite Z.add_0_r. apply in_set_test; assumption.
    + assert (Hno : ~ inset c).
      { intros Hm. apply (in_set_test c Hc) in Hm. rewrite Hm in E. discriminate. }
      rewrite (to_size_t_small (offset + 1))
        by (unfold size_t_max, size_t_modulus, ssize_t_max in *; lia).
      destruct (IH (c + 1) (offset + 1) (nul_free_tail mem c cl Hn)
                  ltac:(lia) ltac:(lia))
        as [[Hr Hnone]|(i & Hr & Hi & Hm & Hbefore)].
      * left. split; [exact Hr|]. intros i Hi. destruct i as [|i].
        -- cbn [Z.of_nat]. rewrite Z.add_0_r. exact Hno.
        -- replace (c + Z.of_nat (S i)) with (c + 1 + Z.of_nat i) by lia.
           apply Hnone. lia.
      * right. exists (S i). split; [lia|]. split; [lia|]. split.
        -- replace (c + Z.of_nat (S i)) with (c + 1 + Z.of_nat i) by lia. exact Hm.
        -- intros j Hj. destruct j as [|j].
           ++ cbn [Z.of_nat]. rewrite Z.add_0_r. exact Hno.
           ++ replace (c + Z.of_nat (S j)) with (c + 1 + Z.of_nat j) by lia.
              apply Hbefore. lia.
Qed.

Lemma index_of_nonmatching_leftmost : forall content_limit content offset,
  (0 < search_limit)%nat ->
  nul_free mem content (Z.of_nat content_limit) ->
  0 <= offset -> offset + Z.of_nat content_limit <= ssize_t_max ->
  let r := details.index_of_nonmatching mem content search_set content_limit
             search_limit offset in
  (r = -1
   /\ forall i : nat, (i < content_limit)%nat -> inset (content + Z.of_nat i))
  \/ (exists i : nat,
        r = offset + Z.of_nat i /\ (i < content_limit)%nat
        /\ ~ inset (content + Z.of_nat i)
        /\ forall j : nat, (j < i)%nat -> inset (content + Z.of_nat j)).
Proof.
  induction content_limit as [|cl IH]; intros c offset Hsl Hn Ho Hmax;
    cbn [details.index_of_nonmatching]; cbv zeta.
  - replace (search_limit =? 0)%nat with false by (symmetry; apply Nat.eqb_neq; lia).
    left. split; [reflexivity|]. intros i Hi. lia.
  - assert (Hc : mem c <> 0)
      by (apply (nul_free_head mem c (Z.of_nat (S cl))); [lia|exact Hn]).
    destruct (details.index_of mem search_set c search_limit 1 0 <? 0) eqn:E.
    + right. exists 0%nat.
      rewrite to_ssize_t_small by (unfold ssize_t_max in *; lia).
      split; [lia|]. split; [lia|]. split; [|intros j Hj; lia].
      cbn [Z.of_nat]. rewrite Z.add_0_r. apply not_in_set_test; assumption.
    + assert (Hin : inset c).
      { destruct (details.index_of mem search_set c search_limit 1 0 >=? 0) eqn:E2.
        - apply in_set_test; assumption.
        - rewrite Z.geb_leb, Z.leb_antisym, E in E2. discriminate. }
      rewrite (to_size_t_small (offset + 1))
        by (unfold size_t_max, size_t_modulus, ssize_t_max in *; lia).
      destruct (IH (c + 1) (offset + 1) Hsl (nul_free_tail mem c cl Hn)
                  ltac:(lia) ltac:(lia))
        as [[Hr Hall]|(i & Hr & Hi & Hm & Hbefore)].
      * left. split; [exact Hr|]. intros i Hi. destruct i as [|i].
        -- cbn [Z.of_nat]. rewrite Z.add_0_r. exact Hin.
        -- replace (c + Z.of_nat (S i)) with (c + 1 + Z.of_nat i) by lia.
           apply Hall. lia.
      * right. exists (S i). split; [lia|]. split; [lia|]. split.
        -- replace (c + Z.of_nat (S i)) with (c + 1 + Z.of_nat i) by lia. exact Hm.
        -- intros j Hj. destruct j as [|j].
           ++ cbn [Z.of_nat]. rewrite Z.add_0_r. exact Hin.
           ++ replace (c + Z.of_nat (S j)) with (c + 1 + Z.of_nat j) by lia.
              apply Hbefore. lia.
Qed.

Lemma last_index_of_any_rightmost : forall content_limit content offset found_pos,
  (0 < search_limit)%nat ->
  nul_free mem content (Z.of_nat content_limit) ->
  0 <= offset -> offset + Z.of_nat content_limit <= ssize_t_max ->
  let r := details.last_index_of_any mem content search_set content_limit
             search_limit offset found_pos in
  (r = found_pos
   /\ forall i : nat, (i < content_limit)%nat -> ~ inset (content + Z.of_nat i))
  \/ (exists i : nat,
        r = offset + Z.of_nat i /\ (i < content_limit)%nat
        /\ inset (content + Z.of_nat i)
        /\ forall j : nat, (i < j)%nat -> (j < content_limit)%nat ->
                           ~ inset (content + Z.of_nat j)).
Proof.
  induction content_limit as [|cl IH]; intros c offset fp Hsl Hn Ho Hmax;
    cbn [details.last_index_of_any]; cbv zeta.
  - replace (search_limit =? 0)%nat with false by (symmetry; apply Nat.eqb_neq; lia).
    left. split; [reflexivity|]. intros i Hi. lia.
  - assert (Hc : mem c <> 0)
      by (apply (nul_free_head mem c (Z.of_nat (S cl))); [lia|exact Hn]).
    rewrite (to_size_t_small (offset + 1))
      by (unfold size_t_max, size_t_modulus, ssize_t_max in *; lia).
    destruct (details.index_of mem search_set c search_limit 1 0 >=? 0) eqn:E.
    + rewrite to_ssize_t_small by (unfold ssize_t_max in *; lia).
      assert (Hin : inset c) by (apply in_set_test; assumption).
      destruct (IH (c + 1) (offset + 1) offset Hsl (nul_free_tail mem c cl Hn)
                  ltac:(lia) ltac:(lia))
        as [[Hr Hnone]|(i & Hr & Hi & Hm & Hafter)].
      * right. exists 0%nat. split; [lia|]. split; [lia|]. split.
        -- cbn [Z.of_nat]. rewrite Z.add_0_r. exact Hin.
        -- intros j Hj Hjc. destruct j as [|j]; [lia|].
           replace (c + Z.of_nat (S j)) with (c + 1 + Z.of_nat j) by lia.
           apply Hnone. lia.
      * right. exists (S i). split; [lia|]. split; [lia|]. split.
        -- replace (c + Z.of_nat (S i)) with (c + 1 + Z.of_nat i) by lia. exact Hm.
        -- intros j Hj Hjc. destruct j as [|j]; [lia|].
           replace (c + Z.of_nat (S j)) with (c + 1 + Z.of_nat j) by lia.
           apply Hafter; lia.
    + assert (Hno : ~ inset c).
      { intros Hm. apply (in_set_test c Hc) in Hm. rewrite Hm in E. discriminate. }
      destruct (IH (c + 1) (offset + 1) fp Hsl (nul_free_tail mem c cl Hn)
                  ltac:(lia) ltac:(lia))
        as [[Hr Hnone]|(i & Hr & Hi & Hm & Hafter)].
      * left. split; [exact Hr|]. intros i Hi. destruct i as [|i].
        -- cbn [Z.of_nat]. rewrite Z.add_0_r. exact Hno.
        -- replace (c + Z.of_nat (S i)) with (c + 1 + Z.of_nat i) by lia.
           apply Hnone. lia.
      * right. exists (S i). split; [lia|]. split; [lia|]. split.
        -- replace (c + Z.of_nat (S i)) with (c + 1 + Z.of_nat i) by lia. exact Hm.
        -- intros j Hj Hjc. destruct j as [|j]; [lia|].
           replace (c + Z.of_nat (S j)) with (c + 1 + Z.of_nat j) by lia.
           apply Hafter; lia.
Qed.

Lemma last_index_of_nonmatching_rightmost :
  forall content_limit content offset found_pos,
  (0 < search_limit)%nat ->
  nul_free mem content (Z.of_nat content_limit) ->
  0 <= offset -> offset + Z.of_nat content_limit <= ssize_t_max ->
  let r := details.last_index_of_nonmatching mem content search_set content_limit
             search_limit offset found_pos in
  (r = found_pos
   /\ forall i : nat, (i < content_limit)%nat -> inset (content + Z.of_nat i))
  \/ (exists i : nat,
        r = offset + Z.of_nat i /\ (i < content_limit)%nat
        /\ ~ inset (content + Z.of_nat i)
        /\ forall j : nat, (i < j)%nat -> (j < content_limit)%nat ->
                           inset (content + Z.of_nat j)).
Proof.
  induction content_limit as [|cl IH]; intros c offset fp Hsl Hn Ho Hmax;
    cbn [details.last_index_of_nonmatching]; cbv zeta.
  - replace (search_limit =? 0)%nat with false by (symmetry; apply Nat.eqb_neq; lia).
    left. split; [reflexivity|]. intros i Hi. lia.
  - assert (Hc : mem c <> 0)
      by (apply (nul_free_head mem c (Z.of_nat (S cl))); [lia|exact Hn]).
    rewrite (to_size_t_small (offset + 1))
      by (unfold size_t_max, size_t_modulus, ssize_t_max in *; lia).
    destruct (details.index_of mem search_set c search_limit 1 0 <? 0) eqn:E.
    + rewrite to_ssize_t_small by (unfold ssize_t_max in *; lia).
      assert (Hno : ~ inset c) by (apply not_in_set_test; assumption).
      destruct (IH (c + 1) (offset + 1) offset Hsl (nul_free_tail mem c cl Hn)
                  ltac:(lia) ltac:(lia))
        as [[Hr Hall]|(i & Hr & Hi & Hm & Hafter)].
      * right. exists 0%nat. split; [lia|]. split; [lia|]. split.
        -- cbn [Z.of_nat]. rewrite Z.add_0_r. exact Hno.
        -- intros j Hj Hjc. destruct j as [|j]; [lia|].
           replace (c + Z.of_nat (S j)) with (c + 1 + Z.of_nat j) by lia.
           apply Hall. lia.
      * right. exists (S i). split; [lia|]. split; [lia|]. split.
        -- replace (c + Z.of_nat (S i)) with (c + 1 + Z.of_nat i) by lia. exact Hm.
        -- intros j Hj Hjc. destruct j as [|j]; [lia|].
           replace (c + Z.of_nat (S j)) with (c + 1 + Z.of_nat j) by lia.
           apply Hafter; lia.
    + assert (Hin : inset c).
      { destruct (details.index_of mem search_set c search_limit 1 0 >=? 0) eqn:E2.
        - apply in_set_test; assumption.
        - rewrite Z.geb_leb, Z.leb_antisym, E in E2. discriminate. }
      destruct (IH (c + 1) (offset + 1) fp Hsl (nul_free_tail mem c cl Hn)
                  ltac:(lia) ltac:(lia))
        as [[Hr Hall]|(i & Hr & Hi & Hm & Hafter)].
      * left. split; [exact Hr|]. intros i Hi. destruct i as [|i].
        -- cbn [Z.of_nat]. rewrite Z.add_0_r. exact Hin.
        -- replace (c + Z.of_nat (S i)) with (c + 1 + Z.of_nat i) by lia.
           apply Hall. lia.
      * right. exists (S i). split; [lia|]. split; [lia|]. split.
        -- replace (c + Z.of_nat (S i)) with (c + 1 + Z.of_nat i) by lia. exact Hm.
        -- intros j Hj Hjc. destruct j as [|j]; [lia|].
           replace (c + Z.of_nat (S j)) with (c + 1 + Z.of_nat j) by lia.
           apply Hafter; lia.
Qed.

End SetScans.


(** X20.  [find_first_of] on a view that holds no terminator: it returns
    [npos] when no code unit of the view is in the set, and otherwise the
    offset of the leftmost code unit that is. *)
Theorem find_first_of_is_leftmost_member (mem : memory) (v : basic_char_view)
    (a_str : pointer) (a_len : Z) :
  0 <= m_size v <= ssize_t_max -> 0 <= a_len <= ssize_t_max ->
  nul_free mem (m_str v) (m_size v) ->
  ((find_first_of_cn mem v a_str a_len = npos
    /\ forall i, 0 <= i < m_size v -> ~ member_at mem v a_str a_len i)
   \/ (0 <= find_first_of_cn mem v a_str a_len < m_size v
       /\ member_at mem v a_str a_len (find_first_of_cn mem v a_str a_len)
       /\ forall j, 0 <= j < find_first_of_cn mem v a_str a_len ->
                    ~ member_at mem v a_str a_len j))
  /\ find_first_of mem v {| m_str := a_str; m_size := a_len |}
     = find_first_of_cn mem v a_str a_len.
Proof.
  intros Hv Ha Hn. split; [|reflexivity].
  unfold find_first_of_cn, member_at.
  destruct (index_of_any_leftmost mem a_str (Z.to_nat a_len) ltac:(lia)
              (Z.to_nat (m_size v)) (m_str v) 0
              ltac:(rewrite Z2Nat.id by lia; exact Hn) ltac:(lia) ltac:(lia))
    as [[Hr Hnone]|(i & Hr & Hi & Hm & Hbefore)]; rewrite Hr.
  - left. split; [reflexivity|]. intros i Hi.
    specialize (Hnone (Z.to_nat i) ltac:(lia)).
    rewrite Z2Nat.id in Hnone by lia. exact Hnone.
  - right. rewrite Z.add_0_l.
    rewrite to_size_t_small
      by (unfold size_t_max, size_t_modulus, ssize_t_max in *; lia).
    split; [lia|]. split; [exact Hm|].
    intros j Hj. specialize (Hbefore (Z.to_nat j) ltac:(lia)).
    rewrite Z2Nat.id in Hbefore by lia. exact Hbefore.
Qed.

Lemma find_first_of_is_leftmost_member_witness :
  ((find_first_of_cn mem_abc view_abc 1 2 = npos
    /\ forall i, 0 <= i < m_size view_abc -> ~ member_at mem_abc view_abc 1 2 i)
   \/ (0 <= find_first_of_cn mem_abc view_abc 1 2 < m_size view_abc
       /\ member_at mem_abc view_abc 1 2 (find_first_of_cn mem_abc view_abc 1 2)
       /\ forall j, 0 <= j < find_first_of_cn mem_abc view_abc 1 2 ->
                    ~ member_at mem_abc view_abc 1 2 j))
  /\ find_first_of mem_abc view_abc {| m_str := 1; m_size := 2 |}
     = find_first_of_cn mem_abc view_abc 1 2.
Proof.
  apply (find_first_of_is_leftmost_member mem_abc view_abc 1 2).
  - vm_compute. split; discriminate.
  - vm_compute. split; discriminate.
  - apply nul_free_abc; vm_compute; discriminate.
Defined.

(** X21.  [find_first_not_of] on a view that holds no terminator, for a
    set that is not empty: it returns [npos] when every code unit of the
    view is in the set, and otherwise the offset of the leftmost code unit
    that is not. *)
Theorem find_first_not_of_is_leftmost_other (mem : memory) (v : basic_char_view)
    (a_str : pointer) (a_len : Z) :
  0 <= m_size v <= ssize_t_max -> 0 < a_len <= ssize_t_max ->
  nul_free mem (m_str v) (m_size v) ->
  ((find_first_not_of_cn mem v a_str a_len = npos
    /\ forall i, 0 <= i < m_size v -> member_at mem v a_str a_len i)
   \/ (0 <= find_first_not_of_cn mem v a_str a_len < m_size v
       /\ ~ member_at mem v a_str a_len (find_first_not_of_cn mem v a_str a_len)
       /\ forall j, 0 <= j < find_first_not_of_cn mem v a_str a_len ->
                    member_at mem v a_str a_len j))
  /\ find_first_not_of mem v {| m_str := a_str; m_size := a_len |}
     = find_first_not_of_cn mem v a_str a_len.
Proof.
  intros Hv Ha Hn. split; [|reflexivity].
  unfold find_first_not_of_cn, member_at.
  destruct (index_of_nonmatching_leftmost mem a_str (Z.to_nat a_len) ltac:(lia)
              (Z.to_nat (m_size v)) (m_str v) 0 ltac:(lia)
              ltac:(rewrite Z2Nat.id by lia; exact Hn) ltac:(lia) ltac:(lia))
    as [[Hr Hall]|(i & Hr & Hi & Hm & Hbefore)]; rewrite Hr.
  - left. split; [reflexivity|]. intros i Hi.
    specialize (Hall (Z.to_nat i) ltac:(lia)).
    rewrite Z2Nat.id in Hall by lia. exact Hall.
  - right. rewrite Z.add_0_l.
    rewrite to_size_t_small
      by (unfold size_t_max, size_t_modulus, ssize_t_max in *; lia).
    split; [lia|]. split; [exact Hm|].
    intros j Hj. specialize (Hbefore (Z.to_nat j) ltac:(lia)).
    rewrite Z2Nat.id in Hbefore by lia. exact Hbefore.
Qed.

Lemma find_first_not_of_is_leftmost_other_witness :
  ((find_first_not_of_cn mem_abc view_abc 0 2 = npos
    /\ forall i, 0 <= i < m_size view_abc -> member_at mem_abc view_abc 0 2 i)
   \/ (0 <= find_first_not_of_cn mem_abc view_abc 0 2 < m_size view_abc
       /\ ~ member_at mem_abc view_abc 0 2 (find_first_not_of_cn mem_abc view_abc 0 2)
       /\ forall j, 0 <= j < find_first_not_of_cn mem_abc view_abc 0 2 ->
                    member_at mem_abc view_abc 0 2 j))
  /\ find_first_not_of mem_abc view_abc {| m_str := 0; m_size := 2 |}
     = find_first_not_of_cn mem_abc view_abc 0 2.
Proof.
  apply (find_first_not_of_is_leftmost_other mem_abc view_abc 0 2).
  - vm_compute. split; discriminate.
  - vm_compute. split; [reflexivity|discriminate].
  - apply nul_free_abc; vm_compute; discriminate.
Defined.

(** X22.  [find_last_of] on a view that holds no terminator: it returns
    [npos] when no code unit of the view is in the set, and otherwise the
    offset of the rightmost code unit that is. *)
Theorem find_last_of_is_rightmost_member (mem : memory) (v : basic_char_view)
    (a_str : pointer) (a_len : Z) :
  0 <= m_size v <= ssize_t_max -> 0 <= a_len <= ssize_t_max ->
  nul_free mem (m_str v) (m_size v) ->
  ((find_last_of_cn mem v a_str a_len = npos
    /\ forall i, 0 <= i < m_size v -> ~ member_at mem v a_str a_len i)
   \/ (0 <= find_last_of_cn mem v a_str a_len < m_size v
       /\ member_at mem v a_str a_len (find_last_of_cn mem v a_str a_len)
       /\ forall j, find_last_of_cn mem v a_str a_len < j < m_size v ->
                    ~ member_at mem v a_str a_len j))
  /\ find_last_of mem v {| m_str := a_str; m_size := a_len |}
     = find_last_of_cn mem v a_str a_len.
Proof.
  intros Hv Ha Hn. split; [|reflexivity].
  unfold find_last_of_cn, member_at.
  destruct (Z.eq_dec a_len 0) as [E|E].
  { subst a_len. change (Z.to_nat 0) with 0%nat.
    rewrite last_index_of_any_empty. left. split; [reflexivity|].
    intros i _ []. }
  destruct (last_index_of_any_rightmost mem a_str (Z.to_nat a_len) ltac:(lia)
              (Z.to_nat (m_size v)) (m_str v) 0 (-1) ltac:(lia)
              ltac:(rewrite Z2Nat.id by lia; exact Hn) ltac:(lia) ltac:(lia))
    as [[Hr Hnone]|(i & Hr & Hi & Hm & Hafter)]; rewrite Hr.
  - left. split; [reflexivity|]. intros i Hi.
    specialize (Hnone (Z.to_nat i) ltac:(lia)).
    rewrite Z2Nat.id in Hnone by lia. exact Hnone.
  - right. rewrite Z.add_0_l.
    rewrite to_size_t_small
      by (unfold size_t_max, size_t_modulus, ssize_t_max in *; lia).
    split; [lia|]. split; [exact Hm|].
    intros j Hj. specialize (Hafter (Z.to_nat j) ltac:(lia) ltac:(lia)).
    rewrite Z2Nat.id in Hafter by lia. exact Hafter.
Qed.

Lemma find_last_of_is_rightmost_member_witness :
  ((find_last_of_cn mem_abc view_abc 0 2 = npos
    /\ forall i, 0 <= i < m_size view_abc -> ~ member_at mem_abc view_abc 0 2 i)
   \/ (0 <= find_last_of_cn mem_abc view_abc 0 2 < m_size view_abc
       /\ member_at mem_abc view_abc 0 2 (find_last_of_cn mem_abc view_abc 0 2)
       /\ forall j, find_last_of_cn mem_abc view_abc 0 2 < j < m_size view_abc ->
                    ~ member_at mem_abc view_abc 0 2 j))
  /\ find_last_of mem_abc view_abc {| m_str := 0; m_size := 2 |}
     = find_last_of_cn mem_abc view_abc 0 2.
Proof.
  apply (find_last_of_is_rightmost_member mem_abc view_abc 0 2).
  - vm_compute. split; discriminate.
  - vm_compute. split; discriminate.
  - apply nul_free_abc; vm_compute; discriminate.
Defined.

(** X23.  [find_last_not_of] on a view that holds no terminator, for a
    set that is not empty: it returns [npos] when every code unit of the
    view is in the set, and otherwise the offset of the rightmost code unit
    that is not. *)
Theorem find_last_not_of_is_rightmost_other (mem : memory) (v : basic_char_view)
    (a_str : pointer) (a_len : Z) :
  0 <= m_size v <= ssize_t_max -> 0 < a_len <= ssize_t_max ->
  nul_free mem (m_str v) (m_size v) ->
  ((find_last_not_of_cn mem v a_str a_len = npos
    /\ forall i, 0 <= i < m_size v -> member_at mem v a_str a_len i)
   \/ (0 <= find_last_not_of_cn mem v a_str a_len < m_size v
       /\ ~ member_at mem v a_str a_len (find_last_not_of_cn mem v a_str a_len)
       /\ forall j, find_last_not_of_cn mem v a_str a_len < j < m_size v ->
                    member_at mem v a_str a_len j))
  /\ find_last_not_of mem v {| m_str := a_str; m_size := a_len |}
     = find_last_not_of_cn mem v a_str a_len.
Proof.
  intros Hv Ha Hn. split; [|reflexivity].
  unfold find_last_not_of_cn, member_at.
  destruct (last_index_of_nonmatching_rightmost mem a_str (Z.to_nat a_len)
              ltac:(lia) (Z.to_nat (m_size v)) (m_str v) 0 (-1) ltac:(lia)
              ltac:(rewrite Z2Nat.id by lia; exact Hn) ltac:(lia) ltac:(lia))
    as [[Hr Hall]|(i & Hr & Hi & Hm & Hafter)]; rewrite Hr.
  - left. split; [reflexivity|]. intros i Hi.
    specialize (Hall (Z.to_nat i) ltac:(lia)).
    rewrite Z2Nat.id in Hall by lia. exact Hall.
  - right. rewrite Z.add_0_l.
    rewrite to_size_t_small
      by (unfold size_t_max, size_t_modulus, ssize_t_max in *; lia).
    split; [lia|]. split; [exact Hm|].
    intros j Hj. specialize (Hafter (Z.to_nat j) ltac:(lia) ltac:(lia)).
    rewrite Z2Nat.id in Hafter by lia. exact Hafter.
Qed.

Lemma find_last_not_of_is_rightmost_other_witness :
  ((find_last_not_of_cn mem_abc view_abc 1 2 = npos
    /\ forall i, 0 <= i < m_size view_abc -> member_at mem_abc view_abc 1 2 i)
   \/ (0 <= find_last_not_of_cn mem_abc view_abc 1 2 < m_size view_abc
       /\ ~ member_at mem_abc view_abc 1 2 (find_last_not_of_cn mem_abc view_abc 1 2)
       /\ forall j, find_last_not_of_cn mem_abc view_abc 1 2 < j < m_size view_abc ->
                    member_at mem_abc view_abc 1 2 j))
  /\ find_last_not_of mem_abc view_abc {| m_str := 1; m_size := 2 |}
     = find_last_not_of_cn mem_abc view_abc 1 2.
Proof.
  apply (find_last_not_of_is_rightmost_other mem_abc view_abc 1 2).
  - vm_compute. split; discriminate.
  - vm_compute. split; [reflexivity|discriminate].
  - apply nul_free_abc; vm_compute; discriminate.
Defined.


(** ** Range checks and error policies *)

(** X24.  A range error needs both policies.  With the error policy that
    returns an empty value no accessor raises, whatever the range check;
    with the range check disabled no accessor raises, whatever the error
    policy, and [operator[]] reads the code unit at the given offset
    unchecked. *)
Theorem range_error_needs_both_policies (mem : memory) (empty_literal : pointer)
    (RangeCheck : RangeCheckPolicy) (Error : ErrorPolicy)
    (fuel : nat) (v : basic_char_view) (index len : Z) :
  ((exists c, @subscript mem RangeCheck ErrorPolicyEmptyValue v index = Ok c)
   /\ (exists c, @at_ mem RangeCheck ErrorPolicyEmptyValue v index = Ok c)
   /\ (exists c, @front mem RangeCheck ErrorPolicyEmptyValue v = Ok c)
   /\ (exists c, @back mem RangeCheck ErrorPolicyEmptyValue v = Ok c)
   /\ (exists w, @substr empty_literal RangeCheck ErrorPolicyEmptyValue v index len
                 = Ok w)
   /\ (exists w, @front_n empty_literal RangeCheck ErrorPolicyEmptyValue v len = Ok w)
   /\ @back_n mem empty_literal RangeCheck ErrorPolicyEmptyValue fuel v len
      <> Some RangeError)
  /\ (@subscript mem RangeCheckPolicyDisabled Error v index
      = Ok (mem (m_str v + index))
      /\ @at_ mem RangeCheckPolicyDisabled Error v index = Ok (mem (m_str v + index))
      /\ @front mem RangeCheckPolicyDisabled Error v = Ok (mem (m_str v + 0))
      /\ (exists c, @back mem RangeCheckPolicyDisabled Error v = Ok c)
      /\ (exists w, @substr empty_literal RangeCheckPolicyDisabled Error v index len
                    = Ok w)
      /\ (exists w, @front_n empty_literal RangeCheckPolicyDisabled Error v len = Ok w)
      /\ @back_n mem empty_literal RangeCheckPolicyDisabled Error fuel v len
         <> Some RangeError).
Proof.
  assert (Hsub : forall i, exists c,
            @subscript mem RangeCheck ErrorPolicyEmptyValue v i = Ok c).
  { intros i. unfold subscript.
    destruct (check_index_out_of_bounds (m_size v) i); eexists; reflexivity. }
  assert (Hstr : forall i l, exists w,
            @substr empty_literal RangeCheck ErrorPolicyEmptyValue v i l = Ok w).
  { intros i l. unfold substr.
    destruct (check_index_out_of_bounds (m_size v) i); eexists; reflexivity. }
  split.
  - split; [apply Hsub|]. split; [apply Hsub|]. split; [apply Hsub|].
    split.
    { unfold back. destruct (check_is_empty (m_size v));
        [eexists; reflexivity|apply Hsub]. }
    split; [apply Hstr|]. split; [apply Hstr|].
    unfold back_n, view_of_zstring.
    destruct (len =? 0).
    + destruct (details.length mem fuel empty_literal); discriminate.
    + destruct (len <=? m_size v).
      * destruct (Hstr (to_size_t (m_size v - len)) len) as [w ->]. discriminate.
      * destruct (Hstr 0 (m_size v)) as [w ->]. discriminate.
  - split; [reflexivity|]. split; [reflexivity|]. split; [reflexivity|].
    split; [eexists; reflexivity|]. split; [eexists; reflexivity|].
    split; [eexists; reflexivity|].
    unfold back_n, view_of_zstring, substr.
    cbn [check_index_out_of_bounds RangeCheckPolicyDisabled].
    destruct (len =? 0).
    + destruct (details.length mem fuel empty_literal); discriminate.
    + destruct (len <=? m_size v); discriminate.
Qed.

(** X25.  With the range check enabled and the error policy that returns
    an empty value, an access past the end gives the code unit 0 and the
    empty view at the literal of the empty string, and so do [front()],
    [back()] and [front(n)] of an empty view. *)
Theorem sentinel_policy_out_of_range (mem : memory) (empty_literal : pointer)
    (v e : basic_char_view) (index len : Z) :
  size v <= index -> empty e = true ->
  @subscript mem RangeCheckPolicyEnabled ErrorPolicyEmptyValue v index = Ok 0
  /\ @at_ mem RangeCheckPolicyEnabled ErrorPolicyEmptyValue v index = Ok 0
  /\ @substr empty_literal RangeCheckPolicyEnabled ErrorPolicyEmptyValue v index len
     = Ok {| m_str := empty_literal; m_size := 0 |}
  /\ @front mem RangeCheckPolicyEnabled ErrorPolicyEmptyValue e = Ok 0
  /\ @back mem RangeCheckPolicyEnabled ErrorPolicyEmptyValue e = Ok 0
  /\ @front_n empty_literal RangeCheckPolicyEnabled ErrorPolicyEmptyValue e len
     = Ok {| m_str := empty_literal; m_size := 0 |}.
Proof.
  unfold size, empty. intros Hv He. apply Z.eqb_eq in He.
  assert (Hi : (index >=? m_size v) = true) by (rewrite Z.geb_leb; apply Z.leb_le; lia).
  unfold at_, front, back, front_n, substr, subscript.
  cbn [check_index_out_of_bounds check_is_empty RangeCheckPolicyEnabled
       signal_range_check_error ErrorPolicyEmptyValue bind].
  rewrite Hi, He. cbn [Z.geb Z.eqb Z.compare].
  repeat split; reflexivity.
Qed.

Lemma sentinel_policy_out_of_range_witness :
  @subscript mem_abc RangeCheckPolicyEnabled ErrorPolicyEmptyValue view_abc 3 = Ok 0
  /\ @at_ mem_abc RangeCheckPolicyEnabled ErrorPolicyEmptyValue view_abc 3 = Ok 0
  /\ @substr 3 RangeCheckPolicyEnabled ErrorPolicyEmptyValue view_abc 3 1
     = Ok {| m_str := 3; m_size := 0 |}
  /\ @front mem_abc RangeCheckPolicyEnabled ErrorPolicyEmptyValue view_abc_end = Ok 0
  /\ @back mem_abc RangeCheckPolicyEnabled ErrorPolicyEmptyValue view_abc_end = Ok 0
  /\ @front_n 3 RangeCheckPolicyEnabled ErrorPolicyEmptyValue view_abc_end 1
     = Ok {| m_str := 3; m_size := 0 |}.
Proof.
  apply (sentinel_policy_out_of_range mem_abc 3 view_abc view_abc_end 3 1).
  - vm_compute. discriminate.
  - reflexivity.
Defined.

(** ** Sub-views *)

Lemma substr_in_range empty_literal (Error : ErrorPolicy)
    (v : basic_char_view) index len :
  0 <= index < m_size v -> m_size v <= int_max ->
  0 <= len -> index + len <= size_t_max ->
  @substr empty_literal RangeCheckPolicyEnabled Error v index len
  = Ok {| m_str := m_str v + index; m_size := Z.min len (m_size v - index) |}.
Proof.
  intros Hi Hv Hl Hw. unfold substr.
  cbn [check_index_out_of_bounds RangeCheckPolicyEnabled].
  destruct (Z.geb_spec index (m_size v)); [lia|].
  rewrite (to_size_t_small (index + len)) by lia.
  assert (Hmax : int_max <= size_t_max) by (vm_compute; discriminate).
  destruct (Z.leb_spec (index + len) (m_size v)).
  - rewrite make_view_small by lia. rewrite Z.min_l by lia. reflexivity.
  - rewrite to_size_t_small by lia.
    rewrite make_view_small by lia. rewrite Z.min_r by lia. reflexivity.
Qed.


(** X26.  [substr(index, len)] for a start inside the view and a length
    that does not carry [index + len] past [size_t]: the result is the
    view of the [min(len, size - index)] code units from [index] on, and
    its content is what [std::basic_string::substr] gives on the content
    of the view. *)
Theorem substr_is_subrange (mem : memory) (empty_literal : pointer)
    (Error : ErrorPolicy) (v : basic_char_view) (index len : Z) :
  0 <= index < m_size v -> m_size v <= int_max ->
  0 <= len -> index + len <= size_t_max ->
  exists w,
    @substr empty_literal RangeCheckPolicyEnabled Error v index len = Ok w
    /\ data w = data v + index
    /\ size w = Z.min len (size v - index)
    /\ to_std_string mem w
       = std_string.substr (to_std_string mem v) (Z.to_nat index) (Z.to_nat len).
Proof.
  intros Hi Hv Hl Hw. eexists. split; [apply substr_in_range; assumption|].
  split; [reflexivity|]. split; [reflexivity|].
  unfold to_std_string, std_string.substr. cbn [m_str m_size].
  rewrite skipn_read, firstn_read. rewrite Z2Nat.id by lia.
  f_equal. lia.
Qed.

Lemma substr_is_subrange_witness :
  exists w,
    @substr 3 RangeCheckPolicyEnabled ErrorPolicyThrowing view_abc 1 5 = Ok w
    /\ data w = data view_abc + 1
    /\ size w = Z.min 5 (size view_abc - 1)
    /\ to_std_string mem_abc w
       = std_string.substr (to_std_string mem_abc view_abc) (Z.to_nat 1) (Z.to_nat 5).
Proof.
  apply (substr_is_subrange mem_abc 3 ErrorPolicyThrowing view_abc 1 5).
  - vm_compute. split; [discriminate|reflexivity].
  - vm_compute. discriminate.
  - lia.
  - vm_compute. discriminate.
Defined.



(** X28.  The constructor takes the size as an [int] and stores it in a
    [size_t]: a negative size [n] becomes [2 ^ 64 + n], and the range
    check of the resulting view accepts every offset up to the largest
    [ssize_t]. *)
Theorem negative_size_defeats_range_check (mem : memory) (p : pointer)
    (n index : Z) :
  - 2 ^ 31 <= n < 0 -> 0 <= index <= ssize_t_max ->
  size (make_view p n) = 2 ^ 64 + n
  /\ @subscript mem RangeCheckPolicyEnabled ErrorPolicyThrowing
       (make_view p n) index = Ok (mem (p + index)).
Proof.
  intros Hn Hi.
  assert (Hs : m_size (make_view p n) = 2 ^ 64 + n).
  { unfold make_view. cbn [m_size].
    rewrite to_int_small by (unfold int_max; lia).
    unfold to_size_t. rewrite <- (Z_mod_plus_full n 1 (2 ^ 64)).
    rewrite Z.mod_small by lia. lia. }
  split; [exact Hs|].
  unfold subscript. cbn [check_index_out_of_bounds RangeCheckPolicyEnabled].
  rewrite Hs.
  destruct (Z.geb_spec index (2 ^ 64 + n)); [unfold ssize_t_max in Hi; lia|].
  reflexivity.
Qed.

Lemma negative_size_defeats_range_check_witness :
  size (make_view 0 (-1)) = 2 ^ 64 + -1
  /\ @subscript mem_abc RangeCheckPolicyEnabled ErrorPolicyThrowing
       (make_view 0 (-1)) 7 = Ok (mem_abc (0 + 7)).
Proof.
  apply (negative_size_defeats_range_check mem_abc 0 (-1) 7).
  - lia.
  - vm_compute. split; discriminate.
Defined.

(** ** [compare] against a zero-terminated string *)

Lemma compare_unlimited_lex mem :
  forall content_limit content search_text n search_limit,
  search_limit < 0 ->
  (forall i, 0 <= i < Z.of_nat content_limit -> 0 < mem (content + i)) ->
  zstring mem search_text n ->
  details.compare mem content search_text content_limit search_limit
  = lex_compare (read mem content content_limit) (read mem search_text n).
Proof.
  induction content_limit as [|cl IH]; intros c s n sl Hsl Hpos Hz;
    cbn [details.compare];
    (replace (sl =? 0) with false by (symmetry; apply Z.eqb_neq; lia)).
  - destruct n as [|n].
    + rewrite (zstring_zero mem s Hz). reflexivity.
    + pose proof (zstring_head mem s n Hz) as Hs.
      apply Z.eqb_neq in Hs. rewrite Hs, read_cons. reflexivity.
  - assert (Hc : 0 < mem c).
    { rewrite <- (Z.add_0_r c). apply Hpos. lia. }
    rewrite read_cons. destruct n as [|n].
    + rewrite (zstring_zero mem s Hz).
      replace (mem c >? 0) with true by (symmetry; apply Z.gtb_lt; lia).
      reflexivity.
    + rewrite read_cons. cbn [lex_compare].
      destruct (mem c >? mem s); [reflexivity|].
      destruct (mem c <? mem s); [reflexivity|].
      replace (mem c =? 0) with false by (symmetry; apply Z.eqb_neq; lia).
      apply IH; [lia| |apply zstring_tail; exact Hz].
      intros i Hi. replace (c + 1 + i) with (c + (i + 1)) by lia.
      apply Hpos. lia.
Qed.

(** X29.  [compare(const charT* a_str)] on a view whose code units are all
    positive: against a zero-terminated string it is the lexicographic
    three-way comparison of the content of the view with the code units
    before the terminator, and it is 0 exactly when the two are the
    same. *)
Theorem compare_z_is_lexicographic (mem : memory) (v : basic_char_view)
    (a_str : pointer) (n : nat) :
  0 <= m_size v ->
  (forall i, 0 <= i < m_size v -> 0 < mem (m_str v + i)) ->
  zstring mem a_str n ->
  compare_z mem v a_str = lex_compare (to_std_string mem v) (read mem a_str n)
  /\ (compare_z mem v a_str = 0
      <-> Z.of_nat n = m_size v /\ to_std_string mem v = read mem a_str n).
Proof.
  intros Hv Hpos Hz.
  assert (Hc : compare_z mem v a_str
               = lex_compare (to_std_string mem v) (read mem a_str n)).
  { unfold compare_z, to_std_string.
    apply compare_unlimited_lex; [lia| |exact Hz].
    intros i Hi. apply Hpos. lia. }
  split; [exact Hc|]. rewrite Hc, lex_compare_eq. split.
  - intros E. split; [|exact E].
    apply (f_equal (@List.length charT)) in E. unfold to_std_string in E.
    rewrite !read_length in E. lia.
  - intros [_ E]. exact E.
Qed.

Lemma compare_z_is_lexicographic_witness :
  compare_z mem_abc view_bc 0
  = lex_compare (to_std_string mem_abc view_bc) (read mem_abc 0 3)
  /\ (compare_z mem_abc view_bc 0 = 0
      <-> Z.of_nat 3 = m_size view_bc
          /\ to_std_string mem_abc view_bc = read mem_abc 0 3).
Proof.
  apply (compare_z_is_lexicographic mem_abc view_bc 0 3).
  - vm_compute. discriminate.
  - intros i Hi. assert (Hc : i = 0 \/ i = 1) by (cbn in Hi; lia).
    destruct Hc as [-> | ->]; reflexivity.
  - exact zstring_abc.
Defined.
